(** * MatrixMagic: the numerical linear-algebra core and its components

    A shallow embedding of [utils/matrixOperations.ts], of the
    algorithms that the calculator and animation components build on it
    ([solveByRREF], [solveByInverse], [matrixPower] and the other matrix
    functions, the characteristic polynomial, the traces of
    [InteractiveAnimations.tsx] and [StepByStepMode.tsx]), and of the
    state handlers of the panels and of the matrix editor.

    Numbers.  A TypeScript [number] is an IEEE double.  The embedding is
    parametric in the arithmetic: every function below is written against
    the class [Arith], which lists exactly the operations the source
    uses.  Three instances are given: IEEE doubles (primitive floats);
    exact rationals ([Qc]), on which runs are evaluated exactly; and the
    real numbers, for statements of exact arithmetic that need
    [Math.sqrt] and [Math.acos].  A general theorem holds for every
    arithmetic, or for every arithmetic with the laws it lists; a law
    that doubles satisfy is proved for them where it is used, and a
    theorem that needs exact arithmetic says so.

    Arrays.  A [Matrix] is [number[][]]: a list of rows.  Reading past
    the end of a row yields [undefined] in JavaScript, which arithmetic
    turns into [NaN]; the class has a field [nan] for that value.  Reading
    a property of [undefined] (for instance [matrix[0].length] on an empty
    matrix) raises a [TypeError].  Exceptions are modelled by the error
    monad [result].  The loops of the source index rows below
    [matrix.length] and columns below [matrix[0].length] only; on a
    rectangular matrix, which is what [isValidMatrix] accepts, every such
    access is in range, and the theorems are about those matrices.  In
    particular the row operations write cells that exist, and a write is
    the update of a list in place; an assignment past the end of a short
    row, which would lengthen it, does not occur.

    Mutation.  The first part treats arrays as values: an in-place update
    of the working copy becomes an update of a list.  The second part
    ([The store]) models the same operations on a store of array
    objects, where a matrix is an array of references to its rows, to
    settle which arrays an operation writes and what it returns. *)

From Stdlib Require Import Floats.
From Stdlib Require Import QArith Qcanon Qcabs Reals Lra Ring.
From stdpp Require Import base option list strings numbers.

Close Scope R_scope.
Close Scope float_scope.
Close Scope Qc_scope.
Close Scope Q_scope.
Set Warnings "-inexact-float".
Local Open Scope nat_scope.

(** ** Exceptions *)

Inductive exn : Type :=
| Error (msg : string)   (* [throw new Error(msg)] *)
| TypeError.             (* property read on [undefined] *)

Inductive result (A : Type) : Type :=
| Ok (a : A)
| Throw (e : exn).
Arguments Ok {A} a.
Arguments Throw {A} e.

(** Sequencing: an exception raised by [r] propagates. *)
Definition rbind {A B : Type} (r : result A) (f : A → result B) : result B :=
  match r with Ok a => f a | Throw e => Throw e end.

Notation "'let*' x := r 'in' k" := (rbind r (fun x => k))
  (at level 10, x name, r at level 100, k at level 200).

Definition is_ok {A} (r : result A) : bool :=
  match r with Ok _ => true | Throw _ => false end.

(** ** Arithmetic *)

Class Arith (num : Type) : Type := {
  zero : num;
  one : num;
  add : num → num → num;
  sub : num → num → num;
  mul : num → num → num;
  div : num → num → num;
  neg : num → num;
  nabs : num → num;            (* [Math.abs] *)
  ltb : num → num → bool;      (* [a < b]; [a > b] is [ltb b a] *)
  eqb : num → num → bool;      (* [a === b] *)
  of_Z : Z → num;              (* an integer literal or loop counter *)
  tol : num;                   (* the literal [1e-10] *)
  nan : num                    (* arithmetic on [undefined] *)
}.

(** The real-valued library calls of the vector module. *)
Class Trans (num : Type) : Type := {
  nsqrt : num → num;           (* [Math.sqrt] *)
  nacos : num → num;           (* [Math.acos] *)
  nmax : num → num → num;      (* [Math.max] *)
  nmin : num → num → num       (* [Math.min] *)
}.

(** [type Vector = number[]] and [type Matrix = number[][]] *)
Abbreviation Vector num := (list num) (only parsing).
Abbreviation Matrix num := (list (list num)) (only parsing).

Section Model.
Context {num : Type} `{Arith num}.

(** [gtb a b] is [a > b]. *)
Definition gtb (a b : num) : bool := ltb b a.

(** [Math.pow(-1, i)] for an array index [i]. *)
Definition pow_neg1 (i : nat) : num := if Nat.even i then one else neg one.

(** [row[j]] and [matrix[i][j]] on numbers. *)
Definition vget (row : list num) (j : nat) : num := default nan (row !! j).
Definition mget (matrix : Matrix num) (i j : nat) : num :=
  vget (default [] (matrix !! i)) j.

(** [for (let i = lo; i < hi; i++) body], threading the loop state. *)
Definition for_range {St : Type} (lo hi : nat) (body : nat → St → St) (s : St) : St :=
  foldl (fun s i => body i s) s (seq lo (hi - lo)).

(** *** Basic operations *)

Definition createMatrix (rows cols : nat) (fill : num) : Matrix num :=
  replicate rows (replicate cols fill).

Definition isValidMatrix (matrix : Matrix num) : bool :=
  match matrix with
  | [] => false
  | row0 :: _ => forallb (fun row => length row =? length row0) matrix
  end.

(** A matrix with [rows] rows, each of [cols] entries. *)
Definition dims (rows cols : nat) (matrix : Matrix num) : Prop :=
  length matrix = rows ∧ Forall (fun row => length row = cols) matrix.

(** [a.length !== b.length || a[0].length !== b[0].length]; the second
    disjunct is only evaluated when the first is false. *)
Definition same_dims (a b : Matrix num) : result bool :=
  if negb (length a =? length b) then Ok false
  else match a, b with
       | a0 :: _, b0 :: _ => Ok (length a0 =? length b0)
       | _, _ => Throw TypeError
       end.

Definition addMatrices (a b : Matrix num) : result (Matrix num) :=
  let* ok := same_dims a b in
  if ok then
    Ok (imap (fun i row => imap (fun j val => add val (mget b i j)) row) a)
  else Throw (Error "Matrices must have the same dimensions for addition"%string).

Definition subtractMatrices (a b : Matrix num) : result (Matrix num) :=
  let* ok := same_dims a b in
  if ok then
    Ok (imap (fun i row => imap (fun j val => sub val (mget b i j)) row) a)
  else Throw (Error "Matrices must have the same dimensions for subtraction"%string).

(** The triple loop accumulates [result[i][j] += a[i][k] * b[k][j]] from
    the fill value [0]; every cell is computed independently. *)
Definition multiplyMatrices (a b : Matrix num) : result (Matrix num) :=
  match a with
  | [] => Throw TypeError
  | a0 :: _ =>
    if negb (length a0 =? length b) then
      Throw (Error "Number of columns in first matrix must equal number of rows in second matrix"%string)
    else match b with
    | [] => Throw TypeError
    | b0 :: _ =>
      Ok (map (fun i =>
            map (fun j =>
              for_range 0 (length a0)
                (fun k acc => add acc (mul (mget a i k) (mget b k j))) zero)
              (seq 0 (length b0)))
            (seq 0 (length a)))
    end
  end.

Definition scalarMultiply (matrix : Matrix num) (scalar : num) : Matrix num :=
  map (fun row => map (fun val => mul val scalar) row) matrix.

Definition transpose (matrix : Matrix num) : result (Matrix num) :=
  match matrix with
  | [] => Throw TypeError
  | row0 :: _ =>
    Ok (map (fun colIndex => map (fun row => vget row colIndex) matrix)
            (seq 0 (length row0)))
  end.

(** *** Determinant *)

(** [matrix.slice(1).map(row => row.filter((_, j) => j !== i))] *)
Definition minor (matrix : Matrix num) (i : nat) : Matrix num :=
  map (fun row => delete i row) (tail matrix).

(** The recursion is on the number of rows; [fuel] bounds it. *)
Fixpoint det_fuel (fuel : nat) (matrix : Matrix num) : result num :=
  match matrix with
  | [] => Throw TypeError
  | row0 :: _ =>
    let n := length matrix in
    if negb (n =? length row0) then
      Throw (Error "Matrix must be square to calculate determinant"%string)
    else if n =? 1 then Ok (mget matrix 0 0)
    else if n =? 2 then
      Ok (sub (mul (mget matrix 0 0) (mget matrix 1 1))
              (mul (mget matrix 0 1) (mget matrix 1 0)))
    else match fuel with
    | 0 => Throw TypeError
    | S fuel' =>
      for_range 0 n
        (fun i acc =>
           let* det := acc in
           let* d := det_fuel fuel' (minor matrix i) in
           Ok (add det (mul (mul (mget matrix 0 i) (pow_neg1 i)) d)))
        (Ok zero)
    end
  end.

Definition determinant (matrix : Matrix num) : result num :=
  det_fuel (length matrix) matrix.

(** The cofactor expansion on a matrix given by its entries: [skip j c]
    is the column of the original that column [c] of the minor without
    column [j] comes from, [sumn] the left-to-right sum of the loop, and
    [detF n f] the expansion of an [n]-by-[n] matrix along its first
    row. *)
Definition skip (j c : nat) : nat := if c <? j then c else S c.

Fixpoint sumn (n : nat) (g : nat → num) : num :=
  match n with
  | 0 => zero
  | S n' => add (sumn n' g) (g n')
  end.

Fixpoint detF (n : nat) (f : nat → nat → num) : num :=
  match n with
  | 0 => one
  | S n' =>
    sumn (S n')
      (fun j => mul (mul (f 0 j) (pow_neg1 j))
                    (detF n' (fun r c => f (S r) (skip j c))))
  end.

(** *** Row reduction *)

(** The pivot search of [rref] and [gaussJordan]: starting from row
    [start], the first row with the largest magnitude in column [col]. *)
Definition find_pivot (result : Matrix num) (start rows col : nat) : nat :=
  for_range (start + 1) rows
    (fun i maxRow =>
       if gtb (nabs (mget result i col)) (nabs (mget result maxRow col))
       then i else maxRow)
    start.

(** [[result[i], result[j]] = [result[j], result[i]]] *)
Definition swap_rows (result : Matrix num) (i j : nat) : Matrix num :=
  <[j := default [] (result !! i)]> (<[i := default [] (result !! j)]> result).

(** [for (j < cols) result[r][j] /= pivot] *)
Definition scale_row (result : Matrix num) (r cols : nat) (pivot : num) : Matrix num :=
  for_range 0 cols
    (fun j res => <[r := <[j := div (mget res r j) pivot]> (default [] (res !! r))]> res)
    result.

(** [for (j < cols) result[i][j] -= factor * result[p][j]] *)
Definition sub_row (result : Matrix num) (i p cols : nat) (factor : num) : Matrix num :=
  for_range 0 cols
    (fun j res =>
       <[i := <[j := sub (mget res i j) (mul factor (mget res p j))]>
                (default [] (res !! i))]> res)
    result.

(** One iteration of the column loop of [rref] on the state
    [(result, pivotRow)]; the loop condition [pivotRow < rows] is part of
    the body. *)
Definition rref_col (rows cols col : nat) (st : Matrix num * nat) : Matrix num * nat :=
  let '(result, pivotRow) := st in
  if negb (pivotRow <? rows) then st
  else
    let maxRow := find_pivot result pivotRow rows col in
    if ltb (nabs (mget result maxRow col)) tol then st
    else
      let result := swap_rows result pivotRow maxRow in
      let pivot := mget result pivotRow col in
      let result := scale_row result pivotRow cols pivot in
      let result :=
        for_range 0 rows
          (fun i res =>
             if negb (i =? pivotRow) && gtb (nabs (mget res i col)) tol
             then sub_row res i pivotRow cols (mget res i col)
             else res)
          result in
      (result, pivotRow + 1).

Definition rref (matrix : Matrix num) : result (Matrix num) :=
  match matrix with
  | [] => Throw TypeError
  | row0 :: _ =>
    let rows := length matrix in
    let cols := length row0 in
    Ok (for_range 0 cols (rref_col rows cols) (matrix, 0)).1
  end.

(** The pivot candidate of iteration [i] of [gaussJordan]: the entry
    [result[i][i]] after the swap. *)
Definition gj_pivot (rows i : nat) (result : Matrix num) : num :=
  mget (swap_rows result i (find_pivot result i rows i)) i i.

(** The pivot that iteration [col] of [rref] divides by, when the
    iteration selects one: [result[pivotRow][col]] after the swap. *)
Definition rref_pivot_at (rows col : nat) (st : Matrix num * nat) : option num :=
  let '(result, pivotRow) := st in
  if negb (pivotRow <? rows) then None
  else
    let maxRow := find_pivot result pivotRow rows col in
    if ltb (nabs (mget result maxRow col)) tol then None
    else Some (mget (swap_rows result pivotRow maxRow) pivotRow col).

(** The pivots selected while the columns [cs] are processed from the
    state [st], in order. *)
Fixpoint rref_pivots_from (rows cols : nat) (cs : list nat)
    (st : Matrix num * nat) : list num :=
  match cs with
  | [] => []
  | col :: cs' =>
    match rref_pivot_at rows col st with Some p => [p] | None => [] end
    ++ rref_pivots_from rows cols cs' (rref_col rows cols col st)
  end.

Definition rref_pivots (matrix : Matrix num) : list num :=
  let rows := length matrix in
  let cols := length (default [] (matrix !! 0)) in
  rref_pivots_from rows cols (seq 0 cols) (matrix, 0).

(** A pivot on which the traced and the untraced elimination agree: it
    differs from 1 by more than the tolerance, or it is 1. *)
Definition clean_pivot (p : num) : bool :=
  gtb (nabs (sub p one)) tol || eqb p one.

(** Exact reduced row echelon form.  [pivots] lists the pivot columns of
    the leading rows: row [k] has a 1 in column [pivots[k]] and zeros to
    its left, that column is zero in every other row, the pivot columns
    increase, and the rows after the leading ones are zero. *)
Definition pivot_col (pivots : list nat) (k : nat) : nat :=
  default 0 (pivots !! k).

Definition exact_rref (pivots : list nat) (matrix : Matrix num) : bool :=
  let rows := length matrix in
  let cols := length (default [] (matrix !! 0)) in
  let p := length pivots in
  (p <=? rows)
  && forallb
       (fun k =>
          let c := pivot_col pivots k in
          eqb (mget matrix k c) one
          && forallb (fun j => eqb (mget matrix k j) zero) (seq 0 c)
          && forallb (fun i => (i =? k) || eqb (mget matrix i c) zero) (seq 0 rows)
          && forallb (fun k' => c <? pivot_col pivots k') (seq (S k) (p - S k)))
       (seq 0 p)
  && forallb
       (fun i => forallb (fun j => eqb (mget matrix i j) zero) (seq 0 cols))
       (seq p (rows - p)).

(** The state of [rref] on entry to column [col] when it runs on a
    matrix [M] in exact reduced row echelon form: the matrix is unchanged
    and [pivotRow] counts the pivot columns to the left of [col]. *)
Definition at_column (pivots : list nat) (M : Matrix num) (col : nat)
    (st : Matrix num * nat) : Prop :=
  st.1 = M ∧ st.2 ≤ length pivots ∧
  (∀ k, k < st.2 → pivot_col pivots k < col) ∧
  (∀ k, st.2 ≤ k < length pivots → col ≤ pivot_col pivots k).

(** One iteration of the loop of [gaussJordan]. *)
Definition gj_col (rows cols i : nat) (result : Matrix num) : Matrix num :=
  let maxRow := find_pivot result i rows i in
  let result := swap_rows result i maxRow in
  let pivot := mget result i i in
  if ltb (nabs pivot) tol then result
  else
    let result := scale_row result i cols pivot in
    for_range 0 rows
      (fun k res =>
         if negb (k =? i) then sub_row res k i cols (mget res k i) else res)
      result.

Definition gaussJordan (matrix : Matrix num) : result (Matrix num) :=
  match matrix with
  | [] => Throw TypeError
  | row0 :: _ =>
    let rows := length matrix in
    let cols := length row0 in
    Ok (for_range 0 (Nat.min rows cols) (gj_col rows cols) matrix)
  end.

(** The iterations of [gaussJordan] at which the guard
    [Math.abs(pivot) < 1e-10] fires and the column is skipped. *)
Definition gj_skipped (matrix : Matrix num) : list nat :=
  let rows := length matrix in
  let cols := length (default [] (matrix !! 0)) in
  (for_range 0 (Nat.min rows cols)
     (fun i '(result, skipped) =>
        (gj_col rows cols i result,
         if ltb (nabs (gj_pivot rows i result)) tol then skipped ++ [i] else skipped))
     (matrix, [])).2.

(** The augmented matrix [[A|I]] built by [inverse]. *)
Definition augment_identity (matrix : Matrix num) : Matrix num :=
  let n := length matrix in
  imap (fun i row => row ++ map (fun j => if i =? j then one else zero) (seq 0 n))
       matrix.

Definition inverse (matrix : Matrix num) : result (Matrix num) :=
  match matrix with
  | [] => Throw TypeError
  | row0 :: _ =>
    let n := length matrix in
    if negb (n =? length row0) then
      Throw (Error "Matrix must be square to calculate inverse"%string)
    else
      let* det := determinant matrix in
      if ltb (nabs det) tol then
        Throw (Error "Matrix is singular and cannot be inverted"%string)
      else if n =? 2 then
        let a := mget matrix 0 0 in
        let b := mget matrix 0 1 in
        let c := mget matrix 1 0 in
        let d := mget matrix 1 1 in
        Ok [[div d det; div (neg b) det]; [div (neg c) det; div a det]]
      else
        let* gj := gaussJordan (augment_identity matrix) in
        Ok (map (fun row => drop n row) (take n gj))
  end.

Definition rank (matrix : Matrix num) : result nat :=
  let* rrefMatrix := rref matrix in
  Ok (foldl (fun rank row =>
               if existsb (fun val => gtb (nabs val) tol) row
               then rank + 1 else rank)
            0 rrefMatrix).

(** *** Equation solver ([EquationSolver.tsx]) *)

Inductive SolutionType : Type := unique | infinite | none.

(** The [Solution] object.  [sol_free] is the number [n - pivotCount]
    interpolated into the message of an [infinite] result; the textual
    [steps] are not modelled. *)
Record Solution : Type := mkSolution {
  sol_type : SolutionType;
  sol_solution : option (Vector num);
  sol_free : option Z
}.

(** [row.slice(0, n).every(val => Math.abs(val) < 1e-10)] *)
Definition isZeroRow (n : nat) (row : list num) : bool :=
  forallb (fun val => ltb (nabs val) tol) (take n row).

(** [isZeroRow && augmentedValue > 1e-10] *)
Definition contradiction_row (n : nat) (row : list num) : bool :=
  isZeroRow n row && gtb (nabs (vget row n)) tol.

(** The inner loop of the pivot count: the first [j < n] with
    [Math.abs(row[j]) > 1e-10], if any. *)
Definition first_pivot (n : nat) (row : list num) : option nat :=
  find (fun j => gtb (nabs (vget row j)) tol) (seq 0 n).

(** [pivotCols] after the counting loop; [pivotCount] is its length. *)
Definition pivot_columns (n : nat) (rrefMatrix : Matrix num) : list nat :=
  omap (first_pivot n) rrefMatrix.

(** The augmented matrix [[A|b]]: [A.map((row, i) => [...row, b[i]])]. *)
Definition augment_vector (A : Matrix num) (b : Vector num) : Matrix num :=
  imap (fun i row => row ++ [vget b i]) A.

Definition solveByRREF (A : Matrix num) (b : Vector num) : result Solution :=
  let augmented := augment_vector A b in
  let* rrefMatrix := rref augmented in
  let n := length (default [] (rrefMatrix !! 0)) - 1 in
  if existsb (contradiction_row n) rrefMatrix then
    Ok (mkSolution none None None)
  else
    let pivotCols := pivot_columns n rrefMatrix in
    let pivotCount := length pivotCols in
    if pivotCount =? n then
      let solution :=
        for_range 0 pivotCount
          (fun i sol => <[default 0 (pivotCols !! i) := mget rrefMatrix i n]> sol)
          (replicate n zero) in
      Ok (mkSolution unique (Some solution) None)
    else
      Ok (mkSolution infinite None (Some (Z.of_nat n - Z.of_nat pivotCount)%Z)).

(** *** Matrix functions ([AdvancedCalculators.tsx]) *)

(** [createMatrix(n, n, 0)] followed by [identity[i][i] = 1]. *)
Definition identity (n : nat) : Matrix num :=
  for_range 0 n
    (fun i id => <[i := <[i := one]> (default [] (id !! i))]> id)
    (createMatrix n n zero).

Definition matrixPower (A : Matrix num) (power : Z) : result (Matrix num) :=
  if (power =? 0)%Z then Ok (identity (length A))
  else if (power =? 1)%Z then Ok A
  else
    for_range 1 (Z.to_nat power)
      (fun _ acc => let* result := acc in multiplyMatrices result A)
      (Ok A).

(** The repeated product as the specification words it: [A] multiplied
    by itself, [k] multiplications in all, associated to the left. *)
Fixpoint repeated_product (A : Matrix num) (k : nat) : result (Matrix num) :=
  match k with
  | 0 => Ok A
  | S k' => let* P := repeated_product A k' in multiplyMatrices P A
  end.

Definition matrixExponential (A : Matrix num) : result (Matrix num) :=
  let id := identity (length A) in
  let* st :=
    for_range 1 11
      (fun k acc =>
         let* st := acc in
         let '(result, term, factorial) := st in
         let factorial := mul factorial (of_Z (Z.of_nat k)) in
         let* term := multiplyMatrices term A in
         let scaledTerm := scalarMultiply term (div one factorial) in
         let* result := addMatrices result scaledTerm in
         Ok (result, term, factorial))
      (Ok (id, id, one)) in
  Ok st.1.1.

(** The common loop of [matrixSine] and [matrixCosine] over the listed
    values of [k]. *)
Definition taylor_loop (A first : Matrix num) (ks : list nat) : result (Matrix num) :=
  let* st :=
    foldl
      (fun acc k =>
         let* st := acc in
         let '(result, term, factorial, sign) := st in
         let factorial :=
           mul factorial (mul (of_Z (Z.of_nat k - 1)) (of_Z (Z.of_nat k))) in
         let* t := multiplyMatrices term A in
         let* term := multiplyMatrices t A in
         let scaledTerm := scalarMultiply term (div sign factorial) in
         let* result := addMatrices result scaledTerm in
         Ok (result, term, factorial, mul sign (neg one)))
      (Ok (first, first, one, neg one)) ks in
  Ok st.1.1.1.

Definition matrixSine (A : Matrix num) : result (Matrix num) :=
  taylor_loop A A [3; 5; 7; 9].

Definition matrixCosine (A : Matrix num) : result (Matrix num) :=
  taylor_loop A (identity (length A)) [2; 4; 6; 8].

(** [power] is the optional third argument; [!power] holds for
    [undefined] and for [0]. *)
Definition calculateMatrixFunction (A : Matrix num) (func : string)
    (power : option Z) : result (Matrix num) :=
  match A with
  | [] => Throw TypeError
  | row0 :: _ =>
    if negb (length A =? length row0) then
      Throw (Error "Matrix must be square"%string)
    else if String.eqb func "power" then
      match power with
      | Some p =>
        if (p =? 0)%Z || (p <? 0)%Z then
          Throw (Error "Power must be a positive integer"%string)
        else matrixPower A p
      | None => Throw (Error "Power must be a positive integer"%string)
      end
    else if String.eqb func "exp" then matrixExponential A
    else if String.eqb func "sin" then matrixSine A
    else if String.eqb func "cos" then matrixCosine A
    else Throw (Error "Unknown function type"%string)
  end.

(** *** Traced row reduction ([InteractiveAnimations.tsx]) *)

(** The [description] of a step.  The source builds the description, the
    operation and the explanation strings from these data (row numbers,
    and [formatNumber] of the pivot or factor). *)
Inductive Description : Type :=
| StartingMatrix                           (* 'Starting Matrix' *)
| RowSwap (r1 r2 : nat)                    (* 'Row Swap: R.. <-> R..' *)
| ScaleRow (r : nat) (pivot : num)         (* 'Scale Row: ...' *)
| Eliminate (i p : nat) (factor : num)     (* 'Eliminate: ...' *)
| RREFComplete.                            (* 'RREF Complete!' *)

Record Highlight : Type := mkHighlight {
  hl_row : option nat;
  hl_col : option nat
}.

Record AnimationStep : Type := mkStep {
  step_id : nat;
  step_description : Description;
  step_matrix : Matrix num;                 (* [result.map(row => [...row])] *)
  step_highlight : option Highlight
}.

(** The state of the traced loop: [result], [pivotRow], [steps], [stepId]. *)
Record GaussState : Type := mkGauss {
  g_result : Matrix num;
  g_pivotRow : nat;
  g_steps : list AnimationStep;
  g_stepId : nat
}.

Definition push_step (st : GaussState) (result : Matrix num) (d : Description)
    (h : Highlight) : GaussState :=
  mkGauss result (g_pivotRow st)
    (g_steps st ++ [mkStep (g_stepId st) d result (Some h)])
    (g_stepId st + 1).

Definition gauss_col (rows cols col : nat) (st : GaussState) : GaussState :=
  let pivotRow := g_pivotRow st in
  if negb (pivotRow <? rows) then st
  else
    let maxRow := find_pivot (g_result st) pivotRow rows col in
    if ltb (nabs (mget (g_result st) maxRow col)) tol then st
    else
      let st :=
        if negb (maxRow =? pivotRow) then
          push_step st (swap_rows (g_result st) pivotRow maxRow)
            (RowSwap pivotRow maxRow) (mkHighlight (Some pivotRow) None)
        else st in
      let pivot := mget (g_result st) pivotRow col in
      let st :=
        if gtb (nabs (sub pivot one)) tol then
          push_step st (scale_row (g_result st) pivotRow cols pivot)
            (ScaleRow pivotRow pivot) (mkHighlight (Some pivotRow) (Some col))
        else st in
      let st :=
        for_range 0 rows
          (fun i st =>
             if negb (i =? pivotRow) && gtb (nabs (mget (g_result st) i col)) tol
             then
               let factor := mget (g_result st) i col in
               push_step st (sub_row (g_result st) i pivotRow cols factor)
                 (Eliminate i pivotRow factor) (mkHighlight (Some i) (Some col))
             else st)
          st in
      mkGauss (g_result st) (pivotRow + 1) (g_steps st) (g_stepId st).

Definition generateGaussianSteps (matrix : Matrix num) : result (list AnimationStep) :=
  match matrix with
  | [] => Throw TypeError
  | row0 :: _ =>
    let rows := length matrix in
    let cols := length row0 in
    let st0 := mkGauss matrix 0 [mkStep 0 StartingMatrix matrix None] 1 in
    let st := for_range 0 cols (gauss_col rows cols) st0 in
    Ok (g_steps st ++ [mkStep (g_stepId st) RREFComplete (g_result st) None])
  end.

(** The traced state shows the state of [rref]. *)
Definition shows (st : GaussState) (rst : Matrix num * nat) : Prop :=
  g_result st = rst.1 ∧ g_pivotRow st = rst.2.

(** *** Traced LU decomposition *)

Inductive LUDescription : Type :=
| LUNotSquare                  (* 'Error: Matrix must be square' *)
| LUInitialize                 (* 'Initialize L and U' *)
| LUWorking (k : nat)          (* 'Step k+1: Working on column k+1' *)
| LUZeroPivot                  (* 'Error: Zero pivot encountered' *)
| LUEliminate (i k : nat) (factor : num)   (* 'Eliminate U[i+1][k+1]' *)
| LUComplete.                  (* 'LU Decomposition Complete' *)

(** The [matrix] field of an LU step is a reference, not a copy: either
    the argument [matrix] or the working array [U], which later
    iterations keep updating. *)
Inductive MatrixRef : Type := RefInput | RefU.

Record LUStep : Type := mkLUStep {
  lu_id : nat;
  lu_description : LUDescription;
  lu_matrix : MatrixRef
}.

(** The loop state; [lu_done] is set by the [return steps] inside the
    loop. *)
Record LUState : Type := mkLU {
  lu_L : Matrix num;
  lu_U : Matrix num;
  lu_steps : list LUStep;
  lu_stepId : nat;
  lu_done : bool
}.

Definition lu_push (st : LUState) (d : LUDescription) (m : MatrixRef) : LUState :=
  mkLU (lu_L st) (lu_U st) (lu_steps st ++ [mkLUStep (lu_stepId st) d m])
    (lu_stepId st + 1) (lu_done st).

(** The body of the inner loop [for (i = k + 1; i < n; i++)]. *)
Definition lu_row (n k i : nat) (st : LUState) : LUState :=
  if lu_done st then st
  else if ltb (nabs (mget (lu_U st) k k)) tol then
    let st := lu_push st LUZeroPivot RefU in
    mkLU (lu_L st) (lu_U st) (lu_steps st) (lu_stepId st) true
  else
    let factor := div (mget (lu_U st) i k) (mget (lu_U st) k k) in
    let L := <[i := <[k := factor]> (default [] (lu_L st !! i))]> (lu_L st) in
    let U :=
      for_range k n
        (fun j U => <[i := <[j := sub (mget U i j) (mul factor (mget U k j))]>
                             (default [] (U !! i))]> U)
        (lu_U st) in
    lu_push (mkLU L U (lu_steps st) (lu_stepId st) false) (LUEliminate i k factor) RefU.

(** The body of the outer loop [for (k = 0; k < n - 1; k++)]. *)
Definition lu_col (n k : nat) (st : LUState) : LUState :=
  if lu_done st then st
  else for_range (k + 1) n (lu_row n k) (lu_push st (LUWorking k) RefU).

(** The returned [steps], together with the final contents of [U], which
    every [RefU] step shows. *)
Definition generateLUSteps (matrix : Matrix num) : result (list LUStep * Matrix num) :=
  match matrix with
  | [] => Throw TypeError
  | row0 :: _ =>
    let n := length matrix in
    if negb (n =? length row0) then
      Ok ([mkLUStep 0 LUNotSquare RefInput], matrix)
    else
      let st0 := mkLU (identity n) matrix [mkLUStep 0 LUInitialize RefInput] 1 false in
      let st := for_range 0 (n - 1) (lu_col n) st0 in
      if lu_done st then Ok (lu_steps st, lu_U st)
      else Ok ((lu_push st LUComplete RefU).(lu_steps), lu_U st)
  end.

(** The loop state on entry to the inner iteration [(k, i)]. *)
Definition lu_state_at (matrix : Matrix num) (k i : nat) : LUState :=
  let n := length matrix in
  let st0 := mkLU (identity n) matrix [mkLUStep 0 LUInitialize RefInput] 1 false in
  for_range (k + 1) i (lu_row n k)
    (lu_push (for_range 0 k (lu_col n) st0) (LUWorking k) RefU).

End Model.

Arguments Solution num : clear implicits.
Arguments AnimationStep num : clear implicits.
Arguments LUStep num : clear implicits.
Arguments LUState num : clear implicits.

(** *** Vector operations *)

Section Vectors.
Context {num : Type} `{Arith num} `{Trans num}.

Definition dotProduct (a b : Vector num) : result num :=
  if negb (length a =? length b) then
    Throw (Error "Vectors must have the same length for dot product"%string)
  else Ok (foldl (fun sum '(i, val) => add sum (mul val (vget b i))) zero
             (imap (fun i val => (i, val)) a)).

Definition crossProduct (a b : Vector num) : result (Vector num) :=
  if negb (length a =? 3) || negb (length b =? 3) then
    Throw (Error "Cross product is only defined for 3D vectors"%string)
  else Ok [sub (mul (vget a 1) (vget b 2)) (mul (vget a 2) (vget b 1));
           sub (mul (vget a 2) (vget b 0)) (mul (vget a 0) (vget b 2));
           sub (mul (vget a 0) (vget b 1)) (mul (vget a 1) (vget b 0))].

Definition vectorMagnitude (vector : Vector num) : num :=
  nsqrt (foldl (fun sum val => add sum (mul val val)) zero vector).

Definition normalizeVector (vector : Vector num) : result (Vector num) :=
  let magnitude := vectorMagnitude vector in
  if eqb magnitude zero then Throw (Error "Cannot normalize zero vector"%string)
  else Ok (map (fun val => div val magnitude) vector).

(** [Math.max(-1, Math.min(1, x))] *)
Definition clamp (x : num) : num := nmax (neg one) (nmin one x).

Definition angleBetweenVectors (a b : Vector num) : result num :=
  let* dot := dotProduct a b in
  let magA := vectorMagnitude a in
  let magB := vectorMagnitude b in
  if eqb magA zero || eqb magB zero then
    Throw (Error "Cannot calculate angle with zero vector"%string)
  else Ok (nacos (clamp (div dot (mul magA magB)))).

End Vectors.

(** ** The store

    The functions above treat arrays as values.  For the claims about
    mutation and identity the same operations are modelled on a store of
    JavaScript arrays: a location holds either an array of numbers (a row
    or a vector) or an array of references to such arrays (a matrix); an
    entry of either kind may be [undefined].  Allocation appends to the
    store, so the locations of a store [h] are the indices below
    [length h]. *)

Abbreviation loc := nat (only parsing).

Inductive object (num : Type) : Type :=
| Nums (cells : list num)
| Refs (rows : list (option loc)).
Arguments Nums {num} cells.
Arguments Refs {num} rows.

Abbreviation heap num := (list (object num)) (only parsing).

(** A computation on the store that may raise an exception; the store at
    the time of the exception is kept. *)
Definition M (num A : Type) : Type := heap num → result A * heap num.

Section StoreMonad.
Context {num : Type}.

Definition mret {A} (a : A) : M num A := fun h => (Ok a, h).

Definition mbind {A B} (c : M num A) (k : A → M num B) : M num B :=
  fun h => match c h with
           | (Ok a, h') => k a h'
           | (Throw e, h') => (Throw e, h')
           end.

Definition mthrow {A} (e : exn) : M num A := fun h => (Throw e, h).

Definition lift {A} (r : result A) : M num A := fun h => (r, h).

(** [new Array], an array literal, or the array built by [map]. *)
Definition alloc (o : object num) : M num loc :=
  fun h => (Ok (length h), h ++ [o]).

Definition load_nums (l : loc) : M num (list num) :=
  fun h => match h !! l with
           | Some (Nums cells) => (Ok cells, h)
           | _ => (Throw TypeError, h)
           end.

Definition load_refs (l : loc) : M num (list (option loc)) :=
  fun h => match h !! l with
           | Some (Refs rows) => (Ok rows, h)
           | _ => (Throw TypeError, h)
           end.

Definition store (l : loc) (o : object num) : M num unit :=
  fun h => (Ok tt, <[l := o]> h).

End StoreMonad.

Notation "x <- c ;; k" := (mbind c (fun x => k))
  (at level 90, c at next level, right associativity).
Notation "c ;;; k" := (mbind c (fun _ => k))
  (at level 90, right associativity).

(** [a[j] = x] on a JavaScript array: an index past the end extends the
    array, leaving [hole]s in between. *)
Definition js_set {A} (hole : A) (l : list A) (j : nat) (x : A) : list A :=
  <[j := x]> (l ++ replicate (S j - length l) hole).

Section StoreModel.
Context {num : Type} `{Arith num} `{Trans num}.

(** [for (i = lo; i < hi; i++) body] in the store monad. *)
Definition for_m (lo hi : nat) (body : nat → M num unit) : M num unit :=
  for_range lo hi (fun i acc => acc ;;; body i) (mret tt).

(** The loop with a loop-carried value. *)
Definition for_s {St} (lo hi : nat) (body : nat → St → M num St) (s : St)
    : M num St :=
  for_range lo hi (fun i acc => s <- acc ;; body i s) (mret s).

Fixpoint map_m {A B} (f : A → M num B) (l : list A) : M num (list B) :=
  match l with
  | [] => mret []
  | x :: l' => y <- f x ;; ys <- map_m f l' ;; mret (y :: ys)
  end.

(** The contents of a matrix, row by row; an [undefined] row cannot be
    read. *)
Definition read_row (r : option loc) : M num (list num) :=
  match r with
  | Some l => load_nums l
  | None => mthrow TypeError
  end.

Definition read_matrix (m : loc) : M num (Matrix num) :=
  rows <- load_refs m ;; map_m read_row rows.

(** A matrix built from fresh rows: the result of [createMatrix], of an
    array literal, or of [map] over rows. *)
Definition new_matrix (v : Matrix num) : M num loc :=
  rows <- map_m (fun cells => alloc (Nums cells)) v ;;
  alloc (Refs (Some <$> rows)).

Definition new_vector (v : Vector num) : M num loc := alloc (Nums v).

(** [m[i][j]] *)
Definition get_cell (m : loc) (i j : nat) : M num num :=
  rows <- load_refs m ;;
  cells <- read_row (mjoin (rows !! i)) ;;
  mret (vget cells j).

(** [m[i][j] = x] *)
Definition set_cell (m : loc) (i j : nat) (x : num) : M num unit :=
  rows <- load_refs m ;;
  match mjoin (rows !! i) with
  | Some r => cells <- load_nums r ;; store r (Nums (js_set nan cells j x))
  | None => mthrow TypeError
  end.

(** Operations that only read their arguments and build their result
    with [map] or an array literal. *)
Definition addMatrices_h (a b : loc) : M num loc :=
  va <- read_matrix a ;; vb <- read_matrix b ;;
  r <- lift (addMatrices va vb) ;; new_matrix r.

Definition subtractMatrices_h (a b : loc) : M num loc :=
  va <- read_matrix a ;; vb <- read_matrix b ;;
  r <- lift (subtractMatrices va vb) ;; new_matrix r.

Definition scalarMultiply_h (matrix : loc) (scalar : num) : M num loc :=
  v <- read_matrix matrix ;; new_matrix (scalarMultiply v scalar).

Definition transpose_h (matrix : loc) : M num loc :=
  v <- read_matrix matrix ;; r <- lift (transpose v) ;; new_matrix r.

(** [determinant] reads its argument; the minors it builds with [slice],
    [map] and [filter] are temporaries that nothing refers to once it
    returns, and are not kept in the store. *)
Definition determinant_h (matrix : loc) : M num num :=
  v <- read_matrix matrix ;; lift (determinant v).

(** [createMatrix] and the triple loop, which writes into the matrix
    just created. *)
Definition createMatrix_h (rows cols : nat) (fill : num) : M num loc :=
  new_matrix (createMatrix rows cols fill).

Definition multiplyMatrices_h (a b : loc) : M num loc :=
  va <- read_matrix a ;; vb <- read_matrix b ;;
  match va with
  | [] => mthrow TypeError
  | a0 :: _ =>
    if negb (length a0 =? length vb) then
      mthrow (Error "Number of columns in first matrix must equal number of rows in second matrix"%string)
    else match vb with
    | [] => mthrow TypeError
    | b0 :: _ =>
      result <- createMatrix_h (length va) (length b0) zero ;;
      for_m 0 (length va) (fun i =>
        for_m 0 (length b0) (fun j =>
          for_m 0 (length a0) (fun k =>
            acc <- get_cell result i j ;;
            x <- get_cell a i k ;;
            y <- get_cell b k j ;;
            set_cell result i j (add acc (mul x y))))) ;;;
      mret result
    end
  end.

(** [matrix.map(row => [...row])] *)
Definition copy_matrix (matrix : loc) : M num loc :=
  v <- read_matrix matrix ;; new_matrix v.

(** [[result[i], result[j]] = [result[j], result[i]]] *)
Definition swap_rows_h (result : loc) (i j : nat) : M num unit :=
  rows <- load_refs result ;;
  store result
    (Refs (js_set None (js_set None rows i (mjoin (rows !! j))) j (mjoin (rows !! i)))).

Definition scale_row_h (result : loc) (r cols : nat) (pivot : num) : M num unit :=
  for_m 0 cols (fun j =>
    x <- get_cell result r j ;; set_cell result r j (div x pivot)).

Definition sub_row_h (result : loc) (i p cols : nat) (factor : num) : M num unit :=
  for_m 0 cols (fun j =>
    x <- get_cell result i j ;;
    y <- get_cell result p j ;;
    set_cell result i j (sub x (mul factor y))).

(** The pivot search reads the current contents of [result]. *)
Definition find_pivot_h (result : loc) (start rows col : nat) : M num nat :=
  v <- read_matrix result ;; mret (find_pivot v start rows col).

Definition rref_col_h (result : loc) (rows cols col pivotRow : nat) : M num nat :=
  if negb (pivotRow <? rows) then mret pivotRow
  else
    maxRow <- find_pivot_h result pivotRow rows col ;;
    x <- get_cell result maxRow col ;;
    if ltb (nabs x) tol then mret pivotRow
    else
      swap_rows_h result pivotRow maxRow ;;;
      pivot <- get_cell result pivotRow col ;;
      scale_row_h result pivotRow cols pivot ;;;
      for_m 0 rows (fun i =>
        if negb (i =? pivotRow) then
          x <- get_cell result i col ;;
          if gtb (nabs x) tol then sub_row_h result i pivotRow cols x
          else mret tt
        else mret tt) ;;;
      mret (pivotRow + 1).

(** [result.length] and [result[0].length] *)
Definition shape_h (result : loc) : M num (nat * nat) :=
  rows <- load_refs result ;;
  row0 <- read_row (mjoin (rows !! 0)) ;;
  mret (length rows, length row0).

Definition rref_h (matrix : loc) : M num loc :=
  result <- copy_matrix matrix ;;
  shape <- shape_h result ;;
  let '(rows, cols) := shape in
  for_s 0 cols (rref_col_h result rows cols) 0 ;;;
  mret result.

Definition gj_col_h (result : loc) (rows cols i : nat) : M num unit :=
  maxRow <- find_pivot_h result i rows i ;;
  swap_rows_h result i maxRow ;;;
  pivot <- get_cell result i i ;;
  if ltb (nabs pivot) tol then mret tt
  else
    scale_row_h result i cols pivot ;;;
    for_m 0 rows (fun k =>
      if negb (k =? i) then
        factor <- get_cell result k i ;; sub_row_h result k i cols factor
      else mret tt).

Definition gaussJordan_h (matrix : loc) : M num loc :=
  result <- copy_matrix matrix ;;
  shape <- shape_h result ;;
  let '(rows, cols) := shape in
  for_m 0 (Nat.min rows cols) (gj_col_h result rows cols) ;;;
  mret result.

Definition inverse_h (matrix : loc) : M num loc :=
  v <- read_matrix matrix ;;
  match v with
  | [] => mthrow TypeError
  | row0 :: _ =>
    let n := length v in
    if negb (n =? length row0) then
      mthrow (Error "Matrix must be square to calculate inverse"%string)
    else
      det <- determinant_h matrix ;;
      if ltb (nabs det) tol then
        mthrow (Error "Matrix is singular and cannot be inverted"%string)
      else if n =? 2 then
        new_matrix [[div (mget v 1 1) det; div (neg (mget v 0 1)) det];
                    [div (neg (mget v 1 0)) det; div (mget v 0 0) det]]
      else
        augmented <- new_matrix (augment_identity v) ;;
        gj <- gaussJordan_h augmented ;;
        w <- read_matrix gj ;;
        new_matrix (map (fun row => drop n row) (take n w))
  end.

Definition rank_h (matrix : loc) : M num nat :=
  rrefMatrix <- rref_h matrix ;;
  w <- read_matrix rrefMatrix ;;
  mret (foldl (fun rank row =>
                 if existsb (fun val => gtb (nabs val) tol) row
                 then rank + 1 else rank)
              0 w).

(** [matrixPower]: the identity is written into a fresh matrix; for the
    exponent 1 the argument itself is returned. *)
Definition matrixPower_h (A : loc) (power : Z) : M num loc :=
  if (power =? 0)%Z then
    rows <- load_refs A ;;
    let n := length rows in
    identity <- createMatrix_h n n zero ;;
    for_m 0 n (fun i => set_cell identity i i one) ;;;
    mret identity
  else if (power =? 1)%Z then mret A
  else
    for_s 1 (Z.to_nat power) (fun _ result => multiplyMatrices_h result A) A.

(** The vector operations. *)
Definition dotProduct_h (a b : loc) : M num num :=
  va <- load_nums a ;; vb <- load_nums b ;; lift (dotProduct va vb).

Definition crossProduct_h (a b : loc) : M num loc :=
  va <- load_nums a ;; vb <- load_nums b ;;
  r <- lift (crossProduct va vb) ;; new_vector r.

Definition vectorMagnitude_h (vector : loc) : M num num :=
  v <- load_nums vector ;; mret (vectorMagnitude v).

Definition normalizeVector_h (vector : loc) : M num loc :=
  v <- load_nums vector ;; r <- lift (normalizeVector v) ;; new_vector r.

Definition angleBetweenVectors_h (a b : loc) : M num num :=
  va <- load_nums a ;; vb <- load_nums b ;; lift (angleBetweenVectors va vb).

(** A call of one of the core operations, and what it returns. *)
Inductive call : Type :=
| CallAdd (a b : loc)
| CallSubtract (a b : loc)
| CallScalarMultiply (matrix : loc) (scalar : num)
| CallMultiply (a b : loc)
| CallTranspose (matrix : loc)
| CallDeterminant (matrix : loc)
| CallInverse (matrix : loc)
| CallRref (matrix : loc)
| CallRank (matrix : loc)
| CallMatrixPower (A : loc) (power : Z)
| CallDot (a b : loc)
| CallCross (a b : loc)
| CallMagnitude (vector : loc)
| CallNormalize (vector : loc)
| CallAngle (a b : loc).

Inductive value : Type :=
| VMatrix (m : loc)
| VVector (v : loc)
| VNumber (x : num)
| VCount (n : nat).

Definition run_call (c : call) : M num value :=
  match c with
  | CallAdd a b => m <- addMatrices_h a b ;; mret (VMatrix m)
  | CallSubtract a b => m <- subtractMatrices_h a b ;; mret (VMatrix m)
  | CallScalarMultiply a x => m <- scalarMultiply_h a x ;; mret (VMatrix m)
  | CallMultiply a b => m <- multiplyMatrices_h a b ;; mret (VMatrix m)
  | CallTranspose a => m <- transpose_h a ;; mret (VMatrix m)
  | CallDeterminant a => x <- determinant_h a ;; mret (VNumber x)
  | CallInverse a => m <- inverse_h a ;; mret (VMatrix m)
  | CallRref a => m <- rref_h a ;; mret (VMatrix m)
  | CallRank a => n <- rank_h a ;; mret (VCount n)
  | CallMatrixPower a p => m <- matrixPower_h a p ;; mret (VMatrix m)
  | CallDot a b => x <- dotProduct_h a b ;; mret (VNumber x)
  | CallCross a b => v <- crossProduct_h a b ;; mret (VVector v)
  | CallMagnitude a => x <- vectorMagnitude_h a ;; mret (VNumber x)
  | CallNormalize a => v <- normalizeVector_h a ;; mret (VVector v)
  | CallAngle a b => x <- angleBetweenVectors_h a b ;; mret (VNumber x)
  end.

(** A matrix at [m] all of whose arrays were allocated at or after
    [base]: the outer array and every row. *)
Definition owned (base : nat) (h : heap num) (m : loc) : Prop :=
  base ≤ m ∧
  ∃ rows, h !! m = Some (Refs rows) ∧
    Forall (fun r => match r with
                     | Some l => base ≤ l ∧ ∃ cells, h !! l = Some (Nums cells)
                     | None => True
                     end) rows.

(** The calls that return their argument: the power with exponent 1,
    and with a negative exponent, for which the loop does not run. *)
Definition returns_argument (c : call) : bool :=
  match c with
  | CallMatrixPower _ p => (p =? 1)%Z || (p <? 0)%Z
  | _ => false
  end.

(** Judgements on computations.  [reads c]: [c] leaves the store as it
    is.  [grows c]: [c] changes no array that exists when it starts; the
    store it leaves extends the one it found.  [fresh_matrix c]: a matrix
    returned by [c] consists of arrays allocated during [c].
    [keeps base m c]: [c] keeps the matrix [m] owned and changes no array
    below [base]. *)
Definition reads {A} (c : M num A) : Prop := ∀ h, (c h).2 = h.

Definition grows {A} (c : M num A) : Prop := ∀ h, h `prefix_of` (c h).2.

Definition fresh_matrix (c : M num loc) : Prop :=
  ∀ h m, (c h).1 = Ok m → owned (length h) (c h).2 m.

Definition keeps {A} (base : nat) (m : loc) (c : M num A) : Prop :=
  ∀ h, owned base h m →
       owned base (c h).2 m ∧ take base (c h).2 = take base h.

(** [frames c]: both of the above, for an operation that returns a
    matrix. *)
Definition frames (c : M num loc) : Prop := grows c ∧ fresh_matrix c.

(** [returns_only m c]: when [c] returns, it returns [m]. *)
Definition returns_only (m : loc) (c : M num loc) : Prop :=
  ∀ h r, (c h).1 = Ok r → r = m.

End StoreModel.

(** ** Exact rational arithmetic

    The rationals have no [NaN]; [nan] is 0 there.  It is what a read
    past the end of a row returns, and no such read occurs on a
    rectangular matrix. *)

Definition Qc_of_Z (z : Z) : Qc := Q2Qc (inject_Z z).

#[global] Instance Qc_arith : Arith Qc := {
  zero := Q2Qc 0;
  one := Q2Qc 1;
  add := Qcplus;
  sub := Qcminus;
  mul := Qcmult;
  div := Qcdiv;
  neg := Qcopp;
  nabs := Qcabs;
  ltb := fun a b => bool_decide (Qclt a b);
  eqb := fun a b => bool_decide (a = b);
  of_Z := Qc_of_Z;
  tol := Q2Qc 1e-10;
  nan := Q2Qc 0
}.



(** ** Real arithmetic

    Exact arithmetic with square roots: no rounding, overflow, underflow
    or [NaN] ([nan] is 0, as over the rationals).  It carries the
    statements of exact arithmetic on the vector operations and on the
    characteristic polynomial; what the code does on doubles is stated
    on doubles. *)

#[global] Instance R_arith : Arith R := {
  zero := 0%R;
  one := 1%R;
  add := Rplus;
  sub := Rminus;
  mul := Rmult;
  div := Rdiv;
  neg := Ropp;
  nabs := Rabs;
  ltb := fun a b => if Rlt_dec a b then true else false;
  eqb := fun a b => if Req_dec_T a b then true else false;
  of_Z := IZR;
  tol := 1e-10%R;
  nan := 0%R
}.

#[global] Instance R_trans : Trans R := {
  nsqrt := sqrt;
  nacos := acos;
  nmax := Rmax;
  nmin := Rmin
}.

(** The sum of squares under the square root of [vectorMagnitude]. *)
Definition sum_squares (a : list R) : R :=
  foldl (fun sum val => (sum + val * val)%R) 0%R a.

(** ** Double arithmetic

    Rocq's primitive floats are IEEE 754 binary64 numbers, the
    representation of a JavaScript [number]; addition, subtraction,
    multiplication, division, square root and the comparisons are the
    correctly rounded IEEE operations on both sides.  [Math.acos] has no
    counterpart and stays a parameter. *)

Definition float_of_Z (z : Z) : float :=
  match z with
  | Z0 => 0%float
  | Zpos _ => PrimFloat.of_uint63 (Uint63.of_Z z)
  | Zneg _ => PrimFloat.opp (PrimFloat.of_uint63 (Uint63.of_Z (Z.opp z)))
  end.

#[global] Instance float_arith : Arith float := {
  zero := 0%float;
  one := 1%float;
  add := PrimFloat.add;
  sub := PrimFloat.sub;
  mul := PrimFloat.mul;
  div := PrimFloat.div;
  neg := PrimFloat.opp;
  nabs := PrimFloat.abs;
  ltb := PrimFloat.ltb;
  eqb := PrimFloat.eqb;
  of_Z := float_of_Z;
  tol := 1e-10%float;
  nan := PrimFloat.nan
}.

(** [Math.max] and [Math.min]: [NaN] if either argument is, and [-0]
    below [+0]. *)
Definition float_max (a b : float) : float :=
  if PrimFloat.is_nan a || PrimFloat.is_nan b then PrimFloat.nan
  else if PrimFloat.ltb a b then b
  else if PrimFloat.ltb b a then a
  else match PrimFloat.classify a with NZero => b | _ => a end.

Definition float_min (a b : float) : float :=
  if PrimFloat.is_nan a || PrimFloat.is_nan b then PrimFloat.nan
  else if PrimFloat.ltb a b then a
  else if PrimFloat.ltb b a then b
  else match PrimFloat.classify a with PZero => b | _ => a end.

Definition float_trans (acos : float → float) : Trans float := {|
  nsqrt := PrimFloat.sqrt;
  nacos := acos;
  nmax := float_max;
  nmin := float_min
|}.

(** ** Concrete matrices over the rationals *)

Definition qmat (m : list (list Q)) : list (list Qc) := map (map Q2Qc) m.
Definition qvec (v : list Q) : list Qc := map Q2Qc v.

(** A diagonal matrix with determinant 1 whose first pivot candidate is
    below the tolerance. *)
Definition tiny_pivot : Matrix Qc :=
  qmat [[1e-11; 0; 0]; [0; 1e11; 0]; [0; 0; 1]]%Q.

(** A consistent system [x = 20], [5e-11 x = 1e-9]. *)
Definition small_row_A : Matrix Qc := qmat [[1]; [5e-11]]%Q.
Definition small_row_b : Vector Qc := qvec [20; 1e-9]%Q.



(** ** The calculators, the editor and the traces around the core

    The components call the core on the matrices and vectors of their
    state.  A handler is modelled as a function from the state it reads
    to the state it sets; [try { ... } catch (err) { setError(...) }]
    around a calculation is the [result] of that calculation.  Text that
    is only displayed is represented by the data it is built from.
    [parseFloat], [formatNumber] and [Math.PI] are parameters. *)

Section Tabulate.
Context {num : Type} `{Arith num}.

(** The [rows]-by-[cols] matrix whose entry [(i, j)] is [f i j]. *)
Definition tabulate (rows cols : nat) (f : nat → nat → num) : Matrix num :=
  map (fun i => map (fun j => f i j) (seq 0 cols)) (seq 0 rows).

(** [matrix[0]?.length || 0] *)
Definition first_row_length (matrix : Matrix num) : nat :=
  length (default [] (matrix !! 0)).

(** [matrix[0]?.length !== cols], where [undefined] differs from every
    number. *)
Definition first_row_differs (matrix : Matrix num) (cols : nat) : bool :=
  match matrix !! 0 with
  | Some row => negb (length row =? cols)
  | None => true
  end.

(** [a >= b] *)
Definition geb (a b : num) : bool := ltb b a || eqb a b.

(** [x || 0] on a number: [0] and [NaN] are falsy, and [NaN] is the one
    number that differs from itself. *)
Definition or_zero (x : num) : num :=
  if negb (eqb x zero) && eqb x x then x else zero.

(** [value === '' ? 0 : parseFloat(value) || 0] *)
Definition parse_cell (parseFloat : string → num) (value : string) : num :=
  if String.eqb value "" then zero else or_zero (parseFloat value).

End Tabulate.

(** *** Equation solver: the inverse method and the dispatch
    ([EquationSolver.tsx]) *)

(** The [message] of the result of [solveByInverse]. *)
Inductive InverseMessage : Type :=
| MustBeSquare      (* 'Matrix A must be square to use inverse method' *)
| SingularMatrix    (* 'Matrix A is singular (determinant = 0), cannot use inverse method' *)
| UniqueByInverse.  (* 'Unique solution found using matrix inverse' *)

Inductive Method : Type := by_inverse | by_rref.

Section EquationSolver.
Context {num : Type} `{Arith num}.

Definition solveByInverse (A : Matrix num) (b : Vector num)
    : result (Solution num * InverseMessage) :=
  match A with
  | [] => Throw TypeError
  | row0 :: _ =>
    if negb (length A =? length row0) then
      Ok (mkSolution none None None, MustBeSquare)
    else
      let* det := determinant A in
      if ltb (nabs det) tol then
        Ok (mkSolution none None None, SingularMatrix)
      else
        let* AInv := inverse A in
        let bMatrix := map (fun val => [val]) b in
        let* xMatrix := multiplyMatrices AInv bMatrix in
        let x := map (fun row => vget row 0) xMatrix in
        Ok (mkSolution unique (Some x) None, UniqueByInverse)
  end.

(** The body of the [try] block of [solveSystem]. *)
Definition solveSystem (matrixA : Matrix num) (vectorB : Vector num)
    (method : Method) : result (Solution num) :=
  if negb (length matrixA =? length vectorB) then
    Throw (Error "Matrix A and vector b must have compatible dimensions"%string)
  else match method with
       | by_inverse => let* r := solveByInverse matrixA vectorB in Ok r.1
       | by_rref => solveByRREF matrixA vectorB
       end.

(** The vector that [syncDimensions] leaves in the state. *)
Definition syncDimensions (matrixA : Matrix num) (vectorB : Vector num)
    : Vector num :=
  let rows := length matrixA in
  if negb (length vectorB =? rows) then
    for_range 0 (Nat.min (length vectorB) rows)
      (fun i newVector => js_set nan newVector i (vget vectorB i))
      (replicate rows zero)
  else vectorB.

End EquationSolver.

(** *** The LU trace: the state the elimination ends in *)

Section LUFinal.
Context {num : Type} `{Arith num}.

(** The loop state of [generateLUSteps] on a square matrix when the
    column loop is over. *)
Definition lu_final (matrix : Matrix num) : LUState num :=
  let n := length matrix in
  for_range 0 (n - 1) (lu_col n)
    (mkLU (identity n) matrix [mkLUStep 0 LUInitialize RefInput] 1 false).

(** The invariant of the elimination on entry to the inner iteration
    [(k, i)], as long as no zero pivot was met: [L] has a unit diagonal,
    zeros above it and zeros in the places not yet filled; [U] has zeros
    below the diagonal in the places already eliminated; and [L U] is the
    input. *)
Definition lu_inv (n : nat) (A : Matrix num) (k i : nat) (st : LUState num)
    : Prop :=
  lu_done st = false →
  dims n n (lu_L st) ∧ dims n n (lu_U st) ∧
  (∀ r c, r < n → c < n →
     (r = c → mget (lu_L st) r c = one) ∧
     (r < c → mget (lu_L st) r c = zero) ∧
     (c < r → k < c ∨ (c = k ∧ i ≤ r) → mget (lu_L st) r c = zero)) ∧
  (∀ r c, r < n → c < n → c < r → c < k ∨ (c = k ∧ r < i) →
     mget (lu_U st) r c = zero) ∧
  (∀ r c, r < n → c < n →
     sumn n (fun m => mul (mget (lu_L st) r m) (mget (lu_U st) m c))
     = mget A r c).

End LUFinal.

(** *** Characteristic polynomial ([AdvancedCalculators.tsx]) *)

Record PolynomialResult (num : Type) : Type := mkPolynomial {
  coefficients : list num;
  polynomial : string;
  roots : list num
}.
Arguments mkPolynomial {num} _ _ _.
Arguments coefficients {num} _.
Arguments polynomial {num} _.
Arguments roots {num} _.

Section CharacteristicPolynomial.
Context {num : Type} `{Arith num} `{Trans num}.
Variable formatNumber : num → string.

Definition calculateCharacteristicPolynomial (A : Matrix num)
    : result (PolynomialResult num) :=
  match A with
  | [] => Throw TypeError
  | row0 :: _ =>
    let n := length A in
    if negb (n =? length row0) then
      Throw (Error "Matrix must be square"%string)
    else if n =? 2 then
      let a := mget A 0 0 in
      let b := mget A 0 1 in
      let c := mget A 1 0 in
      let d := mget A 1 1 in
      let trace := add a d in
      let det := sub (mul a d) (mul b c) in
      let coefficients := [one; neg trace; det] in
      let polynomial := "λ²"%string in
      let polynomial :=
        if negb (eqb trace zero) then
          (polynomial ++
           (if gtb trace zero
            then " - " ++ formatNumber trace ++ "λ"
            else " + " ++ formatNumber (neg trace) ++ "λ"))%string
        else polynomial in
      let polynomial :=
        if negb (eqb det zero) then
          (polynomial ++
           (if gtb det zero
            then " + " ++ formatNumber det
            else " - " ++ formatNumber (neg det)))%string
        else polynomial in
      let discriminant := sub (mul trace trace) (mul (of_Z 4) det) in
      let roots :=
        if geb discriminant zero then
          let sqrt_disc := nsqrt discriminant in
          [div (add trace sqrt_disc) (of_Z 2);
           div (sub trace sqrt_disc) (of_Z 2)]
        else [] in
      Ok (mkPolynomial coefficients polynomial roots)
    else
      Throw (Error "Characteristic polynomial calculation for matrices larger than 2×2 is not implemented in this demo"%string)
  end.

End CharacteristicPolynomial.

(** *** The operations panel ([AdvancedOperations.tsx]) *)

Module AdvancedOperations.

Inductive Operation : Type :=
| op_transpose | op_determinant | op_inverse | op_rref | op_rank.

(** The [requiresSquare] column of the [operations] table. *)
Definition requiresSquare (operation : Operation) : bool :=
  match operation with
  | op_determinant | op_inverse => true
  | _ => false
  end.

(** [Matrix | number]; a rank is kept apart as the count it is. *)
Inductive Result (num : Type) : Type :=
| ResultMatrix (m : Matrix num)
| ResultNumber (x : num)
| ResultRank (r : nat).
Arguments ResultMatrix {num} m.
Arguments ResultNumber {num} x.
Arguments ResultRank {num} r.

Section Component.
Context {num : Type} `{Arith num}.

(** The body of the [try] block of [calculate]. *)
Definition calculate (matrix : Matrix num) (operation : Operation)
    : result (Result num) :=
  let* _ :=
    if requiresSquare operation then
      match matrix with
      | [] => Throw TypeError
      | row0 :: _ =>
        if negb (length matrix =? length row0) then
          Throw (Error "This operation requires a square matrix"%string)
        else Ok tt
      end
    else Ok tt in
  match operation with
  | op_transpose => let* r := transpose matrix in Ok (ResultMatrix r)
  | op_determinant => let* r := determinant matrix in Ok (ResultNumber r)
  | op_inverse => let* r := inverse matrix in Ok (ResultMatrix r)
  | op_rref => let* r := rref matrix in Ok (ResultMatrix r)
  | op_rank => let* r := rank matrix in Ok (ResultRank r)
  end.

(** The matrix that [makeSquareMatrix] leaves in the state. *)
Definition makeSquareMatrix (matrix : Matrix num) : Matrix num :=
  let size := Nat.max (length matrix) (first_row_length matrix) in
  for_range 0 (Nat.min (length matrix) size)
    (fun i newMatrix =>
       for_range 0 (Nat.min (first_row_length matrix) size)
         (fun j newMatrix =>
            <[i := js_set nan (default [] (newMatrix !! i)) j (mget matrix i j)]>
              newMatrix)
         newMatrix)
    (createMatrix size size zero).

End Component.
End AdvancedOperations.

(** *** The arithmetic panel ([BasicOperations.tsx]) *)

Module BasicOperations.

Inductive Operation : Type := op_add | op_subtract | op_multiply | op_scalar.

Section Component.
Context {num : Type} `{Arith num}.

(** The body of the [try] block of [calculate]. *)
Definition calculate (operation : Operation) (matrixA matrixB : Matrix num)
    (scalar : num) : result (Matrix num) :=
  match operation with
  | op_add => addMatrices matrixA matrixB
  | op_subtract => subtractMatrices matrixA matrixB
  | op_multiply => multiplyMatrices matrixA matrixB
  | op_scalar => Ok (scalarMultiply matrixA scalar)
  end.

(** The pair [(matrixA, matrixB)] that [syncMatrixDimensions] leaves in
    the state; both tests read the matrices of the current render. *)
Definition syncMatrixDimensions (operation : Operation)
    (matrixA matrixB : Matrix num) : Matrix num * Matrix num :=
  match operation with
  | op_add | op_subtract =>
    let rows := Nat.max (length matrixA) (length matrixB) in
    let cols := Nat.max (first_row_length matrixA) (first_row_length matrixB) in
    (if negb (length matrixA =? rows) || first_row_differs matrixA cols
     then createMatrix rows cols zero else matrixA,
     if negb (length matrixB =? rows) || first_row_differs matrixB cols
     then createMatrix rows cols zero else matrixB)
  | _ => (matrixA, matrixB)
  end.

End Component.
End BasicOperations.

(** *** The vector panel ([VectorOperations.tsx]) *)

Module VectorOperations.

Inductive Operation : Type :=
| op_dot | op_cross | op_magnitude | op_normalize | op_angle.

(** The [needs3D] column of the [operations] table. *)
Definition needs3D (operation : Operation) : bool :=
  match operation with op_cross => true | _ => false end.

Inductive Which : Type := vecA | vecB.

Record State (num : Type) : Type := mkState {
  vectorA : Vector num;
  vectorB : Vector num
}.
Arguments mkState {num} _ _.
Arguments vectorA {num} _.
Arguments vectorB {num} _.

Inductive Result (num : Type) : Type :=
| ResultNumber (x : num)
| ResultVector (v : Vector num).
Arguments ResultNumber {num} x.
Arguments ResultVector {num} v.

(** The events of the panel: an edit of one input, and the two
    dimension buttons. *)
Inductive Event : Type :=
| Change (which : Which) (index : nat) (value : string)
| AddDimension
| RemoveDimension.

Section Component.
Context {num : Type} `{Arith num} `{Trans num}.
Variable parseFloat : string → num.
Variable PI : num.

(** [useState([1, 0, 0])] and [useState([0, 1, 0])] *)
Definition initial : State num :=
  mkState [one; zero; zero] [zero; one; zero].

Definition handleVectorChange (which : Which) (index : nat) (value : string)
    (st : State num) : State num :=
  let numValue := parse_cell parseFloat value in
  match which with
  | vecA => mkState (js_set nan (vectorA st) index numValue) (vectorB st)
  | vecB => mkState (vectorA st) (js_set nan (vectorB st) index numValue)
  end.

Definition addDimension (st : State num) : State num :=
  mkState (vectorA st ++ [zero]) (vectorB st ++ [zero]).

(** [slice(0, -1)] drops the last entry. *)
Definition removeDimension (st : State num) : State num :=
  if 2 <? length (vectorA st) then
    mkState (take (length (vectorA st) - 1) (vectorA st))
            (take (length (vectorB st) - 1) (vectorB st))
  else st.

(** The body of the [try] block of [calculate]. *)
Definition calculate (operation : Operation) (st : State num)
    : result (Result num) :=
  if needs3D operation && negb (length (vectorA st) =? 3) then
    Throw (Error "Cross product requires 3D vectors"%string)
  else
    match operation with
    | op_dot =>
      let* r := dotProduct (vectorA st) (vectorB st) in Ok (ResultNumber r)
    | op_cross =>
      let* r := crossProduct (vectorA st) (vectorB st) in Ok (ResultVector r)
    | op_magnitude => Ok (ResultNumber (vectorMagnitude (vectorA st)))
    | op_normalize =>
      let* r := normalizeVector (vectorA st) in Ok (ResultVector r)
    | op_angle =>
      let* r := angleBetweenVectors (vectorA st) (vectorB st) in
      Ok (ResultNumber (mul r (div (of_Z 180) PI)))
    end.

Definition handle (ev : Event) (st : State num) : State num :=
  match ev with
  | Change which index value => handleVectorChange which index value st
  | AddDimension => addDimension st
  | RemoveDimension => removeDimension st
  end.

(** An input exists for each entry of a vector, so an edit carries an
    index below the length of the vector it edits. *)
Definition enabled (ev : Event) (st : State num) : bool :=
  match ev with
  | Change vecA index _ => index <? length (vectorA st)
  | Change vecB index _ => index <? length (vectorB st)
  | _ => true
  end.

(** The two vectors have one length, of at least two entries. *)
Definition paired (st : State num) : Prop :=
  length (vectorA st) = length (vectorB st) ∧ 2 ≤ length (vectorA st).

(** The states that a sequence of enabled events leads to. *)
Fixpoint run (evs : list Event) (st : State num) : option (State num) :=
  match evs with
  | [] => Some st
  | ev :: evs' => if enabled ev st then run evs' (handle ev st) else None
  end.

End Component.
End VectorOperations.

(** *** The matrix editor ([MatrixInput.tsx]) *)

Module MatrixInput.

Inductive Event : Type :=
| CellChange (row col : nat) (value : string)
| AddRow | RemoveRow | AddCol | RemoveCol | ResetMatrix.

Section Component.
Context {num : Type} `{Arith num}.
Variable parseFloat : string → num.
Variables maxRows maxCols : nat.

Definition handleCellChange (row col : nat) (value : string)
    (matrix : Matrix num) : Matrix num :=
  let numValue := parse_cell parseFloat value in
  imap (fun i r =>
          imap (fun j c => if (i =? row) && (j =? col) then numValue else c) r)
       matrix.

Definition addRow (matrix : Matrix num) : Matrix num :=
  if length matrix <? maxRows
  then matrix ++ [replicate (first_row_length matrix) zero]
  else matrix.

Definition removeRow (matrix : Matrix num) : Matrix num :=
  if 1 <? length matrix then take (length matrix - 1) matrix else matrix.

Definition addCol (matrix : Matrix num) : Matrix num :=
  if first_row_length matrix <? maxCols
  then map (fun row => row ++ [zero]) matrix
  else matrix.

Definition removeCol (matrix : Matrix num) : Matrix num :=
  if 1 <? first_row_length matrix
  then map (fun row => take (length row - 1) row) matrix
  else matrix.

Definition resetMatrix (matrix : Matrix num) : Matrix num :=
  createMatrix (length matrix) (first_row_length matrix) zero.

(** The matrices the editor is meant to hold: rectangular, with at
    least one row and one column and at most [maxRows] by [maxCols]. *)
Definition editable (matrix : Matrix num) : Prop :=
  ∃ rows cols, dims rows cols matrix ∧
               1 ≤ rows ≤ maxRows ∧ 1 ≤ cols ≤ maxCols.

(** The matrix handed to [onChange]; a handler whose guard fails leaves
    the matrix as it is. *)
Definition handle (ev : Event) (matrix : Matrix num) : Matrix num :=
  match ev with
  | CellChange row col value => handleCellChange row col value matrix
  | AddRow => addRow matrix
  | RemoveRow => removeRow matrix
  | AddCol => addCol matrix
  | RemoveCol => removeCol matrix
  | ResetMatrix => resetMatrix matrix
  end.

End Component.
End MatrixInput.

(** *** The other traces and the player ([InteractiveAnimations.tsx]) *)

Module InteractiveAnimations.

Inductive SVDDescription : Type :=
| SVDOriginal       (* 'Original Matrix A' *)
| SVDComputeAtA     (* 'Compute AᵀA' *)
| SVDComputeAAt     (* 'Compute AAᵀ' *)
| SVDComponents.    (* 'SVD Components' *)

Record SVDStep (num : Type) : Type := mkSVDStep {
  svd_id : nat;
  svd_description : SVDDescription;
  svd_matrix : Matrix num
}.
Arguments mkSVDStep {num} _ _ _.
Arguments svd_id {num} _.
Arguments svd_description {num} _.
Arguments svd_matrix {num} _.

(** The [description] of a step of the eigenvalue trace, with the
    numbers that the description and the explanation interpolate. *)
Inductive EigenDescription (num : Type) : Type :=
| EigenNotSquare                        (* 'Error: Matrix must be square' *)
| EigenOriginal                         (* 'Original Matrix A' *)
| EigenForm                             (* 'Form A - λI' *)
| EigenPolynomial (trace det : num)     (* 'Characteristic Polynomial' *)
| EigenFound (lambda1 lambda2 : num)    (* 'Eigenvalues Found' *)
| EigenVector (i : nat) (lambda : num)  (* 'Find Eigenvector for λ(i+1)' *)
| EigenComplete.                        (* 'Eigendecomposition Complete' *)
Arguments EigenNotSquare {num}.
Arguments EigenOriginal {num}.
Arguments EigenForm {num}.
Arguments EigenPolynomial {num} trace det.
Arguments EigenFound {num} lambda1 lambda2.
Arguments EigenVector {num} i lambda.
Arguments EigenComplete {num}.

(** The [matrix] of such a step: numbers, or the four strings
    [a-λ], [formatNumber(b)], [formatNumber(c)], [d-λ] of the symbolic
    matrix, given by the numbers they print. *)
Inductive EigenMatrix (num : Type) : Type :=
| Numeric (m : Matrix num)
| Symbolic (a b c d : num).
Arguments Numeric {num} m.
Arguments Symbolic {num} a b c d.

Record EigenStep (num : Type) : Type := mkEigenStep {
  eigen_id : nat;
  eigen_description : EigenDescription num;
  eigen_matrix : EigenMatrix num
}.
Arguments mkEigenStep {num} _ _ _.
Arguments eigen_id {num} _.
Arguments eigen_description {num} _.
Arguments eigen_matrix {num} _.

Section Component.
Context {num : Type} `{Arith num} `{Trans num}.

Definition generateSVDSteps (matrix : Matrix num) : result (list (SVDStep num)) :=
  let* At := transpose matrix in
  let* AtA := multiplyMatrices At matrix in
  let* At' := transpose matrix in
  let* AAt := multiplyMatrices matrix At' in
  Ok [mkSVDStep 0 SVDOriginal matrix;
      mkSVDStep 1 SVDComputeAtA AtA;
      mkSVDStep 2 SVDComputeAAt AAt;
      mkSVDStep 3 SVDComponents matrix].

(** [steps.push({ id: stepId++, ... })] on the pair [(steps, stepId)]. *)
Definition eigen_push (st : list (EigenStep num) * nat)
    (d : EigenDescription num) (m : EigenMatrix num)
    : list (EigenStep num) * nat :=
  (st.1 ++ [mkEigenStep st.2 d m], st.2 + 1).

Definition generateEigenvalueSteps (matrix : Matrix num)
    : result (list (EigenStep num)) :=
  match matrix with
  | [] => Throw TypeError
  | row0 :: _ =>
    if negb (length matrix =? length row0) then
      Ok (eigen_push ([], 0) EigenNotSquare (Numeric matrix)).1
    else
      let st := eigen_push ([], 0) EigenOriginal (Numeric matrix) in
      let st :=
        if length matrix =? 2 then
          let a := mget matrix 0 0 in
          let b := mget matrix 0 1 in
          let c := mget matrix 1 0 in
          let d := mget matrix 1 1 in
          let st := eigen_push st EigenForm (Symbolic a b c d) in
          let trace := add a d in
          let det := sub (mul a d) (mul b c) in
          let discriminant := sub (mul trace trace) (mul (of_Z 4) det) in
          let st := eigen_push st (EigenPolynomial trace det) (Numeric matrix) in
          if geb discriminant zero then
            let lambda1 := div (add trace (nsqrt discriminant)) (of_Z 2) in
            let lambda2 := div (sub trace (nsqrt discriminant)) (of_Z 2) in
            let st := eigen_push st (EigenFound lambda1 lambda2) (Numeric matrix) in
            for_range 0 2
              (fun i st =>
                 let lambda := if i =? 0 then lambda1 else lambda2 in
                 let eigenMatrix := [[sub a lambda; b]; [c; sub d lambda]] in
                 eigen_push st (EigenVector i lambda) (Numeric eigenMatrix))
              st
          else st
        else st in
      Ok (eigen_push st EigenComplete (Numeric matrix)).1
  end.

(** The eigenvalues that the 'Find Eigenvector' steps of a trace name,
    in order. *)
Definition shown_eigenvalues (steps : list (EigenStep num)) : list num :=
  omap (fun s => match eigen_description s with
                 | EigenVector _ lambda => Some lambda
                 | _ => None
                 end) steps.

End Component.

(** The player: [steps] is the number of steps of the current trace. *)
Definition nextStep (steps currentStep : nat) : nat :=
  if currentStep <? steps - 1 then currentStep + 1 else currentStep.

Definition prevStep (currentStep : nat) : nat :=
  if 0 <? currentStep then currentStep - 1 else currentStep.

End InteractiveAnimations.

(** *** The step-by-step dialog ([StepByStepMode.tsx]) *)

Module StepByStepMode.

Inductive Operation : Type := op_rref | op_inverse.

Inductive StepDescription (num : Type) : Type :=
| StartRREF                             (* 'Starting matrix - we will transform this ...' *)
| SwapRows (r1 r2 : nat)                (* 'Swap R.. <-> R.. to get largest pivot', 'Swap R.. <-> R..' *)
| ScalePivot (r : nat) (pivot : num)    (* 'Scale R.. by 1/.. to make pivot = 1', 'Scale R.. to make pivot = 1' *)
| EliminateEntry (col row : nat) (factor : num) (pivotRow : nat)
                                        (* 'Eliminate column .. in row ..' *)
| CompleteRREF                          (* 'RREF transformation complete! ...' *)
| StartInverse                          (* 'Create augmented matrix [A|I] ...' *)
| Singular                              (* 'Matrix is singular - inverse does not exist' *)
| CompleteInverse.                      (* 'Inverse calculation complete! ...' *)
Arguments StartRREF {num}.
Arguments SwapRows {num} r1 r2.
Arguments ScalePivot {num} r pivot.
Arguments EliminateEntry {num} col row factor pivotRow.
Arguments CompleteRREF {num}.
Arguments StartInverse {num}.
Arguments Singular {num}.
Arguments CompleteInverse {num}.

Record Step (num : Type) : Type := mkStep {
  id : nat;
  description : StepDescription num;
  matrix : Matrix num;                     (* a copy of the working matrix *)
  highlight : option (nat * option nat)    (* [{ row }] or [{ row, col }] *)
}.
Arguments mkStep {num} _ _ _ _.
Arguments id {num} _.
Arguments description {num} _.
Arguments matrix {num} _.
Arguments highlight {num} _.

(** The loop state of both generators: the working matrix, [pivotRow]
    (unused by the inverse trace), [steps], [stepId], and whether the
    loop was left by [break]. *)
Record TraceState (num : Type) : Type := mkTrace {
  t_result : Matrix num;
  t_pivotRow : nat;
  t_steps : list (Step num);
  t_stepId : nat;
  t_break : bool
}.
Arguments mkTrace {num} _ _ _ _ _.
Arguments t_result {num} _.
Arguments t_pivotRow {num} _.
Arguments t_steps {num} _.
Arguments t_stepId {num} _.
Arguments t_break {num} _.

Section Component.
Context {num : Type} `{Arith num}.

(** The working matrix becomes [result] and a copy of it is pushed. *)
Definition push (st : TraceState num) (result : Matrix num)
    (d : StepDescription num) (h : option (nat * option nat)) : TraceState num :=
  mkTrace result (t_pivotRow st)
    (t_steps st ++ [mkStep (t_stepId st) d result h])
    (t_stepId st + 1) (t_break st).

Definition rref_step (rows cols col : nat) (st : TraceState num) : TraceState num :=
  let pivotRow := t_pivotRow st in
  if negb (pivotRow <? rows) then st
  else
    let maxRow := find_pivot (t_result st) pivotRow rows col in
    if ltb (nabs (mget (t_result st) maxRow col)) tol then st
    else
      let st :=
        if negb (maxRow =? pivotRow) then
          push st (swap_rows (t_result st) pivotRow maxRow)
            (SwapRows pivotRow maxRow) (Some (pivotRow, None))
        else st in
      let pivot := mget (t_result st) pivotRow col in
      let st :=
        if gtb (nabs (sub pivot one)) tol then
          push st (scale_row (t_result st) pivotRow cols pivot)
            (ScalePivot pivotRow pivot) (Some (pivotRow, Some col))
        else st in
      let st :=
        for_range 0 rows
          (fun i st =>
             if negb (i =? pivotRow) && gtb (nabs (mget (t_result st) i col)) tol
             then
               let factor := mget (t_result st) i col in
               push st (sub_row (t_result st) i pivotRow cols factor)
                 (EliminateEntry col i factor pivotRow) (Some (i, Some col))
             else st)
          st in
      mkTrace (t_result st) (pivotRow + 1) (t_steps st) (t_stepId st) (t_break st).

Definition generateRREFSteps (matrix : Matrix num) : result (list (Step num)) :=
  match matrix with
  | [] => Throw TypeError
  | row0 :: _ =>
    let rows := length matrix in
    let cols := length row0 in
    let st0 := mkTrace matrix 0 [mkStep 0 StartRREF matrix None] 1 false in
    let st := for_range 0 cols (rref_step rows cols) st0 in
    Ok (t_steps (push st (t_result st) CompleteRREF None))
  end.

(** One iteration of the loop of [generateInverseSteps]; after [break]
    the remaining iterations do nothing. *)
Definition inverse_step (n i : nat) (st : TraceState num) : TraceState num :=
  if t_break st then st
  else
    let maxRow := find_pivot (t_result st) i n i in
    let st :=
      if negb (maxRow =? i) then
        push st (swap_rows (t_result st) i maxRow) (SwapRows i maxRow)
          (Some (i, None))
      else st in
    let pivot := mget (t_result st) i i in
    if ltb (nabs pivot) tol then
      let st := push st (t_result st) Singular None in
      mkTrace (t_result st) (t_pivotRow st) (t_steps st) (t_stepId st) true
    else
      let st :=
        push st (scale_row (t_result st) i (2 * n) pivot) (ScalePivot i pivot)
          (Some (i, Some i)) in
      for_range 0 n
        (fun k st =>
           if negb (k =? i) && gtb (nabs (mget (t_result st) k i)) tol
           then
             let factor := mget (t_result st) k i in
             push st (sub_row (t_result st) k i (2 * n) factor)
               (EliminateEntry i k factor i) (Some (k, Some i))
           else st)
        st.

Definition generateInverseSteps (matrix : Matrix num) : list (Step num) :=
  let n := length matrix in
  let augmented := augment_identity matrix in
  let st0 := mkTrace augmented 0 [mkStep 0 StartInverse augmented None] 1 false in
  let st := for_range 0 n (inverse_step n) st0 in
  t_steps (push st (t_result st) CompleteInverse None).

(** The step pushed by [generateSteps] goes to a list that is dropped:
    the dialog shows the list of the generator it calls. *)
Definition generateSteps (inputMatrix : Matrix num) (op : Operation)
    : result (list (Step num)) :=
  match op with
  | op_rref => generateRREFSteps inputMatrix
  | op_inverse => Ok (generateInverseSteps inputMatrix)
  end.

(** The loop states of this RREF trace and of the one of the animation
    page side by side: the same working matrix and pivot row, the same
    matrices shown so far, and in both the steps numbered from 0. *)
Definition same_trace (g : @GaussState num) (t : TraceState num) : Prop :=
  g_result g = t_result t ∧ g_pivotRow g = t_pivotRow t ∧
  g_stepId g = t_stepId t ∧
  map step_matrix (g_steps g) = map matrix (t_steps t) ∧
  map step_id (g_steps g) = seq 0 (g_stepId g) ∧
  map id (t_steps t) = seq 0 (t_stepId t).

(** In the inverse trace the steps are numbered from 0, and a 'singular'
    step is the last one and sets [break]. *)
Definition singular_last (st : TraceState num) : Prop :=
  map id (t_steps st) = seq 0 (t_stepId st) ∧
  ∀ i s, t_steps st !! i = Some s → description s = Singular →
         t_break st = true ∧ S i = length (t_steps st).

End Component.

End StepByStepMode.

(** * Properties *)

(** Evaluation of a closed term over [Qc]; the canonicity proofs carried
    by the numbers are compared through [Qc_is_canon]. *)
Ltac qc_eval :=
  vm_compute; repeat (f_equal; try (apply Qc_is_canon; reflexivity)).

(** ** Loops *)

Section LoopFacts.
Context {St : Type}.
Implicit Types (body : nat → St → St) (s : St).

Lemma for_range_ge lo hi body s : hi ≤ lo → for_range lo hi body s = s.
Proof.
  intros Hle. unfold for_range.
  replace (hi - lo) with 0 by lia. reflexivity.
Qed.

Lemma for_range_snoc lo hi body s :
  lo ≤ hi → for_range lo (S hi) body s = body hi (for_range lo hi body s).
Proof.
  intros Hle. unfold for_range.
  replace (S hi - lo) with (S (hi - lo)) by lia.
  rewrite seq_S, foldl_app. simpl.
  replace (lo + (hi - lo)) with hi by lia. reflexivity.
Qed.

Lemma for_range_first lo hi body s :
  lo < hi → for_range lo hi body s = for_range (S lo) hi body (body lo s).
Proof.
  intros Hlt. unfold for_range.
  replace (hi - lo) with (S (hi - S lo)) by lia. reflexivity.
Qed.

Lemma for_range_split lo mid hi body s :
  lo ≤ mid → mid ≤ hi →
  for_range lo hi body s = for_range mid hi body (for_range lo mid body s).
Proof.
  intros H1 H2. unfold for_range.
  replace (hi - lo) with ((mid - lo) + (hi - mid)) by lia.
  rewrite seq_app, foldl_app.
  replace (lo + (mid - lo)) with mid by lia. reflexivity.
Qed.

Lemma for_range_0 hi body s :
  for_range 0 hi body s = foldl (fun s i => body i s) s (seq 0 hi).
Proof. unfold for_range. by rewrite Nat.sub_0_r. Qed.

(** The invariant rule for a counting loop. *)
Lemma for_range_inv (P : nat → St → Prop) lo hi body s :
  lo ≤ hi → P lo s →
  (∀ i s', lo ≤ i < hi → P i s' → P (S i) (body i s')) →
  P hi (for_range lo hi body s).
Proof.
  intros Hle H0 Hstep. induction hi as [|hi IH].
  - assert (lo = 0) as -> by lia. rewrite for_range_ge by lia. exact H0.
  - destruct (decide (lo = S hi)) as [->|Hne].
    + rewrite for_range_ge by lia. exact H0.
    + rewrite for_range_snoc by lia. apply Hstep; [lia|].
      apply IH; [lia|]. intros i s' Hi. apply Hstep. lia.
Qed.

Lemma for_range_id lo hi body s :
  (∀ i s', lo ≤ i < hi → body i s' = s') → for_range lo hi body s = s.
Proof.
  intros Hid. destruct (decide (lo ≤ hi)) as [Hle|Hgt].
  - apply (for_range_inv (fun _ s' => s' = s)); [done..|].
    intros i s' Hi ->. by apply Hid.
  - apply for_range_ge. lia.
Qed.

Lemma for_range_ext lo hi body1 body2 s :
  (∀ i s', lo ≤ i < hi → body1 i s' = body2 i s') →
  for_range lo hi body1 s = for_range lo hi body2 s.
Proof.
  intros Hext. destruct (decide (lo ≤ hi)) as [Hle|Hgt].
  - apply (for_range_inv (fun i s' => s' = for_range lo i body2 s)); [done| |].
    + by rewrite for_range_ge.
    + intros i s' Hi ->. rewrite for_range_snoc by lia. apply Hext. lia.
  - rewrite !for_range_ge by lia. reflexivity.
Qed.

End LoopFacts.

(** Two loops over the same range whose bodies preserve a relation end in
    related states. *)
Lemma for_range_rel {S1 S2 : Type} (R : S1 → S2 → Prop) lo hi
    (body1 : nat → S1 → S1) (body2 : nat → S2 → S2) s1 s2 :
  R s1 s2 →
  (∀ i a b, lo ≤ i < hi → R a b → R (body1 i a) (body2 i b)) →
  R (for_range lo hi body1 s1) (for_range lo hi body2 s2).
Proof.
  intros H0 Hstep. destruct (decide (lo ≤ hi)) as [Hle|Hgt].
  - apply (for_range_inv
             (fun i a => R a (for_range lo i body2 s2))); [done| |].
    + by rewrite for_range_ge.
    + intros i a Hi Ha. rewrite for_range_snoc by lia. by apply Hstep.
  - rewrite !for_range_ge by lia. exact H0.
Qed.

(** ** Shapes *)

Section Shapes.
Context {num : Type} `{Arith num}.
Implicit Types (matrix : Matrix num) (row : list num).

Lemma dims_cons rows cols row matrix :
  dims rows cols (row :: matrix) ↔
  ∃ rows', rows = S rows' ∧ length row = cols ∧ dims rows' cols matrix.
Proof.
  unfold dims. simpl. rewrite Forall_cons_iff. split.
  - intros (<- & Hr & Hm). by exists (length matrix).
  - intros (rows' & -> & Hr & <- & Hm). done.
Qed.

Lemma dims_inv_pos rows cols matrix :
  0 < rows → dims rows cols matrix →
  ∃ row0 rest, matrix = row0 :: rest ∧ length row0 = cols ∧ dims (rows - 1) cols rest.
Proof.
  intros Hpos Hd. destruct matrix as [|row0 rest].
  - destruct Hd as [Hl _]. simpl in Hl. lia.
  - apply dims_cons in Hd as (rows' & -> & Hr & Hd).
    exists row0, rest. replace (S rows' - 1) with rows' by lia. done.
Qed.

Lemma dims_lookup rows cols matrix i row :
  dims rows cols matrix → matrix !! i = Some row → length row = cols.
Proof.
  intros [_ Hall] Hi. rewrite Forall_lookup in Hall. by eapply Hall.
Qed.

Lemma isValidMatrix_dims matrix :
  isValidMatrix matrix = true ↔
  ∃ rows cols, 0 < rows ∧ dims rows cols matrix.
Proof.
  unfold isValidMatrix, dims. destruct matrix as [|row0 rest].
  - split; [done|]. intros (rows & cols & Hpos & Hl & _). simpl in Hl. lia.
  - rewrite forallb_forall. split.
    + intros Hall. exists (S (length rest)), (length row0).
      split; [lia|]. split; [done|]. apply Forall_forall. intros row Hin.
      apply Nat.eqb_eq, Hall, Hin.
    + intros (rows & cols & _ & _ & Hall) row Hin.
      rewrite Forall_forall in Hall.
      apply Nat.eqb_eq. rewrite (Hall row Hin).
      symmetry. apply Hall. by left.
Qed.

Lemma dims_minor n matrix i :
  dims (S n) (S n) matrix → i < S n → dims n n (minor matrix i).
Proof.
  intros Hd Hi. apply dims_inv_pos in Hd as (row0 & rest & -> & _ & Hd); [|lia].
  unfold minor. simpl. destruct Hd as [Hl Hall]. split.
  - rewrite length_map. lia.
  - apply Forall_map. eapply Forall_impl; [|exact Hall].
    intros row Hrow. simpl in *. rewrite length_delete; [lia|].
    apply lookup_lt_is_Some. lia.
Qed.

End Shapes.

(** ** The determinant is defined on every square matrix *)

Section DeterminantTotal.
Context {num : Type} `{Arith num}.

Lemma det_fuel_ok fuel : ∀ n (matrix : Matrix num),
  0 < n → n ≤ fuel + 2 → dims n n matrix → is_ok (det_fuel fuel matrix) = true.
Proof.
  induction fuel as [|fuel IH]; intros n matrix Hpos Hfuel Hd;
    destruct (dims_inv_pos _ _ _ Hpos Hd) as (row0 & rest & -> & Hrow0 & Hrest);
    destruct Hd as [Hlen _]; simpl in Hlen; simpl det_fuel;
    rewrite Hrow0, <- Hlen, Nat.eqb_refl; simpl.
  - destruct (length rest) as [|[|k]] eqn:Hk; simpl; try done. lia.
  - destruct (length rest) as [|[|k]] eqn:Hk; simpl; try done.
    apply (for_range_inv (fun _ acc => is_ok acc = true)); [lia|done|].
    intros i acc Hi Hacc. destruct acc as [det|]; [|done]. simpl.
    assert (is_ok (det_fuel fuel (minor (row0 :: rest) i)) = true) as Hm.
    { apply (IH (S (S k))); [lia|lia|]. apply dims_minor; [|lia].
      subst n. destruct Hrest as [_ Hall].
      split; [simpl; lia|]. by constructor. }
    by destruct (det_fuel fuel (minor (row0 :: rest) i)).
Qed.

(** The fuel never runs out: from the number of rows on, more fuel does
    not change the result, on any matrix. *)
Lemma length_minor (matrix : Matrix num) i :
  length (minor matrix i) = length matrix - 1.
Proof. unfold minor. rewrite length_map. destruct matrix; simpl; lia. Qed.

Lemma det_fuel_enough fuel1 : ∀ fuel2 (matrix : Matrix num),
  length matrix ≤ fuel1 + 2 → length matrix ≤ fuel2 + 2 →
  det_fuel fuel1 matrix = det_fuel fuel2 matrix.
Proof.
  induction fuel1 as [|fuel1 IH]; intros fuel2 matrix H1 H2;
    destruct matrix as [|row0 rest]; [by destruct fuel2| |by destruct fuel2|].
  - destruct fuel2; simpl in *; [done|].
    destruct (negb _); [done|].
    destruct (length rest) as [|[|k]]; [done|done|lia].
  - destruct fuel2 as [|fuel2].
    + simpl in *. destruct (negb _); [done|].
      destruct (length rest) as [|[|k]]; [done|done|lia].
    + simpl det_fuel. destruct (negb _); [done|].
      destruct (length rest) as [|[|k]] eqn:Hk; [done|done|].
      cbn [Nat.eqb]. apply for_range_ext. intros i acc _.
      destruct acc as [det|]; [|done]. simpl.
      rewrite (IH fuel2); [done| |]; rewrite length_minor; simpl in *; lia.
Qed.

Lemma determinant_ok n (matrix : Matrix num) :
  0 < n → dims n n matrix → ∃ det, determinant matrix = Ok det.
Proof.
  intros Hpos Hd. unfold determinant.
  pose proof (det_fuel_ok (length matrix) n matrix Hpos) as Hok.
  destruct Hd as [Hl Hall]. rewrite Hl in *.
  specialize (Hok ltac:(lia) (conj Hl Hall)).
  destruct (det_fuel n matrix) as [det|]; [by exists det|done].
Qed.

End DeterminantTotal.

(** ** Inverse *)

Section InverseFacts.
Context {num : Type} `{Arith num}.

Lemma gaussJordan_ok (matrix : Matrix num) :
  matrix ≠ [] → ∃ gj, gaussJordan matrix = Ok gj.
Proof. destruct matrix; [done|]. intros _. eexists. reflexivity. Qed.

Lemma augment_identity_nonempty (matrix : Matrix num) :
  matrix ≠ [] → augment_identity matrix ≠ [].
Proof. by destruct matrix. Qed.

(** The one failure of [inverse] on a square matrix with more than two
    rows is decided by the determinant, before the elimination starts:
    the singular-matrix error exactly when the magnitude of the
    determinant is below [1e-10].  Otherwise the elimination runs to its
    end, whatever pivots it meets, and [inverse] returns the right half
    of its result. *)
Lemma inverse_singular_iff_det n (A : Matrix num) :
  2 < n → dims n n A →
  ∃ det, determinant A = Ok det ∧
    if ltb (nabs det) tol
    then inverse A = Throw (Error "Matrix is singular and cannot be inverted")
    else ∃ gj, gaussJordan (augment_identity A) = Ok gj ∧
               inverse A = Ok (map (fun row => drop n row) (take n gj)).
Proof.
  intros Hn Hd.
  destruct (determinant_ok n A ltac:(lia) Hd) as [det Hdet].
  exists det. split; [done|].
  destruct (dims_inv_pos n n A ltac:(lia) Hd) as (row0 & rest & -> & Hrow0 & _).
  destruct Hd as [Hlen _].
  unfold inverse. cbv zeta. rewrite Hdet, Hrow0, Hlen, Nat.eqb_refl.
  cbn [negb rbind].
  destruct (ltb (nabs det) tol); [done|].
  destruct (gaussJordan_ok (augment_identity (row0 :: rest)))
    as [gj Hgj]; [by apply augment_identity_nonempty|].
  exists gj. split; [done|].
  destruct (n =? 2) eqn:Hn2; [apply Nat.eqb_eq in Hn2; lia|].
  by rewrite Hgj.
Qed.

End InverseFacts.

(** C2: the matrix [diag(1e-11, 1e11, 1)] is square with three rows and
    has determinant 1.  During the elimination of [[A|I]] the pivot
    candidate selected for column 0 is [1e-11], below the tolerance.
    [inverse] does not fail with the singular-matrix error: the
    elimination skips column 0 and [inverse] returns the matrix
    [diag(1, 1e-11, 1)], whose product with [A] is not the identity.
    The inverse trace of the step-by-step dialog, on the same matrix and
    the same pivot, stops with its 'singular' step. *)
Lemma inverse_skips_small_pivot :
  let A := tiny_pivot in
  let returned := qmat [[1; 0; 0]; [0; 1e-11; 0]; [0; 0; 1]]%Q in
  2 < length A ∧ dims 3 3 A ∧
  find_pivot (augment_identity A) 0 3 0 = 0 ∧
  ltb (nabs (mget (augment_identity A) 0 0)) tol = true ∧
  gj_skipped (augment_identity A) = [0] ∧
  inverse A = Ok returned ∧
  inverse A ≠ Throw (Error "Matrix is singular and cannot be inverted") ∧
  multiplyMatrices A returned ≠ Ok (identity 3) ∧
  map StepByStepMode.description (StepByStepMode.generateInverseSteps A)
  = [StepByStepMode.StartInverse; StepByStepMode.Singular;
     StepByStepMode.CompleteInverse].
Proof.
  cbv zeta.
  assert (inverse tiny_pivot
          = Ok (qmat [[1; 0; 0]; [0; 1e-11; 0]; [0; 0; 1]]%Q)) as Hinv
    by qc_eval.
  split; [simpl; lia|].
  split; [split; [reflexivity | repeat constructor]|].
  split; [by vm_compute|]. split; [by vm_compute|].
  split; [reflexivity|]. split; [exact Hinv|].
  split; [by rewrite Hinv|]. split; [|by vm_compute].
  intros Heq. vm_compute in Heq. discriminate Heq.
Qed.

(** C4: on an invertible matrix whose determinant is 1, the product of
    the matrix and the result of [inverse] has [1e-11] in its first
    diagonal entry, which is not within [1e-8] of 1. *)
Lemma inverse_round_trip_fails :
  determinant tiny_pivot = Ok one ∧
  ltb (nabs (one : Qc)) tol = false ∧
  ∃ inv product,
    inverse tiny_pivot = Ok inv ∧
    multiplyMatrices tiny_pivot inv = Ok product ∧
    product = qmat [[1e-11; 0; 0]; [0; 1; 0]; [0; 0; 1]]%Q ∧
    ltb (Q2Qc 1e-8) (nabs (sub (mget product 0 0) (mget (identity 3) 0 0))) = true.
Proof.
  split; [qc_eval|]. split; [reflexivity|].
  exists (qmat [[1; 0; 0]; [0; 1e-11; 0]; [0; 0; 1]]%Q),
         (qmat [[1e-11; 0; 0]; [0; 1; 0]; [0; 0; 1]]%Q).
  split; [qc_eval|]. split; [qc_eval|]. split; reflexivity.
Qed.

(** ** Equation solver *)

(** C1: on the consistent system [x = 20], [5e-11 x = 1e-9] the reduced
    augmented matrix has a zero first row and its only pivot in the
    second row, whose augmented entry is 1.  The solver classifies the
    system as [unique] and sets the variable of the pivot column from
    the first row: the reported solution is [x = 0]. *)
Lemma solveByRREF_misplaced_pivot :
  let R := qmat [[0; 0]; [1 # 20; 1]]%Q in
  rref (augment_vector small_row_A small_row_b) = Ok R ∧
  existsb (contradiction_row 1) R = false ∧
  map (first_pivot 1) R = [None; Some 0] ∧
  mget R 1 1 = one ∧
  solveByRREF small_row_A small_row_b
  = Ok (mkSolution unique (Some (qvec [0]%Q)) None).
Proof.
  cbv zeta. split; [qc_eval|]. split; [reflexivity|].
  split; [reflexivity|]. split; qc_eval.
Qed.

(** ** Matrix power *)

Section PowerFacts.
Context {num : Type} `{Arith num}.

Lemma matrixPower_zero (A : Matrix num) :
  matrixPower A 0 = Ok (identity (length A)).
Proof. reflexivity. Qed.

Lemma matrixPower_one (A : Matrix num) : matrixPower A 1 = Ok A.
Proof. reflexivity. Qed.

Lemma power_loop (A : Matrix num) k :
  for_range 1 (S k)
    (fun _ acc => let* result := acc in multiplyMatrices result A) (Ok A)
  = repeated_product A k.
Proof.
  induction k as [|k IH]; [reflexivity|].
  rewrite for_range_snoc by lia. rewrite IH. reflexivity.
Qed.

(** For an exponent [p >= 2] the loop performs [p - 1] multiplications. *)
Lemma matrixPower_ge2 (A : Matrix num) (p : Z) :
  (2 ≤ p)%Z → matrixPower A p = repeated_product A (Z.to_nat p - 1).
Proof.
  intros Hp. unfold matrixPower.
  destruct (p =? 0)%Z eqn:H0; [apply Z.eqb_eq in H0; lia|].
  destruct (p =? 1)%Z eqn:H1; [apply Z.eqb_eq in H1; lia|].
  replace (Z.to_nat p) with (S (Z.to_nat p - 1)) at 1 by lia.
  apply power_loop.
Qed.

(** Through the entry point, every exponent [p >= 1] reaches
    [matrixPower]; the exponent 0 does not. *)
Lemma calculateMatrixFunction_power n (A : Matrix num) (p : Z) :
  0 < n → dims n n A →
  calculateMatrixFunction A "power" (Some p) =
    if (p <=? 0)%Z then Throw (Error "Power must be a positive integer")
    else matrixPower A p.
Proof.
  intros Hn Hd.
  destruct (dims_inv_pos n n A Hn Hd) as (row0 & rest & -> & Hrow0 & _).
  destruct Hd as [Hlen _].
  unfold calculateMatrixFunction. rewrite Hrow0, Hlen, Nat.eqb_refl.
  cbn [negb String.eqb Ascii.eqb Bool.eqb].
  destruct (p =? 0)%Z eqn:H0, (p <? 0)%Z eqn:H1, (p <=? 0)%Z eqn:H2;
    try reflexivity; lia.
Qed.

End PowerFacts.

(** C3: the exponent 0 is rejected by the entry point of the matrix
    functions, although [matrixPower] itself maps it to the identity and
    the exponents 1 and 3 go through. *)
Lemma calculateMatrixFunction_rejects_zero :
  let A := qmat [[1; 2]; [3; 4]]%Q in
  calculateMatrixFunction A "power" (Some 0%Z)
  = Throw (Error "Power must be a positive integer") ∧
  matrixPower A 0 = Ok (qmat [[1; 0]; [0; 1]]%Q) ∧
  calculateMatrixFunction A "power" (Some 1%Z) = Ok A ∧
  calculateMatrixFunction A "power" (Some 3%Z)
  = Ok (qmat [[37; 54]; [81; 118]]%Q).
Proof.
  cbv zeta. split; [reflexivity|]. split; [qc_eval|].
  split; [reflexivity|]. qc_eval.
Qed.

(** ** Laws of the arithmetics

    The theorems below that hold in any arithmetic name the laws they
    use.  Both the rationals and the doubles satisfy those on equality:
    [x == 1] holds of 1 alone, and [x == 0] only of numbers of
    magnitude 0 (on doubles, the two zeros). *)

Lemma Qc_eqb_eq (x y : Qc) : eqb x y = true → x = y.
Proof. apply bool_decide_eq_true_1. Qed.

Lemma Qc_eqb_one (x : Qc) : eqb x one = true → x = one.
Proof. apply Qc_eqb_eq. Qed.

Lemma Qc_eqb_zero (x : Qc) : eqb x zero = true → nabs x = nabs zero.
Proof. by intros ->%Qc_eqb_eq. Qed.

Lemma Qc_div_one (x : Qc) : div x one = x.
Proof.
  simpl. unfold Qcdiv.
  replace (Qcinv (Q2Qc 1)) with (Q2Qc 1) by (apply Qc_is_canon; reflexivity).
  apply Qcmult_1_r.
Qed.



Lemma Prim2SF_one : Prim2SF 1%float = S754_finite false 4503599627370496 (-52).
Proof. vm_compute. reflexivity. Qed.

Lemma Prim2SF_zero : Prim2SF 0%float = S754_zero false.
Proof. vm_compute. reflexivity. Qed.

Lemma SFcompare_eq_one s :
  SFcompare s (Prim2SF 1%float) = Some Eq → s = Prim2SF 1%float.
Proof.
  rewrite Prim2SF_one.
  destruct s as [[]|[]| |[] m e]; try discriminate.
  cbn [SFcompare]. destruct (e ?= -52)%Z eqn:He.
  2: intros Hx; exfalso; congruence.
  2: intros Hx; exfalso; congruence.
  intros Hm.
  assert (Pos.compare_cont Eq m 4503599627370496 = Eq) as Hm' by congruence.
  apply Z.compare_eq in He. apply Pos.compare_eq in Hm'.
  rewrite He, Hm'. reflexivity.
Qed.

(** On doubles [x == 1] holds of 1 alone, and [x == 0] of the two zeros. *)
Lemma float_eqb_one (x : float) : PrimFloat.eqb x 1%float = true → x = 1%float.
Proof.
  rewrite FloatAxioms.eqb_spec. unfold SFeqb. intros Heq. apply Prim2SF_inj.
  apply SFcompare_eq_one.
  destruct (SFcompare _ _) as [[]|]; congruence.
Qed.

Lemma float_eqb_zero (x : float) :
  PrimFloat.eqb x 0%float = true → PrimFloat.abs x = 0%float.
Proof.
  rewrite FloatAxioms.eqb_spec. unfold SFeqb. intros Heq. apply Prim2SF_inj.
  rewrite FloatAxioms.abs_spec. rewrite Prim2SF_zero in *.
  destruct (Prim2SF x) as [[]|[]| |[] m e]; simpl in *; congruence.
Qed.






(** Addition and multiplication of doubles are commutative. *)
Lemma float_add_comm (x y : float) : add x y = add y x.
Proof.
  apply Prim2SF_inj. simpl. rewrite !add_spec. unfold SF64add, SFadd.
  destruct (Prim2SF x) as [[]|[]| |sx mx ex], (Prim2SF y) as [[]|[]| |sy my ey];
    try reflexivity.
  by rewrite Z.min_comm, Z.add_comm.
Qed.

Lemma float_mul_comm (x y : float) : mul x y = mul y x.
Proof.
  apply Prim2SF_inj. simpl. rewrite !mul_spec. unfold SF64mul, SFmul.
  destruct (Prim2SF x) as [[]|[]| |[] mx ex], (Prim2SF y) as [[]|[]| |[] my ey];
    try reflexivity;
    by rewrite (Pos.mul_comm mx my), (Z.add_comm ex ey).
Qed.

(** ** Row operations that change nothing *)

Section RowOps.
Context {num : Type} `{Arith num}.
Implicit Types (result : Matrix num).

Lemma row_insert_id result i j :
  <[i := <[j := mget result i j]> (default [] (result !! i))]> result = result.
Proof.
  unfold mget, vget. destruct (result !! i) as [row|] eqn:Hi; simpl.
  - assert (<[j := default nan (row !! j)]> row = row) as ->.
    { destruct (row !! j) as [v|] eqn:Hj; simpl.
      + by apply list_insert_id.
      + apply list_insert_ge. by apply lookup_ge_None. }
    by apply list_insert_id.
  - apply list_insert_ge. by apply lookup_ge_None.
Qed.

Lemma swap_rows_same result i : swap_rows result i i = result.
Proof.
  assert (<[i := default [] (result !! i)]> result = result) as Hid.
  { destruct (result !! i) as [row|] eqn:Hi; simpl.
    - by apply list_insert_id.
    - apply list_insert_ge. by apply lookup_ge_None. }
  unfold swap_rows. by rewrite !Hid.
Qed.

(** Scaling a row by a pivot that divides each entry of the row to
    itself changes nothing. *)
Lemma scale_row_fixed result r cols pivot :
  (∀ j, j < cols → div (mget result r j) pivot = mget result r j) →
  scale_row result r cols pivot = result.
Proof.
  intros Hdiv. unfold scale_row.
  apply (for_range_inv (fun _ res => res = result)); [lia|done|].
  intros j res Hj ->. rewrite Hdiv by lia. apply row_insert_id.
Qed.

Lemma scale_row_one result r cols :
  (∀ x, div x one = x) → scale_row result r cols one = result.
Proof. intros Hdiv. apply scale_row_fixed. intros j _. apply Hdiv. Qed.

End RowOps.

(** ** The traced elimination against [rref] *)

Section TraceRefinement.
Context {num : Type} `{Arith num}.
Hypothesis eqb_one : ∀ x : num, eqb x one = true → x = one.
Hypothesis div_one : ∀ x : num, div x one = x.

Lemma gauss_col_shows rows cols col st rst :
  shows st rst →
  (∀ p, rref_pivot_at rows col rst = Some p → clean_pivot p = true) →
  shows (gauss_col rows cols col st) (rref_col rows cols col rst).
Proof.
  destruct rst as [result pivotRow]. intros [Hres Hpr] Hclean.
  simpl in Hres, Hpr. unfold gauss_col, rref_col, rref_pivot_at in *.
  rewrite Hres, Hpr.
  destruct (negb (pivotRow <? rows)); [done|].
  set (maxRow := find_pivot result pivotRow rows col) in *.
  destruct (ltb (nabs (mget result maxRow col)) tol); [done|].
  specialize (Hclean _ eq_refl).
  set (swapped := swap_rows result pivotRow maxRow) in *.
  (* after the optional swap *)
  set (st1 := if negb (maxRow =? pivotRow) then _ else st).
  assert (g_result st1 = swapped ∧ g_pivotRow st1 = pivotRow) as [Hr1 Hp1].
  { subst st1. destruct (maxRow =? pivotRow) eqn:Heq; simpl; [|done].
    apply Nat.eqb_eq in Heq. subst swapped. rewrite Heq, swap_rows_same. done. }
  rewrite Hr1.
  set (pivot := mget swapped pivotRow col) in *.
  (* after the optional scaling *)
  set (st2 := if gtb (nabs (sub pivot one)) tol then _ else st1).
  assert (g_result st2 = scale_row swapped pivotRow cols pivot
          ∧ g_pivotRow st2 = pivotRow) as [Hr2 Hp2].
  { subst st2. unfold clean_pivot in Hclean.
    destruct (gtb (nabs (sub pivot one)) tol); simpl; [done|].
    simpl in Hclean. apply eqb_one in Hclean.
    rewrite Hclean, scale_row_one by done. done. }
  (* the elimination loop *)
  split; simpl; [|done].
  apply (for_range_rel (fun (a : GaussState) (b : Matrix num) => g_result a = b));
    [done|].
  intros i a b _ <-.
  by destruct (negb (i =? pivotRow) && gtb (nabs (mget (g_result a) i col)) tol).
Qed.

Lemma gauss_run_shows rows cols cs : ∀ st rst,
  shows st rst →
  forallb clean_pivot (rref_pivots_from rows cols cs rst) = true →
  shows (foldl (fun s i => gauss_col rows cols i s) st cs)
        (foldl (fun s i => rref_col rows cols i s) rst cs).
Proof.
  induction cs as [|col cs IH]; intros st rst Hs Hclean; [done|].
  simpl in *. rewrite forallb_app in Hclean.
  apply andb_prop in Hclean as [Hhead Htail].
  apply IH; [|done]. apply gauss_col_shows; [done|].
  intros p Hp. rewrite Hp in Hhead. simpl in Hhead.
  by destruct (clean_pivot p).
Qed.

(** Steps are only ever appended. *)
Lemma gauss_col_steps rows cols col st :
  ∃ more, g_steps (gauss_col rows cols col st) = g_steps st ++ more.
Proof.
  unfold gauss_col.
  destruct (negb (g_pivotRow st <? rows)); [by exists []; rewrite app_nil_r|].
  destruct (ltb _ tol); [by exists []; rewrite app_nil_r|].
  set (st1 := if negb (_ =? _) then _ else st).
  assert (∃ more, g_steps st1 = g_steps st ++ more) as [m1 Hm1].
  { subst st1. destruct (negb _); simpl; eauto. by exists []; rewrite app_nil_r. }
  set (st2 := if gtb _ tol then _ else st1).
  assert (∃ more, g_steps st2 = g_steps st ++ more) as [m2 Hm2].
  { subst st2. destruct (gtb _ tol); simpl; eauto.
    rewrite Hm1, <- app_assoc. eauto. }
  simpl.
  apply (for_range_inv (fun _ a => ∃ more, g_steps a = g_steps st ++ more));
    [lia|eauto|].
  intros i a _ [m Hm]. destruct (_ && _); simpl; eauto.
  rewrite Hm, <- app_assoc. eauto.
Qed.

Lemma gauss_run_steps rows cols n st :
  ∃ more, g_steps (for_range 0 n (gauss_col rows cols) st) = g_steps st ++ more.
Proof.
  apply (for_range_inv (fun _ a => ∃ more, g_steps a = g_steps st ++ more));
    [lia|by exists []; rewrite app_nil_r|].
  intros i a _ [m Hm].
  destruct (gauss_col_steps rows cols i a) as [m' Hm'].
  rewrite Hm', Hm, <- app_assoc. eauto.
Qed.

End TraceRefinement.



(** On doubles [x == 1] holds of 1 alone; with the exactness of the
    division by 1 the final step of a run on doubles shows [rref A]
    under the same condition on the pivots. *)
Lemma generateGaussianSteps_final_double (A : Matrix float) :
  (∀ x : float, div x one = x) →
  isValidMatrix A = true →
  forallb clean_pivot (rref_pivots A) = true →
  ∃ steps final,
    generateGaussianSteps A = Ok (steps ++ [final]) ∧
    rref A = Ok (step_matrix final).
Proof.
  intros Hdiv Hvalid Hclean. destruct A as [|row0 rest]; [done|].
  unfold generateGaussianSteps, rref, rref_pivots in *.
  cbn [lookup list_lookup default from_option id] in *.
  set (rows := length (row0 :: rest)) in *.
  set (cols := length row0) in *.
  set (st0 := mkGauss (row0 :: rest) 0 _ 1).
  destruct (gauss_run_steps rows cols cols st0) as [more Hmore].
  pose proof (gauss_run_shows float_eqb_one Hdiv rows cols (seq 0 cols) st0
                (row0 :: rest, 0) ltac:(done) Hclean) as [Hres _].
  rewrite <- !for_range_0 in Hres.
  eexists _, _. rewrite Hmore. split; [reflexivity|].
  cbn [step_matrix]. by rewrite Hres.
Qed.


(** ** The shape of the result of [rref] *)

Section RrefShape.
Context {num : Type} `{Arith num}.
Implicit Types (result : Matrix num).

Lemma rref_unfold (matrix : Matrix num) :
  matrix ≠ [] →
  rref matrix
  = Ok (for_range 0 (length (default [] (matrix !! 0)))
          (rref_col (length matrix) (length (default [] (matrix !! 0))))
          (matrix, 0)).1.
Proof. by destruct matrix. Qed.






End RrefShape.

(** ** [rref] on a matrix in exact reduced row echelon form *)

Lemma forallb_seq (f : nat → bool) a n :
  forallb f (seq a n) = true → ∀ i, a ≤ i < a + n → f i = true.
Proof.
  rewrite forallb_forall. intros Hall i Hi. apply Hall, in_seq. lia.
Qed.

Section ExactRref.
Context {num : Type} `{Arith num}.
Hypothesis eqb_one : ∀ x : num, eqb x one = true → x = one.
Hypothesis eqb_zero : ∀ x : num, eqb x zero = true → nabs x = nabs zero.
Hypothesis zero_not_above_zero : ltb (nabs zero) (nabs zero) = false.
Hypothesis zero_not_above_one : ltb (nabs one) (nabs zero) = false.
Hypothesis zero_below_tol : ltb (nabs zero) tol = true.
Hypothesis one_not_below_tol : ltb (nabs one) tol = false.
Hypothesis zero_not_above_tol : ltb tol (nabs zero) = false.

Variables (pivots : list nat) (M : Matrix num).
Let rows := length M.
Let cols := length (default [] (M !! 0)).
Let p := length pivots.
Hypothesis Hexact : exact_rref pivots M = true.

Lemma exact_leading : p ≤ rows.
Proof.
  unfold exact_rref in Hexact. fold rows cols p in Hexact.
  apply andb_prop in Hexact as [Hx _]. apply andb_prop in Hx as [Hx _].
  by apply Nat.leb_le.
Qed.

Lemma exact_pivot_row k :
  k < p →
  mget M k (pivot_col pivots k) = one ∧
  (∀ j, j < pivot_col pivots k → nabs (mget M k j) = nabs zero) ∧
  (∀ i, i < rows → i ≠ k → nabs (mget M i (pivot_col pivots k)) = nabs zero) ∧
  (∀ k', k < k' < p → pivot_col pivots k < pivot_col pivots k').
Proof.
  intros Hk. unfold exact_rref in Hexact. fold rows cols p in Hexact.
  apply andb_prop in Hexact as [Hx _]. apply andb_prop in Hx as [_ Hx].
  pose proof (forallb_seq _ _ _ Hx k ltac:(lia)) as Hk'. simpl in Hk'.
  apply andb_prop in Hk' as [Hk' Hinc]. apply andb_prop in Hk' as [Hk' Hcol].
  apply andb_prop in Hk' as [Hone Hleft].
  split; [by apply eqb_one|]. split; [|split].
  - intros j Hj. apply eqb_zero. apply (forallb_seq _ _ _ Hleft). lia.
  - intros i Hi Hne. pose proof (forallb_seq _ _ _ Hcol i ltac:(lia)) as Hz.
    simpl in Hz. apply orb_prop in Hz as [Heq|Hz]; [|by apply eqb_zero].
    apply Nat.eqb_eq in Heq. done.
  - intros k' Hk2. apply Nat.ltb_lt. apply (forallb_seq _ _ _ Hinc). lia.
Qed.

Lemma exact_zero_row i j :
  p ≤ i < rows → j < cols → nabs (mget M i j) = nabs zero.
Proof.
  intros Hi Hj. unfold exact_rref in Hexact. fold rows cols p in Hexact.
  apply andb_prop in Hexact as [_ Hx].
  pose proof (forallb_seq _ _ _ Hx i ltac:(lia)) as Hrow. simpl in Hrow.
  apply eqb_zero. apply (forallb_seq _ _ _ Hrow). lia.
Qed.

Lemma exact_pivot_mono k k' :
  k ≤ k' → k' < p → pivot_col pivots k ≤ pivot_col pivots k'.
Proof.
  intros Hle Hk'. destruct (decide (k = k')) as [->|Hne]; [done|].
  destruct (exact_pivot_row k ltac:(lia)) as (_ & _ & _ & Hinc).
  specialize (Hinc k' ltac:(lia)). lia.
Qed.

(** The pivot search stays on [start] when no row below it has a larger
    magnitude in the column. *)
Lemma find_pivot_stays (result : Matrix num) start n col :
  (∀ i, start < i < n →
        gtb (nabs (mget result i col)) (nabs (mget result start col)) = false) →
  find_pivot result start n col = start.
Proof.
  intros Hle. unfold find_pivot.
  destruct (decide (start + 1 ≤ n)) as [Hn|Hn]; [|by rewrite for_range_ge by lia].
  apply (for_range_inv (fun _ maxRow => maxRow = start)); [done..|].
  intros i maxRow Hi ->. by rewrite Hle by lia.
Qed.

(** Dividing by 1 is asked of the entries of the pivot rows only: these
    are the divisions [rref] makes on [M]. *)
Hypothesis div_one_M :
  ∀ k j, k < rows → j < cols → div (mget M k j) one = mget M k j.

Lemma rref_col_exact col st :
  col < cols → at_column pivots M col st →
  at_column pivots M (S col) (rref_col rows cols col st).
Proof.
  destruct st as [result pr]. intros Hcol (Hres & Hpr & Hleft & Hright).
  simpl in Hres, Hpr, Hleft, Hright. fold p in Hpr, Hright. subst result.
  pose proof exact_leading as Hlead. unfold rref_col.
  destruct (pr <? rows) eqn:Hprr; simpl.
  2:{ apply Nat.ltb_ge in Hprr. split; [done|]. split; [done|]. simpl.
      split; [intros k Hk; specialize (Hleft k Hk); lia|]. intros k Hk. lia. }
  apply Nat.ltb_lt in Hprr.
  destruct (decide (pr < p ∧ pivot_col pivots pr = col)) as [[Hlt Hc]|Hno].
  - (* [col] is the pivot column of row [pr] *)
    destruct (exact_pivot_row pr Hlt) as (Hone & _ & Hzero & Hinc).
    rewrite Hc in Hone, Hzero.
    rewrite find_pivot_stays.
    2:{ intros i Hi. unfold gtb. rewrite Hone, Hzero by lia. done. }
    rewrite Hone, one_not_below_tol, swap_rows_same, Hone.
    rewrite scale_row_fixed by (intros j Hj; by apply div_one_M).
    rewrite (for_range_inv (fun _ res => res = M) 0 rows _ M); [|lia|done|].
    2:{ intros i res Hi ->. destruct (i =? pr) eqn:Hip; simpl; [done|].
        apply Nat.eqb_neq in Hip. unfold gtb.
        by rewrite Hzero, zero_not_above_tol by lia. }
    split; [done|]. simpl. split; [lia|]. split.
    + intros k Hk. destruct (decide (k = pr)) as [->|Hne]; [lia|].
      specialize (Hleft k ltac:(lia)). lia.
    + intros k Hk. specialize (Hinc k ltac:(lia)). lia.
  - (* no pivot in this column: every candidate has magnitude zero *)
    assert (∀ i, pr ≤ i < rows → nabs (mget M i col) = nabs zero) as Hz.
    { intros i Hi. destruct (decide (i < p)) as [Hip|Hip].
      - destruct (exact_pivot_row i Hip) as (_ & Hl & _ & _). apply Hl.
        pose proof (exact_pivot_mono pr i ltac:(lia) Hip).
        specialize (Hright pr ltac:(lia)). lia.
      - apply exact_zero_row; lia. }
    rewrite find_pivot_stays.
    2:{ intros i Hi. unfold gtb. rewrite !Hz by lia. done. }
    rewrite Hz by lia. rewrite zero_below_tol.
    split; [done|]. simpl. split; [done|]. split.
    + intros k Hk. specialize (Hleft k Hk). lia.
    + intros k Hk. pose proof (exact_pivot_mono pr k ltac:(lia) ltac:(lia)).
      specialize (Hright pr ltac:(lia)). lia.
Qed.

Lemma rref_exact_fixed : M ≠ [] → rref M = Ok M.
Proof.
  intros Hne. rewrite rref_unfold by done. fold rows cols. f_equal.
  apply (for_range_inv (at_column pivots M) 0 cols (rref_col rows cols) (M, 0));
    [lia| |].
  - split; [done|]. simpl. split; [lia|]. split; intros k Hk; lia.
  - intros col st Hcol. apply rref_col_exact. lia.
Qed.

End ExactRref.



(** The same over the rationals, where division by 1 changes no number. *)
Lemma rref_idempotent_rational :
  let A := qmat [[2; 1; 3]; [1; 3; 2]; [2; 6; 4]]%Q in
  let R := qmat [[1; 0; 7 # 5]; [0; 1; 1 # 5]; [0; 0; 0]]%Q in
  rref A = Ok R ∧ exact_rref [0; 1] R = true ∧ rref R = Ok R.
Proof.
  cbv zeta.
  assert (rref (qmat [[2; 1; 3]; [1; 3; 2]; [2; 6; 4]]%Q)
          = Ok (qmat [[1; 0; 7 # 5]; [0; 1; 1 # 5]; [0; 0; 0]]%Q)) as HR
    by qc_eval.
  split; [exact HR|]. split; [reflexivity|].
  apply (@rref_exact_fixed Qc Qc_arith Qc_eqb_one Qc_eqb_zero eq_refl eq_refl
           eq_refl eq_refl eq_refl [0; 1]); [reflexivity| |done].
  intros k j _ _. apply Qc_div_one.
Qed.


(** ** The traced LU decomposition *)

Section LUTrace.
Context {num : Type} `{Arith num}.
Implicit Types (st : LUState num).

Lemma lu_row_done n k i st : lu_done st = true → lu_row n k i st = st.
Proof. intros Hd. unfold lu_row. by rewrite Hd. Qed.

Lemma lu_rows_done n k lo hi st :
  lu_done st = true → for_range lo hi (lu_row n k) st = st.
Proof.
  intros Hd. destruct (decide (lo ≤ hi)); [|by apply for_range_ge; lia].
  apply (for_range_inv (fun _ s => s = st)); [done..|].
  intros i s _ ->. by apply lu_row_done.
Qed.

Lemma lu_col_done n k st : lu_done st = true → lu_col n k st = st.
Proof. intros Hd. unfold lu_col. by rewrite Hd. Qed.

Lemma lu_cols_done n lo hi st :
  lu_done st = true → for_range lo hi (lu_col n) st = st.
Proof.
  intros Hd. destruct (decide (lo ≤ hi)); [|by apply for_range_ge; lia].
  apply (for_range_inv (fun _ s => s = st)); [done..|].
  intros i s _ ->. by apply lu_col_done.
Qed.

(** The generator never raises an exception on a valid matrix. *)
Lemma generateLUSteps_ok (A : Matrix num) :
  A ≠ [] → ∃ trace, generateLUSteps A = Ok trace.
Proof.
  destruct A as [|row0 rest]; [done|]. intros _. unfold generateLUSteps.
  destruct (negb _); [eauto|]. destruct (lu_done _); eauto.
Qed.

(** C7: on a valid square matrix the traced LU decomposition returns a
    trace (it raises no exception), and if on entry to an inner
    iteration [(k, i)] the pivot [U[k][k]] has magnitude below [1e-10],
    the returned trace is the steps produced so far followed by the
    zero-pivot error step. *)
Theorem generateLUSteps_zero_pivot n (A : Matrix num) :
  0 < n → dims n n A →
  (∃ trace, generateLUSteps A = Ok trace) ∧
  ∀ k i, k < n - 1 → k < i < n →
    lu_done (lu_state_at A k i) = false →
    ltb (nabs (mget (lu_U (lu_state_at A k i)) k k)) tol = true →
    generateLUSteps A
    = Ok (lu_steps (lu_state_at A k i)
            ++ [mkLUStep (lu_stepId (lu_state_at A k i)) LUZeroPivot RefU],
          lu_U (lu_state_at A k i)).
Proof.
  intros Hn Hd.
  destruct (dims_inv_pos n n A Hn Hd) as (row0 & rest & -> & Hrow0 & _).
  destruct Hd as [Hlen _].
  split; [by apply generateLUSteps_ok|].
  intros k i Hk Hi. unfold lu_state_at, generateLUSteps. rewrite Hlen, Hrow0.
  rewrite Nat.eqb_refl. cbn [negb].
  set (st0 := mkLU (identity n) (row0 :: rest) _ 1 false).
  set (sk := for_range 0 k (lu_col n) st0).
  set (st := for_range (k + 1) i (lu_row n k) (lu_push sk (LUWorking k) RefU)).
  intros Hnot Hsmall.
  assert (lu_done sk = false) as Hsk.
  { destruct (lu_done sk) eqn:Hdone; [|done].
    subst st. rewrite lu_rows_done in Hnot by exact Hdone.
    simpl in Hnot. congruence. }
  (* the column loop up to and including [k] *)
  rewrite (for_range_split 0 (S k) (n - 1)) by lia.
  rewrite for_range_snoc by lia. fold sk.
  assert (lu_col n k sk
          = mkLU (lu_L st) (lu_U st)
              (lu_steps st ++ [mkLUStep (lu_stepId st) LUZeroPivot RefU])
              (lu_stepId st + 1) true) as ->.
  { unfold lu_col. rewrite Hsk.
    rewrite (for_range_split (k + 1) i n) by lia. fold st.
    rewrite (for_range_first i n) by lia.
    assert (lu_row n k i st
            = mkLU (lu_L st) (lu_U st)
                (lu_steps st ++ [mkLUStep (lu_stepId st) LUZeroPivot RefU])
                (lu_stepId st + 1) true) as ->.
    { unfold lu_row. by rewrite Hnot, Hsmall. }
    by apply lu_rows_done. }
  by rewrite lu_cols_done.
Qed.

End LUTrace.

Lemma generateLUSteps_zero_pivot_witness :
  let A := qmat [[0; 1]; [1; 1]]%Q in
  0 < 2 ∧ dims 2 2 A ∧ 0 < 2 - 1 ∧ 0 < 1 < 2 ∧
  lu_done (lu_state_at A 0 1) = false ∧
  ltb (nabs (mget (lu_U (lu_state_at A 0 1)) 0 0)) tol = true ∧
  generateLUSteps A
  = Ok (lu_steps (lu_state_at A 0 1)
          ++ [mkLUStep (lu_stepId (lu_state_at A 0 1)) LUZeroPivot RefU],
        lu_U (lu_state_at A 0 1)).
Proof.
  cbv zeta.
  assert (dims 2 2 (qmat [[0; 1]; [1; 1]]%Q)) as Hd
    by (split; [reflexivity | repeat constructor]).
  split; [lia|]. split; [exact Hd|]. split; [lia|]. split; [lia|].
  split; [reflexivity|]. split; [reflexivity|].
  apply (generateLUSteps_zero_pivot (num:=Qc) 2 _ ltac:(lia) Hd);
    [lia|lia|reflexivity..].
Defined.

(** ** The angle between two vectors, in real arithmetic *)

Section Angle.
Local Open Scope R_scope.
Implicit Types (a b : list R).

Lemma foldl_squares_nonneg a : ∀ acc, 0 <= acc →
  acc <= foldl (fun sum val => sum + val * val) acc a.
Proof.
  induction a as [|x a IH]; intros acc Hacc; simpl; [lra|].
  pose proof (Rle_0_sqr x) as Hx. unfold Rsqr in Hx.
  etransitivity; [|apply IH]; lra.
Qed.

Lemma sum_squares_nonneg a : 0 <= sum_squares a.
Proof. apply foldl_squares_nonneg. lra. Qed.

Lemma foldl_squares_pos a : ∀ acc, 0 <= acc →
  Exists (fun x => x ≠ 0) a →
  0 < foldl (fun sum val => sum + val * val) acc a.
Proof.
  induction a as [|x a IH]; intros acc Hacc Hex; [by inversion Hex|].
  simpl. pose proof (Rle_0_sqr x) as Hx. unfold Rsqr in Hx.
  destruct (Req_dec_T x 0) as [->|Hne].
  - inversion Hex as [? ? Hx0|? ? Hrest]; subst; [done|].
    apply IH; [lra|done].
  - assert (0 < x * x) by (apply Rsqr_pos_lt in Hne; unfold Rsqr in Hne; lra).
    eapply Rlt_le_trans; [|apply foldl_squares_nonneg]; lra.
Qed.

(** A vector with a non-zero entry has a non-zero magnitude. *)
Lemma vectorMagnitude_nonzero a :
  Exists (fun x => x ≠ 0) a → vectorMagnitude a ≠ 0.
Proof.
  intros Hex. unfold vectorMagnitude. simpl.
  pose proof (foldl_squares_pos a 0 ltac:(lra) Hex) as Hpos.
  apply sqrt_lt_R0 in Hpos. lra.
Qed.

Lemma dot_self_gen a : ∀ pre acc,
  foldl (fun sum '(i, val) => sum + val * vget (pre ++ a) i) acc
        (imap (fun i val => (length pre + i, val)%nat) a)
  = foldl (fun sum val => sum + val * val) acc a.
Proof.
  induction a as [|x a IH]; intros pre acc; [done|].
  simpl.
  assert (vget (pre ++ x :: a) (length pre + 0) = x) as ->.
  { unfold vget. rewrite lookup_app_r by lia.
    by replace (length pre + 0 - length pre)%nat with 0%nat by lia. }
  specialize (IH (pre ++ [x]) (acc + x * x)).
  rewrite <- app_assoc in IH. simpl in IH. rewrite <- IH.
  f_equal. apply imap_ext. intros i y _. simpl.
  rewrite length_app. simpl. f_equal. lia.
Qed.

Lemma dotProduct_self a : dotProduct a a = Ok (sum_squares a).
Proof.
  unfold dotProduct. rewrite Nat.eqb_refl. simpl. f_equal.
  apply (dot_self_gen a [] 0).
Qed.

(** Whatever the quotient, the argument handed to [Math.acos] lies in
    [[-1, 1]]. *)
Lemma clamp_range (x : R) : -1 <= clamp x <= 1.
Proof.
  unfold clamp. simpl. unfold Rmax, Rmin.
  repeat destruct (Rle_dec _ _); lra.
Qed.

Lemma clamp_one : clamp 1 = 1.
Proof.
  unfold clamp. simpl. unfold Rmax, Rmin.
  repeat destruct (Rle_dec _ _); lra.
Qed.

Lemma eqb_zero_true (x : R) : eqb x zero = true ↔ x = 0.
Proof. simpl. destruct (Req_dec_T x 0); split; congruence. Qed.

Lemma eqb_zero_false (x : R) : eqb x zero = false ↔ x ≠ 0.
Proof. simpl. destruct (Req_dec_T x 0); split; congruence. Qed.

(** In exact real arithmetic, for vectors of equal length: a zero
    magnitude on either side makes [angleBetweenVectors] fail with the
    zero-vector error; otherwise it returns the arc cosine of the
    quotient, which the clamp leaves in [[-1, 1]]; and the angle of a
    non-zero vector with itself is 0. *)
Lemma angleBetweenVectors_exact a b :
  length a = length b →
  (vectorMagnitude a = 0 ∨ vectorMagnitude b = 0 →
   angleBetweenVectors a b
   = Throw (Error "Cannot calculate angle with zero vector")) ∧
  (vectorMagnitude a ≠ 0 → vectorMagnitude b ≠ 0 →
   ∃ dot, dotProduct a b = Ok dot ∧
     -1 <= clamp (dot / (vectorMagnitude a * vectorMagnitude b)) <= 1 ∧
     angleBetweenVectors a b
     = Ok (acos (clamp (dot / (vectorMagnitude a * vectorMagnitude b))))) ∧
  (Exists (fun x => x ≠ 0) a → angleBetweenVectors a a = Ok 0).
Proof.
  intros Hlen.
  assert (∃ dot, dotProduct a b = Ok dot) as [dot Hdot].
  { unfold dotProduct. rewrite Hlen, Nat.eqb_refl. simpl. eauto. }
  split; [|split].
  - intros Hzero. unfold angleBetweenVectors. rewrite Hdot. cbn [rbind].
    destruct Hzero as [Hz|Hz]; apply eqb_zero_true in Hz; rewrite Hz;
      [done|by rewrite orb_true_r].
  - intros Ha Hb. exists dot. split; [done|]. split; [apply clamp_range|].
    unfold angleBetweenVectors. rewrite Hdot. cbn [rbind].
    apply eqb_zero_false in Ha, Hb. by rewrite Ha, Hb.
  - intros Ha%vectorMagnitude_nonzero. unfold angleBetweenVectors.
    rewrite dotProduct_self. cbn [rbind].
    rewrite (proj2 (eqb_zero_false _) Ha). cbn [orb]. f_equal.
    assert (vectorMagnitude a * vectorMagnitude a = sum_squares a) as Hsq.
    { unfold vectorMagnitude. simpl. apply sqrt_sqrt, sum_squares_nonneg. }
    assert (sum_squares a ≠ 0) as Hs.
    { intros Hs. apply Ha. unfold vectorMagnitude. simpl.
      fold (sum_squares a). by rewrite Hs, sqrt_0. }
    change (acos (clamp (sum_squares a / (vectorMagnitude a * vectorMagnitude a)))
            = 0).
    rewrite Hsq. replace (sum_squares a / sum_squares a) with 1 by (by field).
    rewrite clamp_one. apply acos_1.
Qed.

End Angle.

(** ** The angle on doubles *)

Section DoubleAngle.
Variable acos : float → float.

Local Abbreviation magnitude :=
  (@vectorMagnitude float float_arith (float_trans acos)).
Local Abbreviation angle :=
  (@angleBetweenVectors float float_arith (float_trans acos)).
Local Abbreviation clamped := (@clamp float float_arith (float_trans acos)).









End DoubleAngle.



(** ** Determinant of the transpose, in a commutative ring *)

Section DetTranspose.
Context {num : Type} `{Arith num}.
Hypothesis Rth : ring_theory zero one add mul sub neg (@eq num).
Add Ring num_ring : Rth.

Implicit Types (f : nat → nat → num) (g h : nat → num).

Lemma sumn_ext n g h : (∀ i, i < n → g i = h i) → sumn n g = sumn n h.
Proof.
  induction n as [|n IH]; intros Hext; [done|]. simpl.
  rewrite IH by (intros i Hi; apply Hext; lia). by rewrite Hext by lia.
Qed.

Lemma sumn_shift n g : sumn (S n) g = add (g 0) (sumn n (fun i => g (S i))).
Proof.
  induction n as [|n IH]; [simpl; ring|].
  change (sumn (S (S n)) g) with (add (sumn (S n) g) (g (S n))).
  rewrite IH. simpl. ring.
Qed.

Lemma sumn_mul c n g : mul c (sumn n g) = sumn n (fun i => mul c (g i)).
Proof. induction n as [|n IH]; simpl; [ring|]. rewrite <- IH. ring. Qed.

Lemma sumn_add n g h :
  add (sumn n g) (sumn n h) = sumn n (fun i => add (g i) (h i)).
Proof. induction n as [|n IH]; simpl; [ring|]. rewrite <- IH. ring. Qed.

Lemma sumn_zero n : sumn n (fun _ => zero) = zero.
Proof. induction n as [|n IH]; simpl; [done|]. rewrite IH. ring. Qed.

Lemma sumn_swap n m (t : nat → nat → num) :
  sumn n (fun i => sumn m (fun j => t i j))
  = sumn m (fun j => sumn n (fun i => t i j)).
Proof.
  induction n as [|n IH]; simpl; [by rewrite sumn_zero|].
  rewrite IH. apply sumn_add.
Qed.

Lemma pow_neg1_S i : pow_neg1 (S i) = neg (pow_neg1 i).
Proof.
  unfold pow_neg1. rewrite Nat.even_succ, <- Nat.negb_even.
  destruct (Nat.even i); simpl; ring.
Qed.

Lemma skip_0 c : skip 0 c = S c.
Proof. reflexivity. Qed.

Lemma skip_S_0 j : skip (S j) 0 = 0.
Proof. reflexivity. Qed.

Lemma skip_S_S j c : skip (S j) (S c) = S (skip j c).
Proof.
  unfold skip. change (S c <? S j) with (c <? j). by destruct (c <? j).
Qed.

Lemma detF_S n f :
  detF (S n) f
  = sumn (S n)
      (fun j => mul (mul (f 0 j) (pow_neg1 j))
                    (detF n (fun r c => f (S r) (skip j c)))).
Proof. reflexivity. Qed.

Lemma detF_ext n : ∀ f1 f2,
  (∀ r c, f1 r c = f2 r c) → detF n f1 = detF n f2.
Proof.
  induction n as [|n IH]; intros f1 f2 Hext; [done|].
  cbn [detF]. apply sumn_ext. intros j _. rewrite Hext.
  f_equal. apply IH. intros r c. apply Hext.
Qed.

(** The expansion along the first column. *)
Lemma detF_first_column n : ∀ f,
  detF (S n) f
  = sumn (S n)
      (fun i => mul (mul (f i 0) (pow_neg1 i))
                    (detF n (fun r c => f (skip i r) (S c)))).
Proof.
  induction n as [|m IH]; intros f; [reflexivity|].
  set (D := fun i j => detF m (fun r c => f (S (skip i r)) (S (skip j c)))).
  (* the minors of the first row, expanded along their first column *)
  assert (∀ j, detF (S m) (fun r c => f (S r) (skip (S j) c))
               = sumn (S m) (fun i => mul (mul (f (S i) 0) (pow_neg1 i)) (D i j)))
    as Hrow.
  { intros j. rewrite IH. apply sumn_ext. intros i _. rewrite skip_S_0.
    f_equal. apply detF_ext. intros r c. by rewrite skip_S_S. }
  (* the minors of the first column, expanded along their first row *)
  assert (∀ i, detF (S m) (fun r c => f (skip (S i) r) (S c))
               = sumn (S m) (fun j => mul (mul (f 0 (S j)) (pow_neg1 j)) (D i j)))
    as Hcol.
  { intros i. cbn [detF]. apply sumn_ext. intros j _. rewrite skip_S_0.
    f_equal. apply detF_ext. intros r c. by rewrite skip_S_S. }
  change (detF (S (S m)) f)
    with (sumn (S (S m))
            (fun j => mul (mul (f 0 j) (pow_neg1 j))
                          (detF (S m) (fun r c => f (S r) (skip j c))))).
  rewrite (sumn_shift (S m)), (sumn_shift (S m) (fun i => mul (mul (f i 0) _) _)).
  apply (f_equal2 add).
  - reflexivity.
  - transitivity
      (sumn (S m) (fun j => sumn (S m) (fun i =>
         mul (mul (mul (f 0 (S j)) (pow_neg1 (S j)))
                  (mul (f (S i) 0) (pow_neg1 i))) (D i j)))).
    { apply sumn_ext. intros j _. rewrite Hrow, sumn_mul.
      apply sumn_ext. intros i _. ring. }
    rewrite sumn_swap. apply sumn_ext. intros i _.
    rewrite Hcol, sumn_mul. apply sumn_ext. intros j _.
    rewrite !pow_neg1_S. ring.
Qed.

(** Transposing the entries does not change the expansion. *)
Lemma detF_transpose n : ∀ f, detF n (fun i j => f j i) = detF n f.
Proof.
  induction n as [|n IH]; intros f; [done|].
  rewrite (detF_first_column n f). cbn [detF].
  apply sumn_ext. intros j _. f_equal.
  apply (IH (fun r c => f (skip j r) (S c))).
Qed.

(** *** The source's determinant computes the expansion *)

Lemma mget_minor (matrix : Matrix num) j r c :
  mget (minor matrix j) r c = mget matrix (S r) (skip j c).
Proof.
  unfold mget, minor, vget.
  rewrite list_lookup_fmap, lookup_tail.
  destruct (matrix !! S r) as [row|]; simpl; [|done].
  unfold skip. destruct (c <? j) eqn:Hc.
  - apply Nat.ltb_lt in Hc. by rewrite list_lookup_delete_lt.
  - apply Nat.ltb_ge in Hc. by rewrite list_lookup_delete_ge.
Qed.

Lemma det_loop n (r : nat → result num) (d t : nat → num) :
  (∀ i, i < n → r i = Ok (d i)) →
  for_range 0 n
    (fun i acc => let* det := acc in let* x := r i in
                  Ok (add det (mul (t i) x)))
    (Ok zero)
  = Ok (sumn n (fun i => mul (t i) (d i))).
Proof.
  induction n as [|n IH]; intros Hr; [done|].
  rewrite for_range_snoc by lia.
  rewrite IH by (intros i Hi; apply Hr; lia).
  rewrite Hr by lia. reflexivity.
Qed.

Lemma det_fuel_detF fuel : ∀ n (matrix : Matrix num),
  0 < n → n ≤ fuel + 2 → dims n n matrix →
  det_fuel fuel matrix = Ok (detF n (mget matrix)).
Proof.
  induction fuel as [|fuel IH]; intros n matrix Hpos Hfuel Hd;
    destruct (dims_inv_pos _ _ _ Hpos Hd) as (row0 & rest & -> & Hrow0 & Hrest);
    pose proof Hd as [Hlen _]; simpl in Hlen; simpl det_fuel;
    rewrite Hrow0, <- Hlen, Nat.eqb_refl; cbn [negb].
  - destruct (length rest) as [|[|k]] eqn:Hk; [| |lia]; subst n;
      cbn; f_equal; ring.
  - destruct (length rest) as [|[|k]] eqn:Hk; subst n;
      [cbn; f_equal; ring..|].
    cbn [Nat.eqb].
    rewrite (det_loop _ _ (fun i => detF (S (S k)) (mget (minor (row0 :: rest) i)))).
    + f_equal. symmetry. rewrite detF_S. apply sumn_ext. intros j _. f_equal.
      apply detF_ext. intros r c. by rewrite mget_minor.
    + intros i Hi. apply IH; [lia|lia|].
      apply dims_minor; [|done]. by rewrite Hlen.
Qed.

Lemma determinant_detF n (matrix : Matrix num) :
  0 < n → dims n n matrix → determinant matrix = Ok (detF n (mget matrix)).
Proof.
  intros Hpos Hd. unfold determinant. destruct Hd as [Hl Hall].
  apply det_fuel_detF; [done|lia|done].
Qed.

(** *** The source's transpose swaps the entries *)

Lemma transpose_dims n (matrix : Matrix num) :
  0 < n → dims n n matrix →
  ∃ T, transpose matrix = Ok T ∧ dims n n T ∧
       ∀ i j, mget T i j = mget matrix j i.
Proof.
  intros Hpos Hd.
  destruct (dims_inv_pos _ _ _ Hpos Hd) as (row0 & rest & -> & Hrow0 & _).
  eexists. split; [reflexivity|]. rewrite Hrow0.
  set (matrix := row0 :: rest) in *. clearbody matrix.
  destruct Hd as [Hlen Hall]. split.
  - split; [by rewrite length_map, length_seq|].
    apply Forall_map, Forall_forall. intros c _. simpl.
    by rewrite length_map.
  - intros i j. unfold mget at 1. rewrite list_lookup_fmap.
    destruct (decide (i < n)) as [Hi|Hi].
    + rewrite lookup_seq_lt by done. simpl. unfold vget at 1.
      rewrite list_lookup_fmap. unfold mget.
      by destruct (matrix !! j).
    + rewrite lookup_seq_ge by lia. simpl. unfold mget, vget.
      destruct (matrix !! j) as [row|] eqn:Hj; simpl; [|done].
      rewrite Forall_forall in Hall.
      assert (length row = n) as Hrow
        by (apply Hall; eapply list_elem_of_In, list_elem_of_lookup_2; done).
      by rewrite (lookup_ge_None_2 row i) by lia.
Qed.

(** C10: in a commutative ring, for every square matrix [A] (with at
    least one row) the transpose is defined and the first-row cofactor
    expansion gives the same determinant for [A] and its transpose. *)
Theorem determinant_transpose n (A : Matrix num) :
  0 < n → dims n n A →
  ∃ T d, transpose A = Ok T ∧ determinant T = Ok d ∧ determinant A = Ok d.
Proof.
  intros Hpos Hd.
  destruct (transpose_dims n A Hpos Hd) as (T & HT & HdT & Hentries).
  exists T, (detF n (mget A)). split; [done|]. split.
  - rewrite (determinant_detF n T Hpos HdT).
    rewrite (detF_ext n (mget T) (fun i j => mget A j i) Hentries).
    by rewrite detF_transpose.
  - by apply determinant_detF.
Qed.

End DetTranspose.

Lemma determinant_transpose_witness :
  let A := qmat [[2; 1; 3]; [1; 3; 2]; [3; 2; 1]]%Q in
  0 < 3 ∧ dims 3 3 A ∧
  ∃ T d, transpose A = Ok T ∧ determinant T = Ok d ∧ determinant A = Ok d.
Proof.
  cbv zeta.
  assert (dims 3 3 (qmat [[2; 1; 3]; [1; 3; 2]; [3; 2; 1]]%Q)) as Hd
    by (split; [reflexivity | repeat constructor]).
  split; [lia|]. split; [exact Hd|].
  apply (@determinant_transpose Qc Qc_arith Qcrt 3 _ ltac:(lia) Hd).
Defined.

(** ** The store: what the operations read, write and return *)

Section StoreFrame.
Context {num : Type} `{Arith num} `{Trans num}.
Implicit Types (h : heap num) (m l base : nat).

(** *** Computations that only read *)

Lemma reads_ret {A} (a : A) : reads (mret (num:=num) a).
Proof. done. Qed.

Lemma reads_throw {A} e : reads (mthrow (num:=num) (A:=A) e).
Proof. done. Qed.

Lemma reads_lift {A} (r : result A) : reads (lift (num:=num) r).
Proof. done. Qed.

Lemma reads_bind {A B} (c : M num A) (k : A → M num B) :
  reads c → (∀ a, reads (k a)) → reads (mbind c k).
Proof.
  intros Hc Hk h. unfold mbind. specialize (Hc h).
  destruct (c h) as [[a|e] h1]; simpl in *; subst; [apply Hk|done].
Qed.

Lemma reads_load_nums l : reads (load_nums (num:=num) l).
Proof. intros h. unfold load_nums. by destruct (h !! l) as [[]|]. Qed.

Lemma reads_load_refs l : reads (load_refs (num:=num) l).
Proof. intros h. unfold load_refs. by destruct (h !! l) as [[]|]. Qed.

Lemma reads_read_row r : reads (read_row (num:=num) r).
Proof. destruct r; [apply reads_load_nums|apply reads_throw]. Qed.

Lemma reads_map_m {A B} (f : A → M num B) (xs : list A) :
  (∀ x, reads (f x)) → reads (map_m f xs).
Proof.
  intros Hf. induction xs as [|x xs IH]; simpl; [apply reads_ret|].
  apply reads_bind; [done|]. intros y.
  apply reads_bind; [done|]. intros ys. apply reads_ret.
Qed.

Lemma reads_read_matrix m : reads (read_matrix (num:=num) m).
Proof.
  apply reads_bind; [apply reads_load_refs|]. intros rows.
  apply reads_map_m, reads_read_row.
Qed.

Lemma reads_get_cell m i j : reads (get_cell m i j).
Proof.
  apply reads_bind; [apply reads_load_refs|]. intros rows.
  apply reads_bind; [apply reads_read_row|]. intros cells. apply reads_ret.
Qed.

Lemma reads_find_pivot_h m start rows col :
  reads (find_pivot_h m start rows col).
Proof.
  apply reads_bind; [apply reads_read_matrix|]. intros v. apply reads_ret.
Qed.

Lemma reads_shape_h m : reads (shape_h (num:=num) m).
Proof.
  apply reads_bind; [apply reads_load_refs|]. intros rows.
  apply reads_bind; [apply reads_read_row|]. intros cells. apply reads_ret.
Qed.

(** *** Computations under which the store grows *)

Lemma reads_grows {A} (c : M num A) : reads c → grows c.
Proof. intros Hc h. by rewrite Hc. Qed.

Lemma grows_bind {A B} (c : M num A) (k : A → M num B) :
  grows c → (∀ a, grows (k a)) → grows (mbind c k).
Proof.
  intros Hc Hk h. unfold mbind. specialize (Hc h).
  destruct (c h) as [[a|e] h1]; simpl in *; [|done].
  etransitivity; [exact Hc|apply Hk].
Qed.

Lemma grows_alloc o : grows (alloc (num:=num) o).
Proof. intros h. simpl. by apply prefix_app_r. Qed.

Lemma grows_map_m {A B} (f : A → M num B) (xs : list A) :
  (∀ x, grows (f x)) → grows (map_m f xs).
Proof.
  intros Hf. induction xs as [|x xs IH]; simpl; [by apply reads_grows|].
  apply grows_bind; [done|]. intros y.
  apply grows_bind; [done|]. intros ys. by apply reads_grows.
Qed.

Lemma grows_new_matrix v : grows (new_matrix (num:=num) v).
Proof.
  apply grows_bind; [apply grows_map_m; intros; apply grows_alloc|].
  intros rows. apply grows_alloc.
Qed.

Lemma grows_for_s {St} lo hi (body : nat → St → M num St) s :
  (∀ i s', grows (body i s')) → grows (for_s lo hi body s).
Proof.
  intros Hb. unfold for_s.
  destruct (decide (lo ≤ hi)); [|by rewrite for_range_ge by lia; apply reads_grows].
  apply (for_range_inv (fun _ acc => grows acc)); [done|by apply reads_grows|].
  intros i acc _ Hacc. by apply grows_bind.
Qed.

(** *** What allocation returns *)

Lemma owned_weaken base base' h m :
  base' ≤ base → owned base h m → owned base' h m.
Proof.
  intros Hle (Hm & rows & Hrows & Hall). split; [lia|].
  exists rows. split; [done|]. eapply Forall_impl; [|exact Hall].
  intros [l|]; [|done]. intros [Hl Hc]. split; [lia|done].
Qed.

Lemma alloc_rows_run (v : Matrix num) : ∀ h,
  map_m (fun cells => alloc (Nums cells)) v h
  = (Ok (seq (length h) (length v)), h ++ (Nums <$> v)).
Proof.
  induction v as [|row v IH]; intros h; simpl.
  - by rewrite app_nil_r.
  - unfold mbind at 1. simpl. unfold mbind at 1. rewrite IH. simpl.
    rewrite length_app. simpl. rewrite <- app_assoc. simpl.
    by replace (length h + 1) with (S (length h)) by lia.
Qed.

Lemma new_matrix_run (v : Matrix num) h :
  new_matrix v h
  = (Ok (length h + length v),
     h ++ (Nums <$> v) ++ [Refs (Some <$> seq (length h) (length v))]).
Proof.
  unfold new_matrix, mbind. rewrite alloc_rows_run. unfold alloc.
  by rewrite length_app, length_fmap, <- app_assoc.
Qed.

Lemma fresh_new_matrix v : fresh_matrix (new_matrix (num:=num) v).
Proof.
  intros h m. rewrite new_matrix_run. simpl. intros [= <-]. split; [lia|].
  exists (Some <$> seq (length h) (length v)). split.
  - rewrite lookup_app_r by lia. rewrite lookup_app_r by (rewrite length_fmap; lia).
    rewrite length_fmap.
    by replace (length h + length v - length h - length v) with 0 by lia.
  - apply Forall_fmap, Forall_forall. intros l Hl%in_seq. simpl.
    split; [lia|].
    destruct (lookup_lt_is_Some_2 v (l - length h) ltac:(lia)) as [cells Hc].
    exists cells. rewrite lookup_app_r by lia.
    rewrite lookup_app_l by (rewrite length_fmap; lia).
    by rewrite list_lookup_fmap, Hc.
Qed.

Lemma fresh_bind {A} (c : M num A) (k : A → M num loc) :
  grows c → (∀ a, fresh_matrix (k a)) → fresh_matrix (mbind c k).
Proof.
  intros Hc Hk h m. unfold mbind. specialize (Hc h).
  destruct (c h) as [[a|e] h1] eqn:Hch; simpl in *; [|done].
  intros Hm. eapply owned_weaken; [|by apply Hk].
  by apply prefix_length.
Qed.

Lemma fresh_throw e : fresh_matrix (mthrow (num:=num) e).
Proof. by intros h m. Qed.

End StoreFrame.

(** *** Writes into a matrix that the operation allocated itself *)

Section StoreMutation.
Context {num : Type} `{Arith num} `{Trans num}.
Implicit Types (h : heap num) (m l base : nat).

Lemma keeps_reads {A} base m (c : M num A) : reads c → keeps base m c.
Proof. intros Hc h Ho. by rewrite Hc. Qed.

Lemma keeps_bind {A B} base m (c : M num A) (k : A → M num B) :
  keeps base m c → (∀ a, keeps base m (k a)) → keeps base m (mbind c k).
Proof.
  intros Hc Hk h Ho. unfold mbind. destruct (Hc h Ho) as [Ho1 Ht1].
  destruct (c h) as [[a|e] h1]; simpl in *; [|done].
  destruct (Hk a h1 Ho1) as [Ho2 Ht2]. split; [done|congruence].
Qed.

Lemma keeps_for_m base m lo hi (body : nat → M num unit) :
  (∀ i, keeps base m (body i)) → keeps base m (for_m lo hi body).
Proof.
  intros Hb. unfold for_m.
  destruct (decide (lo ≤ hi));
    [|by rewrite for_range_ge by lia; apply keeps_reads].
  apply (for_range_inv (fun _ acc => keeps base m acc));
    [done|by apply keeps_reads|].
  intros i acc _ Hacc. by apply keeps_bind.
Qed.

Lemma keeps_for_s {St} base m lo hi (body : nat → St → M num St) s :
  (∀ i s', keeps base m (body i s')) → keeps base m (for_s lo hi body s).
Proof.
  intros Hb. unfold for_s.
  destruct (decide (lo ≤ hi));
    [|by rewrite for_range_ge by lia; apply keeps_reads].
  apply (for_range_inv (fun _ acc => keeps base m acc));
    [done|by apply keeps_reads|].
  intros i acc _ Hacc. by apply keeps_bind.
Qed.

(** A cell write goes to a row of the matrix, which the matrix owns. *)
Lemma keeps_set_cell base m i j (x : num) : keeps base m (set_cell m i j x).
Proof.
  intros h (Hm & rows & Hrows & Hall).
  unfold set_cell, mbind, load_refs. rewrite Hrows.
  destruct (rows !! i) as [[r|]|] eqn:Hi; simpl;
    try (split; [split; eauto|done]).
  destruct (Forall_lookup_1 _ _ _ _ Hall Hi) as [Hr [cells Hc]].
  unfold load_nums. rewrite Hc. unfold store. simpl.
  split; [|by apply take_insert_ge].
  split; [done|]. exists rows. split.
  - rewrite list_lookup_insert_ne; [done|]. intros ->. congruence.
  - eapply Forall_impl; [|exact Hall].
    intros [l|]; [|done]. intros [Hl [cs Hcs]]. split; [done|].
    destruct (decide (l = r)) as [->|Hne].
    + eexists. apply list_lookup_insert_eq. by eapply lookup_lt_Some.
    + exists cs. by rewrite list_lookup_insert_ne.
Qed.

Lemma Forall_js_set {A} (P : A → Prop) hole (xs : list A) j x :
  Forall P xs → P hole → P x → Forall P (js_set hole xs j x).
Proof.
  intros Hxs Hhole Hx. unfold js_set. apply Forall_insert; [|done].
  apply Forall_app. split; [done|]. by apply Forall_replicate.
Qed.

(** A row swap rewrites the outer array with rows it already holds. *)
Lemma keeps_swap_rows_h base m i j :
  keeps base m (swap_rows_h (num:=num) m i j).
Proof.
  intros h (Hm & rows & Hrows & Hall).
  unfold swap_rows_h, mbind, load_refs. rewrite Hrows. unfold store. simpl.
  split; [|by apply take_insert_ge].
  set (rows' := js_set None _ j _).
  split; [done|]. exists rows'. split.
  - apply list_lookup_insert_eq. by eapply lookup_lt_Some.
  - set (P := fun r : option nat =>
                match r with
                | Some l => base ≤ l ∧
                    ∃ cells, <[m := Refs rows']> h !! l = Some (Nums cells)
                | None => True
                end).
    assert (Forall P rows) as Hall'.
    { eapply Forall_impl; [|exact Hall].
      intros [l|]; [|done]. intros [Hl [cs Hcs]]. split; [done|].
      exists cs. rewrite list_lookup_insert_ne; [done|]. intros ->. congruence. }
    assert (∀ k, P (mjoin (rows !! k))) as Hk.
    { intros k. destruct (rows !! k) as [[l|]|] eqn:Hl; simpl; try done.
      apply (Forall_lookup_1 _ _ _ _ Hall' Hl). }
    subst rows'. apply Forall_js_set; [|done|apply Hk].
    apply Forall_js_set; [done|done|apply Hk].
Qed.

Lemma keeps_scale_row_h base m r cols (pivot : num) :
  keeps base m (scale_row_h m r cols pivot).
Proof.
  apply keeps_for_m. intros j.
  apply keeps_bind; [apply keeps_reads, reads_get_cell|]. intros x.
  apply keeps_set_cell.
Qed.

Lemma keeps_sub_row_h base m i p cols (factor : num) :
  keeps base m (sub_row_h m i p cols factor).
Proof.
  apply keeps_for_m. intros j.
  apply keeps_bind; [apply keeps_reads, reads_get_cell|]. intros x.
  apply keeps_bind; [apply keeps_reads, reads_get_cell|]. intros y.
  apply keeps_set_cell.
Qed.

Lemma keeps_rref_col_h base m rows cols col pivotRow :
  keeps base m (rref_col_h (num:=num) m rows cols col pivotRow).
Proof.
  unfold rref_col_h.
  destruct (negb (pivotRow <? rows)); [apply keeps_reads, reads_ret|].
  apply keeps_bind; [apply keeps_reads, reads_find_pivot_h|]. intros maxRow.
  apply keeps_bind; [apply keeps_reads, reads_get_cell|]. intros x.
  destruct (ltb (nabs x) tol); [apply keeps_reads, reads_ret|].
  apply keeps_bind; [apply keeps_swap_rows_h|]. intros _.
  apply keeps_bind; [apply keeps_reads, reads_get_cell|]. intros pivot.
  apply keeps_bind; [apply keeps_scale_row_h|]. intros _.
  apply keeps_bind; [|intros _; apply keeps_reads, reads_ret].
  apply keeps_for_m. intros i.
  destruct (negb (i =? pivotRow)); [|apply keeps_reads, reads_ret].
  apply keeps_bind; [apply keeps_reads, reads_get_cell|]. intros y.
  destruct (gtb (nabs y) tol); [apply keeps_sub_row_h|apply keeps_reads, reads_ret].
Qed.

Lemma keeps_gj_col_h base m rows cols i :
  keeps base m (gj_col_h (num:=num) m rows cols i).
Proof.
  unfold gj_col_h.
  apply keeps_bind; [apply keeps_reads, reads_find_pivot_h|]. intros maxRow.
  apply keeps_bind; [apply keeps_swap_rows_h|]. intros _.
  apply keeps_bind; [apply keeps_reads, reads_get_cell|]. intros pivot.
  destruct (ltb (nabs pivot) tol); [apply keeps_reads, reads_ret|].
  apply keeps_bind; [apply keeps_scale_row_h|]. intros _.
  apply keeps_for_m. intros k.
  destruct (negb (k =? i)); [|apply keeps_reads, reads_ret].
  apply keeps_bind; [apply keeps_reads, reads_get_cell|]. intros factor.
  apply keeps_sub_row_h.
Qed.

(** An operation that allocates its result and then writes only into
    it leaves every earlier array as it was and returns a fresh
    matrix. *)
Lemma allocate_then_write (c : M num loc) (rest : loc → M num loc) :
  grows c → fresh_matrix c →
  (∀ base m, keeps base m (rest m)) →
  (∀ m, returns_only m (rest m)) →
  grows (mbind c rest) ∧ fresh_matrix (mbind c rest).
Proof.
  intros Hg Hf Hk Hr.
  assert (∀ h, h `prefix_of` (mbind c rest h).2 ∧
               ∀ m, (mbind c rest h).1 = Ok m →
                    owned (length h) (mbind c rest h).2 m) as Hboth.
  { intros h. unfold mbind. specialize (Hg h). specialize (Hf h).
    destruct (c h) as [[m|e] h1]; simpl in *; [|done].
    specialize (Hf m eq_refl).
    destruct (Hk (length h) m h1 Hf) as [Ho Ht].
    split.
    - destruct Hg as [k ->]. rewrite take_app_length in Ht.
      pose proof (prefix_take (rest m (h ++ k)).2 (length h)) as Hp.
      by rewrite Ht in Hp.
    - intros m' Hm'. by rewrite (Hr m h1 m' Hm'). }
  split; intros h; [apply Hboth|]. intros m. apply Hboth.
Qed.

Lemma returns_only_ret m : returns_only m (mret (num:=num) m).
Proof. by intros h r [= <-]. Qed.

Lemma returns_only_bind {A} m (c : M num A) (k : A → M num loc) :
  (∀ a, returns_only m (k a)) → returns_only m (mbind c k).
Proof.
  intros Hk h r. unfold mbind.
  destruct (c h) as [[a|e] h1]; simpl; [apply Hk|done].
Qed.

End StoreMutation.

(** *** The core operations *)

Section StoreOperations.
Context {num : Type} `{Arith num} `{Trans num}.
Implicit Types (h : heap num) (m l base : nat).

Ltac reads_tac :=
  repeat first
    [ apply reads_ret | apply reads_throw | apply reads_lift
    | apply reads_load_nums | apply reads_load_refs | apply reads_read_row
    | apply reads_read_matrix | apply reads_get_cell
    | apply reads_find_pivot_h | apply reads_shape_h
    | (apply reads_bind; [|intros ?]) ].

Lemma frames_new_matrix v : frames (new_matrix (num:=num) v).
Proof. split; [apply grows_new_matrix|apply fresh_new_matrix]. Qed.

Lemma frames_throw e : frames (mthrow (num:=num) e).
Proof. split; [apply reads_grows, reads_throw|apply fresh_throw]. Qed.

Lemma frames_bind {A} (c : M num A) (k : A → M num loc) :
  grows c → (∀ a, frames (k a)) → frames (mbind c k).
Proof.
  intros Hc Hk. split.
  - apply grows_bind; [done|]. intros a. apply Hk.
  - apply fresh_bind; [done|]. intros a. apply Hk.
Qed.

Lemma frames_read {A} (c : M num A) (k : A → M num loc) :
  reads c → (∀ a, frames (k a)) → frames (mbind c k).
Proof. intros Hc. apply frames_bind. by apply reads_grows. Qed.

Lemma frames_lift {A} (r : result A) (k : A → M num loc) :
  (∀ a, frames (k a)) → frames (mbind (lift r) k).
Proof. apply frames_read, reads_lift. Qed.

Lemma frames_addMatrices_h a b : frames (addMatrices_h a b).
Proof.
  apply frames_read; [reads_tac|]. intros va.
  apply frames_read; [reads_tac|]. intros vb.
  apply frames_lift. intros r. apply frames_new_matrix.
Qed.

Lemma frames_subtractMatrices_h a b : frames (subtractMatrices_h a b).
Proof.
  apply frames_read; [reads_tac|]. intros va.
  apply frames_read; [reads_tac|]. intros vb.
  apply frames_lift. intros r. apply frames_new_matrix.
Qed.

Lemma frames_scalarMultiply_h a (x : num) : frames (scalarMultiply_h a x).
Proof. apply frames_read; [reads_tac|]. intros v. apply frames_new_matrix. Qed.

Lemma frames_transpose_h a : frames (transpose_h a).
Proof.
  apply frames_read; [reads_tac|]. intros v.
  apply frames_lift. intros r. apply frames_new_matrix.
Qed.

Lemma reads_determinant_h a : reads (determinant_h a).
Proof. unfold determinant_h. reads_tac. Qed.

Lemma frames_copy_matrix a : frames (copy_matrix (num:=num) a).
Proof. apply frames_read; [reads_tac|]. intros v. apply frames_new_matrix. Qed.

Lemma frames_multiplyMatrices_h a b : frames (multiplyMatrices_h a b).
Proof.
  apply frames_read; [reads_tac|]. intros va.
  apply frames_read; [reads_tac|]. intros vb.
  destruct va as [|a0 va']; [apply frames_throw|].
  destruct (negb _); [apply frames_throw|].
  destruct vb as [|b0 vb']; [apply frames_throw|].
  apply allocate_then_write.
  - apply grows_new_matrix.
  - apply fresh_new_matrix.
  - intros base m. apply keeps_bind; [|intros _; apply keeps_reads, reads_ret].
    apply keeps_for_m. intros i. apply keeps_for_m. intros j.
    apply keeps_for_m. intros k.
    apply keeps_bind; [apply keeps_reads, reads_get_cell|]. intros acc.
    apply keeps_bind; [apply keeps_reads, reads_get_cell|]. intros x.
    apply keeps_bind; [apply keeps_reads, reads_get_cell|]. intros y.
    apply keeps_set_cell.
  - intros m. apply returns_only_bind. intros _. apply returns_only_ret.
Qed.

Lemma frames_rref_h a : frames (rref_h a).
Proof.
  apply allocate_then_write.
  - apply frames_copy_matrix.
  - apply frames_copy_matrix.
  - intros base m. apply keeps_bind; [apply keeps_reads, reads_shape_h|].
    intros [rows cols].
    apply keeps_bind; [|intros _; apply keeps_reads, reads_ret].
    apply keeps_for_s. intros col pivotRow. apply keeps_rref_col_h.
  - intros m. apply returns_only_bind. intros [rows cols].
    apply returns_only_bind. intros _. apply returns_only_ret.
Qed.

Lemma frames_gaussJordan_h a : frames (gaussJordan_h a).
Proof.
  apply allocate_then_write.
  - apply frames_copy_matrix.
  - apply frames_copy_matrix.
  - intros base m. apply keeps_bind; [apply keeps_reads, reads_shape_h|].
    intros [rows cols].
    apply keeps_bind; [|intros _; apply keeps_reads, reads_ret].
    apply keeps_for_m. intros i. apply keeps_gj_col_h.
  - intros m. apply returns_only_bind. intros [rows cols].
    apply returns_only_bind. intros _. apply returns_only_ret.
Qed.

Lemma frames_inverse_h a : frames (inverse_h a).
Proof.
  apply frames_read; [reads_tac|]. intros v.
  destruct v as [|row0 v']; [apply frames_throw|]. cbv zeta.
  destruct (negb (length (row0 :: v') =? length row0)); [apply frames_throw|].
  apply frames_read; [apply reads_determinant_h|]. intros det.
  destruct (ltb (nabs det) tol); [apply frames_throw|].
  destruct (length (row0 :: v') =? 2); [apply frames_new_matrix|].
  apply frames_bind; [apply grows_new_matrix|]. intros augmented.
  apply frames_bind; [apply frames_gaussJordan_h|]. intros gj.
  apply frames_read; [reads_tac|]. intros w. apply frames_new_matrix.
Qed.

Lemma grows_rank_h a : grows (rank_h a).
Proof.
  apply grows_bind; [apply frames_rref_h|]. intros r.
  apply reads_grows. reads_tac.
Qed.

Lemma grows_matrixPower_h a p : grows (matrixPower_h a p).
Proof.
  unfold matrixPower_h. destruct (p =? 0)%Z.
  - apply grows_bind; [apply reads_grows, reads_load_refs|]. intros rows.
    apply allocate_then_write.
    + apply grows_new_matrix.
    + apply fresh_new_matrix.
    + intros base m. apply keeps_bind; [|intros _; apply keeps_reads, reads_ret].
      apply keeps_for_m. intros i. apply keeps_set_cell.
    + intros m. apply returns_only_bind. intros _. apply returns_only_ret.
  - destruct (p =? 1)%Z; [apply reads_grows, reads_ret|].
    apply grows_for_s. intros i r. apply frames_multiplyMatrices_h.
Qed.

(** Exponent 0, or at least 2: the result is a fresh matrix. *)
Lemma fresh_matrixPower_h a p :
  (p =? 1)%Z || (p <? 0)%Z = false → fresh_matrix (matrixPower_h a p).
Proof.
  intros Hp. unfold matrixPower_h. destruct (p =? 0)%Z eqn:H0z.
  - apply fresh_bind; [apply reads_grows, reads_load_refs|]. intros rows.
    apply allocate_then_write.
    + apply grows_new_matrix.
    + apply fresh_new_matrix.
    + intros base m. apply keeps_bind; [|intros _; apply keeps_reads, reads_ret].
      apply keeps_for_m. intros i. apply keeps_set_cell.
    + intros m. apply returns_only_bind. intros _. apply returns_only_ret.
  - destruct (p =? 1)%Z eqn:H1z; [done|].
    assert (2 ≤ p)%Z as Hge by lia.
    replace (Z.to_nat p) with (S (Z.to_nat p - 1)) by lia.
    unfold for_s. rewrite for_range_snoc by lia.
    apply fresh_bind; [|intros r; apply frames_multiplyMatrices_h].
    apply (grows_for_s 1 (Z.to_nat p - 1)
             (fun _ result => multiplyMatrices_h result a) a).
    intros i r. apply frames_multiplyMatrices_h.
Qed.

(** Exponent 1, or negative: the argument itself is returned. *)
Lemma matrixPower_h_argument a p h :
  (p =? 1)%Z || (p <? 0)%Z = true → matrixPower_h a p h = (Ok a, h).
Proof.
  intros Hp. unfold matrixPower_h.
  destruct (p =? 0)%Z eqn:H0z; [lia|].
  destruct (p =? 1)%Z eqn:H1z; [done|].
  unfold for_s. rewrite for_range_ge by lia. done.
Qed.

(** What was readable before a computation under which the store only
    grows reads the same afterwards. *)
Lemma load_nums_prefix l h h' v :
  h `prefix_of` h' → (load_nums l h).1 = Ok v → (load_nums l h').1 = Ok v.
Proof.
  intros Hp. unfold load_nums.
  destruct (h !! l) as [[cells|rows]|] eqn:Hl; simpl; try done.
  by rewrite (prefix_lookup_Some _ _ _ _ Hl Hp).
Qed.

Lemma read_rows_prefix rows : ∀ h h' (v : Matrix num),
  h `prefix_of` h' →
  (map_m read_row rows h).1 = Ok v → (map_m read_row rows h').1 = Ok v.
Proof.
  induction rows as [|r rows IH]; intros h h' v Hp; simpl; [done|].
  unfold mbind at 1 3.
  pose proof (reads_read_row r h) as Hh. pose proof (reads_read_row r h') as Hh'.
  destruct (read_row r h) as [[cells|e] h1] eqn:Er; simpl in Hh; subst h1;
    [|done].
  assert ((read_row r h').1 = Ok cells) as Er'.
  { destruct r as [l|]; [|done]. simpl in *.
    apply (load_nums_prefix l h h' cells Hp). by rewrite Er. }
  destruct (read_row r h') as [[cells'|e'] h1'] eqn:Er2; simpl in *;
    subst h1'; [|done].
  injection Er' as ->.
  unfold mbind.
  pose proof (reads_map_m read_row rows reads_read_row h) as Hm.
  pose proof (reads_map_m read_row rows reads_read_row h') as Hm'.
  destruct (map_m read_row rows h) as [[w|e] h2] eqn:Ew; simpl in Hm; subst h2;
    [|done].
  simpl. intros [= <-].
  specialize (IH h h' w Hp). rewrite Ew in IH. specialize (IH eq_refl).
  destruct (map_m read_row rows h') as [[w'|e'] h2'] eqn:Ew'; simpl in *;
    [|done].
  by injection IH as ->.
Qed.

Lemma read_matrix_prefix a h h' (v : Matrix num) :
  h `prefix_of` h' →
  (read_matrix a h).1 = Ok v → (read_matrix a h').1 = Ok v.
Proof.
  intros Hp. unfold read_matrix, mbind, load_refs.
  destruct (h !! a) as [[cells|rows]|] eqn:Ha; simpl; try done.
  rewrite (prefix_lookup_Some _ _ _ _ Ha Hp). by apply read_rows_prefix.
Qed.

Lemma run_wrap {A B} (c : M num A) (f : A → B) h :
  mbind c (fun a => mret (f a)) h
  = (match (c h).1 with Ok a => Ok (f a) | Throw e => Throw e end, (c h).2).
Proof. unfold mbind. by destruct (c h) as [[a|e] h1]. Qed.

Lemma grows_run_call c : grows (run_call c).
Proof.
  destruct c; simpl; (apply grows_bind; [|intros ?; apply reads_grows, reads_ret]).
  - apply frames_addMatrices_h.
  - apply frames_subtractMatrices_h.
  - apply frames_scalarMultiply_h.
  - apply frames_multiplyMatrices_h.
  - apply frames_transpose_h.
  - apply reads_grows, reads_determinant_h.
  - apply frames_inverse_h.
  - apply frames_rref_h.
  - apply grows_rank_h.
  - apply grows_matrixPower_h.
  - apply reads_grows. unfold dotProduct_h. reads_tac.
  - unfold crossProduct_h.
    apply grows_bind; [apply reads_grows, reads_load_nums|]. intros va.
    apply grows_bind; [apply reads_grows, reads_load_nums|]. intros vb.
    apply grows_bind; [apply reads_grows, reads_lift|]. intros r.
    apply grows_alloc.
  - apply reads_grows. unfold vectorMagnitude_h. reads_tac.
  - unfold normalizeVector_h.
    apply grows_bind; [apply reads_grows, reads_load_nums|]. intros v.
    apply grows_bind; [apply reads_grows, reads_lift|]. intros r.
    apply grows_alloc.
  - apply reads_grows. unfold angleBetweenVectors_h. reads_tac.
Qed.

(** C8 (amended): a call of any core operation changes no array that
    exists when it starts: the store afterwards extends the store before,
    so every matrix and vector that could be read before reads the same
    afterwards.  A returned matrix consists of arrays allocated during
    the call, except for [matrixPower] with exponent 1 (or a negative
    exponent), which returns its argument. *)
Theorem core_operations_frame (c : call) (h : heap num) :
  h `prefix_of` (run_call c h).2 ∧
  (∀ a v, (read_matrix a h).1 = Ok v → (read_matrix a (run_call c h).2).1 = Ok v) ∧
  (∀ a v, (load_nums a h).1 = Ok v → (load_nums a (run_call c h).2).1 = Ok v) ∧
  (∀ m, (run_call c h).1 = Ok (VMatrix m) →
        if returns_argument c then ∃ p, c = CallMatrixPower m p
        else owned (length h) (run_call c h).2 m).
Proof.
  pose proof (grows_run_call c h) as Hg.
  split; [done|]. split; [intros a v; by apply read_matrix_prefix|].
  split; [intros a v; by apply load_nums_prefix|].
  intros m.
  destruct c; simpl; rewrite run_wrap; simpl;
    try (destruct (_ h).1; simpl; done).
  - intros Hm. apply frames_addMatrices_h.
    by destruct (addMatrices_h a b h).1 as [m'|]; simplify_eq.
  - intros Hm. apply frames_subtractMatrices_h.
    by destruct (subtractMatrices_h a b h).1 as [m'|]; simplify_eq.
  - intros Hm. apply frames_scalarMultiply_h.
    by destruct (scalarMultiply_h matrix scalar h).1 as [m'|]; simplify_eq.
  - intros Hm. apply frames_multiplyMatrices_h.
    by destruct (multiplyMatrices_h a b h).1 as [m'|]; simplify_eq.
  - intros Hm. apply frames_transpose_h.
    by destruct (transpose_h matrix h).1 as [m'|]; simplify_eq.
  - intros Hm. apply frames_inverse_h.
    by destruct (inverse_h matrix h).1 as [m'|]; simplify_eq.
  - intros Hm. apply frames_rref_h.
    by destruct (rref_h matrix h).1 as [m'|]; simplify_eq.
  - destruct ((power =? 1)%Z || (power <? 0)%Z) eqn:Hp.
    + rewrite matrixPower_h_argument by done. simpl. intros [= <-]. eauto.
    + intros Hm. apply fresh_matrixPower_h; [done|].
      by destruct (matrixPower_h A power h).1 as [m'|]; simplify_eq.
Qed.

End StoreOperations.

(** C8 (counterexample): in a store holding the matrix [[1, 2], [3, 4]]
    at location 2, the power with exponent 1 returns location 2, the
    argument itself, and allocates nothing.  (The store is one of
    doubles; the function standing for [Math.acos] plays no part.) *)
Lemma matrixPower_returns_argument :
  let h := [Nums [1; 2]%float; Nums [3; 4]%float; Refs [Some 0; Some 1]] in
  @run_call float float_arith (float_trans (fun x => x))
    (CallMatrixPower 2 1) h
  = (Ok (VMatrix 2), h) ∧
  ¬ owned (length h) h 2.
Proof.
  cbv zeta. split; [reflexivity|]. intros [Hm _]. simpl in Hm. lia.
Qed.

(** ** The same runs in double arithmetic

    Where a run above is evaluated over the rationals, the same input
    takes the same branches over IEEE doubles. *)

Lemma double_run_solver :
  solveByRREF [[1]; [5e-11]]%float [20; 1e-9]%float
  = Ok (mkSolution unique (Some [0%float]) None).
Proof. vm_compute. reflexivity. Qed.

Lemma double_run_inverse :
  let A := [[1e-11; 0; 0]; [0; 1e11; 0]; [0; 0; 1]]%float in
  ∃ det inv product,
    determinant A = Ok det ∧ ltb (nabs det) tol = false ∧
    gj_skipped (augment_identity A) = [0] ∧
    inverse A = Ok inv ∧
    multiplyMatrices A inv = Ok product ∧
    ltb 1e-8%float (nabs (sub (mget product 0 0) one)) = true.
Proof.
  cbv zeta. do 3 eexists. split; [vm_compute; reflexivity|].
  split; [vm_compute; reflexivity|]. split; [vm_compute; reflexivity|].
  split; [vm_compute; reflexivity|]. split; vm_compute; reflexivity.
Qed.

Lemma double_run_rref :
  ∃ once twice,
    rref [[1; 2]; [5e-11; 1]]%float = Ok once ∧
    rref once = Ok twice ∧
    mget once 0 0 = 0.99999999989999999%float ∧
    mget twice 0 0 = 1%float.
Proof.
  do 2 eexists. split; [vm_compute; reflexivity|].
  split; [vm_compute; reflexivity|]. split; vm_compute; reflexivity.
Qed.

Lemma double_run_trace :
  let A := [[1; 1e12]; [0; 1.00000000005]]%float in
  generateGaussianSteps A
  = Ok [mkStep 0 StartingMatrix A None;
        mkStep 1 (Eliminate 0 1 1e12%float) [[1; -50]; [0; 1.00000000005]]%float
          (Some (mkHighlight (Some 0) (Some 1)));
        mkStep 2 RREFComplete [[1; -50]; [0; 1.00000000005]]%float None] ∧
  rref A = Ok [[1; 0]; [0; 1]]%float.
Proof. cbv zeta. split; vm_compute; reflexivity. Qed.

(** The operations on the store compute what the operations on values
    compute: on a store holding the matrix [[2,1,3],[1,3,2],[3,2,1]] at
    location 3, the contents of the returned matrix are the matrix
    returned by the function on values, and the first four objects of the
    store are as before. *)
Lemma store_run_agrees :
  let A := [[2; 1; 3]; [1; 3; 2]; [3; 2; 1]]%float in
  let h := (Nums <$> A) ++ [Refs [Some 0; Some 1; Some 2]] in
  let contents (c : M float nat) :=
    match c h with
    | (Ok m, h') => (read_matrix m h').1
    | (Throw e, _) => Throw e
    end in
  contents (rref_h 3) = rref A ∧
  contents (multiplyMatrices_h 3 3) = multiplyMatrices A A ∧
  contents (inverse_h 3) = inverse A ∧
  contents (matrixPower_h 3 0) = matrixPower A 0 ∧
  contents (matrixPower_h 3 3) = matrixPower A 3 ∧
  take 4 (inverse_h 3 h).2 = h.
Proof. cbv zeta. repeat split; vm_compute; reflexivity. Qed.

(** Whatever stands for [Math.acos]: a vector whose squares underflow is
    refused; and for [[1, 1, 1]] against itself the quotient is
    [1.0000000000000002], which the clamp cuts to 1. *)
Lemma double_run_angle (acos : float → float) :
  let T := float_trans acos in
  angleBetweenVectors [1e-200%float] [1e-200%float]
  = Throw (Error "Cannot calculate angle with zero vector") ∧
  div 3%float
    (mul (vectorMagnitude [1; 1; 1]%float) (vectorMagnitude [1; 1; 1]%float))
  = 1.0000000000000002%float ∧
  angleBetweenVectors [1; 1; 1]%float [1; 1; 1]%float = Ok (acos 1%float).
Proof. cbv zeta. repeat split. Qed.

(** * Algebra of the operations, and the components around them *)

(** Case analysis on the comparisons of indices in the goal. *)
Ltac nat_cases :=
  repeat match goal with
         | |- context [?a =? ?b] => destruct (Nat.eqb_spec a b)
         | |- context [?a <? ?b] => destruct (Nat.ltb_spec a b)
         | |- context [?a <=? ?b] => destruct (Nat.leb_spec a b)
         end;
  simpl; try done; try lia; try (exfalso; lia).

Section Entries.
Context {num : Type} `{Arith num}.
Implicit Types (A B C : Matrix num) (f g : nat → nat → num).

Lemma dims_tabulate rows cols f : dims rows cols (tabulate rows cols f).
Proof.
  unfold tabulate. split; [by rewrite length_map, length_seq|].
  apply Forall_map, Forall_forall. intros i _. simpl.
  by rewrite length_map, length_seq.
Qed.

Lemma mget_tabulate rows cols f i j :
  i < rows → j < cols → mget (tabulate rows cols f) i j = f i j.
Proof.
  intros Hi Hj. unfold mget, vget, tabulate.
  rewrite list_lookup_fmap, lookup_seq_lt by done. simpl.
  by rewrite list_lookup_fmap, lookup_seq_lt by done.
Qed.

Lemma tabulate_ext rows cols f g :
  (∀ i j, i < rows → j < cols → f i j = g i j) →
  tabulate rows cols f = tabulate rows cols g.
Proof.
  intros Hfg. unfold tabulate. apply map_ext_in. intros i Hi%in_seq.
  apply map_ext_in. intros j Hj%in_seq. apply Hfg; lia.
Qed.

Lemma row_tabulate cols (row : list num) :
  length row = cols → row = map (fun j => vget row j) (seq 0 cols).
Proof.
  intros <-. apply list_eq. intros j. rewrite list_lookup_fmap.
  destruct (decide (j < length row)) as [Hj|Hj].
  - rewrite lookup_seq_lt by done. simpl. unfold vget.
    destruct (lookup_lt_is_Some_2 row j Hj) as [x Hx]. by rewrite Hx.
  - rewrite lookup_seq_ge by lia. simpl. apply lookup_ge_None_2. lia.
Qed.

Lemma dims_tabulate_eq rows cols A :
  dims rows cols A → A = tabulate rows cols (mget A).
Proof.
  intros [Hl Hall]. apply list_eq. intros i. unfold tabulate.
  rewrite list_lookup_fmap.
  destruct (decide (i < rows)) as [Hi|Hi].
  - rewrite lookup_seq_lt by done. simpl.
    destruct (lookup_lt_is_Some_2 A i) as [row Hrow]; [lia|].
    rewrite Hrow. f_equal. unfold mget. rewrite Hrow. simpl.
    apply row_tabulate. rewrite Forall_lookup in Hall. by eapply Hall.
  - rewrite lookup_seq_ge by lia. simpl. apply lookup_ge_None_2. lia.
Qed.

Lemma matrix_ext rows cols A B :
  dims rows cols A → dims rows cols B →
  (∀ i j, i < rows → j < cols → mget A i j = mget B i j) → A = B.
Proof.
  intros HA HB Heq.
  rewrite (dims_tabulate_eq _ _ A HA), (dims_tabulate_eq _ _ B HB).
  by apply tabulate_ext.
Qed.

End Entries.

Section EntriesOfOperations.
Context {num : Type} `{Arith num}.
Implicit Types (A B C : Matrix num) (f g : nat → nat → num).

Lemma dims_length rows cols A : dims rows cols A → length A = rows.
Proof. by intros [? _]. Qed.

Lemma dims_row rows cols A i :
  dims rows cols A → i < rows → length (default [] (A !! i)) = cols.
Proof.
  intros [Hl Hall] Hi. destruct (lookup_lt_is_Some_2 A i) as [row Hrow]; [lia|].
  rewrite Hrow. simpl. rewrite Forall_lookup in Hall. by eapply Hall.
Qed.

(** [M[i][j] = x] on a matrix held as a value. *)
Lemma dims_set_cell rows cols A i j (x : num) :
  dims rows cols A →
  dims rows cols (<[i := <[j := x]> (default [] (A !! i))]> A).
Proof.
  intros [Hl Hall]. split; [by rewrite length_insert|].
  destruct (decide (i < length A)) as [Hi|Hi].
  - apply Forall_insert; [done|]. rewrite length_insert.
    apply (dims_row rows cols A i); [done|lia].
  - by rewrite list_insert_ge by lia.
Qed.

Lemma mget_set_cell rows cols A i j (x : num) a b :
  dims rows cols A → i < rows → j < cols →
  mget (<[i := <[j := x]> (default [] (A !! i))]> A) a b
  = if (a =? i) && (b =? j) then x else mget A a b.
Proof.
  intros Hd Hi Hj. pose proof (dims_row _ _ _ _ Hd Hi) as Hrow.
  destruct Hd as [Hl _]. unfold mget.
  destruct (decide (a = i)) as [->|Hne].
  - rewrite Nat.eqb_refl, list_lookup_insert_eq by lia. simpl. unfold vget.
    destruct (decide (b = j)) as [->|Hnb].
    + by rewrite Nat.eqb_refl, list_lookup_insert_eq by lia.
    + rewrite list_lookup_insert_ne by done.
      by destruct (b =? j) eqn:E; [apply Nat.eqb_eq in E|].
  - rewrite list_lookup_insert_ne by done.
    by destruct (a =? i) eqn:E; [apply Nat.eqb_eq in E|].
Qed.

Lemma tabulate_set_cell rows cols f i j (x : num) :
  i < rows → j < cols →
  <[i := <[j := x]> (default [] (tabulate rows cols f !! i))]> (tabulate rows cols f)
  = tabulate rows cols (fun a b => if (a =? i) && (b =? j) then x else f a b).
Proof.
  intros Hi Hj. apply (matrix_ext rows cols).
  - apply dims_set_cell, dims_tabulate.
  - apply dims_tabulate.
  - intros a b Ha Hb.
    rewrite (mget_set_cell rows cols) by (done || apply dims_tabulate).
    by rewrite !mget_tabulate.
Qed.

(** The loop [acc += g(k)] from 0 is the left-to-right sum. *)
Lemma sum_loop n (g : nat → num) :
  for_range 0 n (fun k acc => add acc (g k)) zero = sumn n g.
Proof.
  induction n as [|n IH]; [done|].
  rewrite for_range_snoc by lia. by rewrite IH.
Qed.

Lemma createMatrix_tabulate rows cols (x : num) :
  createMatrix rows cols x = tabulate rows cols (fun _ _ => x).
Proof.
  unfold createMatrix, tabulate. apply list_eq. intros i.
  rewrite list_lookup_fmap. destruct (decide (i < rows)) as [Hi|Hi].
  - rewrite lookup_replicate_2, lookup_seq_lt by done. simpl. f_equal.
    apply list_eq. intros j. rewrite list_lookup_fmap.
    destruct (decide (j < cols)) as [Hj|Hj].
    + by rewrite lookup_replicate_2, lookup_seq_lt.
    + rewrite lookup_seq_ge by lia. simpl.
      apply lookup_ge_None_2. rewrite length_replicate. lia.
  - rewrite lookup_seq_ge by lia. simpl.
    apply lookup_ge_None_2. rewrite length_replicate. lia.
Qed.

Lemma identity_tabulate n :
  identity n = tabulate n n (fun i j => if i =? j then one else zero).
Proof.
  unfold identity. rewrite createMatrix_tabulate.
  assert (∀ k, k ≤ n →
    for_range 0 k
      (fun i id => <[i := <[i := one]> (default [] (id !! i))]> id)
      (tabulate n n (fun _ _ => zero))
    = tabulate n n (fun i j => if (i =? j) && (i <? k) then one else zero))
    as Hloop.
  { induction k as [|k IH]; intros Hk.
    - rewrite for_range_ge by lia. apply tabulate_ext. intros i j _ _.
      by rewrite andb_false_r.
    - rewrite for_range_snoc, IH by lia.
      rewrite tabulate_set_cell by lia. apply tabulate_ext. intros i j Hi Hj.
      nat_cases. }
  rewrite Hloop by lia. apply tabulate_ext. intros i j Hi Hj.
  nat_cases.
Qed.

Lemma same_dims_ok rows cols rows' cols' A B :
  0 < rows → dims rows cols A → dims rows' cols' B → 0 < rows' →
  same_dims A B = Ok ((rows =? rows') && (cols =? cols')).
Proof.
  intros Hpos HA HB Hpos'.
  destruct (dims_inv_pos _ _ _ Hpos HA) as (a0 & ra & -> & Ha0 & _).
  destruct (dims_inv_pos _ _ _ Hpos' HB) as (b0 & rb & -> & Hb0 & _).
  destruct HA as [HlA _], HB as [HlB _]. unfold same_dims.
  rewrite HlA, HlB, Ha0, Hb0. by destruct (rows =? rows').
Qed.

Lemma imap_tabulate rows cols A (g : nat → nat → num → num) :
  dims rows cols A →
  imap (fun i row => imap (fun j val => g i j val) row) A
  = tabulate rows cols (fun i j => g i j (mget A i j)).
Proof.
  intros Hd. apply list_eq. intros i. unfold tabulate.
  rewrite list_lookup_imap, list_lookup_fmap.
  destruct (decide (i < rows)) as [Hi|Hi].
  - pose proof (dims_row _ _ _ _ Hd Hi) as Hrow. destruct Hd as [Hl _].
    destruct (lookup_lt_is_Some_2 A i) as [row Hr]; [lia|].
    rewrite lookup_seq_lt by done. unfold mget. rewrite Hr in *. simpl in *.
    f_equal. apply list_eq. intros j.
    rewrite list_lookup_imap, list_lookup_fmap.
    destruct (decide (j < cols)) as [Hj|Hj].
    + destruct (lookup_lt_is_Some_2 row j) as [x Hx]; [lia|].
      rewrite lookup_seq_lt by done. unfold vget. simpl.
      rewrite Hr. simpl. by rewrite Hx.
    + rewrite lookup_seq_ge by lia.
      rewrite (lookup_ge_None_2 row j) by lia. done.
  - destruct Hd as [Hl _]. rewrite lookup_seq_ge by lia.
    rewrite (lookup_ge_None_2 A i) by lia. done.
Qed.

Lemma addMatrices_tabulate rows cols A B :
  0 < rows → dims rows cols A → dims rows cols B →
  addMatrices A B
  = Ok (tabulate rows cols (fun i j => add (mget A i j) (mget B i j))).
Proof.
  intros Hpos HA HB. unfold addMatrices.
  rewrite (same_dims_ok rows cols rows cols) by done.
  rewrite !Nat.eqb_refl. simpl. f_equal.
  apply (imap_tabulate rows cols A (fun i j val => add val (mget B i j)) HA).
Qed.

Lemma subtractMatrices_tabulate rows cols A B :
  0 < rows → dims rows cols A → dims rows cols B →
  subtractMatrices A B
  = Ok (tabulate rows cols (fun i j => sub (mget A i j) (mget B i j))).
Proof.
  intros Hpos HA HB. unfold subtractMatrices.
  rewrite (same_dims_ok rows cols rows cols) by done.
  rewrite !Nat.eqb_refl. simpl. f_equal.
  apply (imap_tabulate rows cols A (fun i j val => sub val (mget B i j)) HA).
Qed.

Lemma scalarMultiply_tabulate rows cols A (s : num) :
  dims rows cols A →
  scalarMultiply A s = tabulate rows cols (fun i j => mul (mget A i j) s).
Proof.
  intros HA. unfold scalarMultiply.
  rewrite (dims_tabulate_eq rows cols A HA) at 1. unfold tabulate.
  rewrite map_map. apply map_ext. intros i. by rewrite map_map.
Qed.

Lemma multiplyMatrices_tabulate rows n cols A B :
  0 < rows → 0 < n → dims rows n A → dims n cols B →
  multiplyMatrices A B
  = Ok (tabulate rows cols
          (fun i j => sumn n (fun k => mul (mget A i k) (mget B k j)))).
Proof.
  intros Hpos Hn HA HB.
  destruct (dims_inv_pos _ _ _ Hpos HA) as (a0 & ra & -> & Ha0 & _).
  destruct (dims_inv_pos _ _ _ Hn HB) as (b0 & rb & -> & Hb0 & _).
  pose proof (dims_length _ _ _ HA) as HlA.
  pose proof (dims_length _ _ _ HB) as HlB.
  unfold multiplyMatrices. rewrite Ha0, HlB, Nat.eqb_refl, HlA, Hb0.
  cbn [negb]. f_equal. unfold tabulate.
  apply map_ext. intros i. apply map_ext. intros j. apply sum_loop.
Qed.

Lemma transpose_tabulate rows cols A :
  0 < rows → dims rows cols A →
  transpose A = Ok (tabulate cols rows (fun i j => mget A j i)).
Proof.
  intros Hpos HA.
  destruct (dims_inv_pos _ _ _ Hpos HA) as (a0 & ra & -> & Ha0 & _).
  unfold transpose. rewrite Ha0. f_equal.
  set (M := a0 :: ra) in *. clearbody M. unfold tabulate.
  apply map_ext. intros c.
  rewrite (dims_tabulate_eq rows cols M HA) at 1. unfold tabulate.
  rewrite map_map. apply map_ext_in. intros r Hr%in_seq.
  unfold mget. pose proof (dims_length _ _ _ HA) as Hl.
  destruct (lookup_lt_is_Some_2 M r) as [row Hrow]; [lia|].
  rewrite Hrow. simpl. rewrite <- (row_tabulate cols row); [done|].
  eapply dims_lookup; done.
Qed.

End EntriesOfOperations.

Section Commutative.
Context {num : Type} `{Arith num}.
Hypothesis add_comm : ∀ x y : num, add x y = add y x.
Hypothesis mul_comm : ∀ x y : num, mul x y = mul y x.
Implicit Types (A B C : Matrix num).

Lemma valid_dims A :
  isValidMatrix A = true →
  ∃ rows cols, 0 < rows ∧ dims rows cols A.
Proof. apply isValidMatrix_dims. Qed.

Lemma dims_unique rows cols rows' cols' A :
  0 < rows → dims rows cols A → dims rows' cols' A →
  rows = rows' ∧ cols = cols'.
Proof.
  intros Hpos HA HA'. pose proof (dims_length _ _ _ HA).
  pose proof (dims_length _ _ _ HA'). split; [lia|].
  rewrite <- (dims_row _ _ A 0 HA) by lia.
  apply (dims_row _ _ A 0 HA'); lia.
Qed.

(** X1: where addition is commutative, as it is on doubles,
    [addMatrices] gives the same outcome for
    both orders of two valid matrices: the same sum when the dimensions
    agree, the same dimension error when they do not. *)
Theorem addMatrices_comm A B :
  isValidMatrix A = true → isValidMatrix B = true →
  addMatrices A B = addMatrices B A.
Proof.
  intros (ra & ca & Hra & HA)%valid_dims (rb & cb & Hrb & HB)%valid_dims.
  destruct (decide (ra = rb ∧ ca = cb)) as [[-> ->]|Hne].
  - rewrite (addMatrices_tabulate rb cb A B), (addMatrices_tabulate rb cb B A)
      by done.
    f_equal. apply tabulate_ext. intros i j _ _. apply add_comm.
  - unfold addMatrices.
    rewrite (same_dims_ok ra ca rb cb), (same_dims_ok rb cb ra ca) by done.
    destruct (Nat.eqb_spec ra rb), (Nat.eqb_spec ca cb),
      (Nat.eqb_spec rb ra), (Nat.eqb_spec cb ca); simpl; try done; lia.
Qed.

(** X5: transposing twice gives a rectangular matrix with at least one
    row and one column back. *)
Theorem transpose_involutive rows cols A :
  0 < rows → 0 < cols → dims rows cols A →
  (let* T := transpose A in transpose T) = Ok A.
Proof.
  intros Hr Hc HA. rewrite (transpose_tabulate rows cols) by done. simpl.
  rewrite (transpose_tabulate cols rows) by (done || apply dims_tabulate).
  f_equal. apply (matrix_ext rows cols); [apply dims_tabulate|done|].
  intros i j Hi Hj. by rewrite !mget_tabulate.
Qed.

(** X6: where multiplication is commutative, as it is on doubles, the
    transpose of a product is the product of the transposes in the
    opposite order. *)
Theorem transpose_product r n c A B :
  0 < r → 0 < n → 0 < c → dims r n A → dims n c B →
  (let* AB := multiplyMatrices A B in transpose AB)
  = (let* Bt := transpose B in let* At := transpose A in
     multiplyMatrices Bt At).
Proof.
  intros Hr Hn Hc HA HB.
  rewrite (multiplyMatrices_tabulate r n c A B) by done.
  rewrite (transpose_tabulate n c B), (transpose_tabulate r n A) by done.
  simpl.
  rewrite (transpose_tabulate r c) by (done || apply dims_tabulate).
  rewrite (multiplyMatrices_tabulate c n r) by (done || apply dims_tabulate).
  f_equal. apply tabulate_ext. intros i j Hi Hj.
  rewrite mget_tabulate by done. apply sumn_ext. intros k Hk.
  rewrite !mget_tabulate by done. apply mul_comm.
Qed.

End Commutative.

Section MatrixAlgebra.
Context {num : Type} `{Arith num}.
Hypothesis Rth : ring_theory zero one add mul sub neg (@eq num).
Add Ring num_ring2 : Rth.
Implicit Types (A B C : Matrix num).

(** X2: subtracting [B] from a sum [A + B] that [addMatrices] returned
    gives [A] back. *)
Theorem add_then_subtract A B C :
  isValidMatrix A = true → isValidMatrix B = true →
  addMatrices A B = Ok C → subtractMatrices C B = Ok A.
Proof.
  intros (ra & ca & Hra & HA)%valid_dims (rb & cb & Hrb & HB)%valid_dims Hadd.
  assert (ra = rb ∧ ca = cb) as [-> ->].
  { unfold addMatrices in Hadd.
    rewrite (same_dims_ok ra ca rb cb) in Hadd by done. simpl in Hadd.
    destruct (Nat.eqb_spec ra rb), (Nat.eqb_spec ca cb); done. }
  rewrite (addMatrices_tabulate rb cb) in Hadd by done.
  injection Hadd as <-.
  rewrite (subtractMatrices_tabulate rb cb) by (done || apply dims_tabulate).
  f_equal. apply (matrix_ext rb cb); [apply dims_tabulate|done|].
  intros i j Hi Hj. rewrite !mget_tabulate by done. ring.
Qed.

Lemma sumn_delta_r n (g : nat → num) j :
  j < n →
  sumn n (fun k => mul (g k) (if k =? j then one else zero)) = g j.
Proof.
  induction n as [|n IH]; intros Hj; [lia|]. simpl.
  destruct (decide (j = n)) as [->|Hne].
  - rewrite Nat.eqb_refl.
    rewrite (sumn_ext n _ (fun _ => zero)).
    + rewrite (sumn_zero Rth). ring.
    + intros i Hi. nat_cases. ring.
  - rewrite IH by lia. nat_cases. ring.
Qed.

Lemma sumn_delta_l n (g : nat → num) i :
  i < n →
  sumn n (fun k => mul (if i =? k then one else zero) (g k)) = g i.
Proof.
  intros Hi. rewrite <- (sumn_delta_r n g i Hi). apply sumn_ext.
  intros k _. nat_cases; ring.
Qed.

Lemma multiplyMatrices_identity_r rows cols A :
  0 < rows → 0 < cols → dims rows cols A →
  multiplyMatrices A (identity cols) = Ok A.
Proof.
  intros Hr Hc HA. rewrite identity_tabulate.
  rewrite (multiplyMatrices_tabulate rows cols cols)
    by (done || apply dims_tabulate).
  f_equal. apply (matrix_ext rows cols); [apply dims_tabulate|done|].
  intros i j Hi Hj. rewrite mget_tabulate by done.
  rewrite <- (sumn_delta_r cols (fun k => mget A i k) j Hj).
  apply sumn_ext. intros k Hk. by rewrite mget_tabulate.
Qed.

Lemma multiplyMatrices_identity_l rows cols A :
  0 < rows → 0 < cols → dims rows cols A →
  multiplyMatrices (identity rows) A = Ok A.
Proof.
  intros Hr Hc HA. rewrite identity_tabulate.
  rewrite (multiplyMatrices_tabulate rows rows cols)
    by (done || apply dims_tabulate).
  f_equal. apply (matrix_ext rows cols); [apply dims_tabulate|done|].
  intros i j Hi Hj. rewrite mget_tabulate by done.
  rewrite <- (sumn_delta_l rows (fun k => mget A k j) i Hi).
  apply sumn_ext. intros k Hk. by rewrite mget_tabulate.
Qed.

(** X3: the matrix that [matrixPower] builds for the exponent 0 is a
    unit of [multiplyMatrices] on both sides. *)
Theorem multiply_identity rows cols A :
  0 < rows → 0 < cols → dims rows cols A →
  multiplyMatrices A (identity cols) = Ok A ∧
  multiplyMatrices (identity rows) A = Ok A.
Proof.
  intros Hr Hc HA. split.
  - by apply (multiplyMatrices_identity_r rows cols).
  - by apply (multiplyMatrices_identity_l rows cols).
Qed.

Lemma multiplyMatrices_assoc_ok r n m c A B C :
  0 < r → 0 < n → 0 < m →
  dims r n A → dims n m B → dims m c C →
  ∃ AB BC R,
    multiplyMatrices A B = Ok AB ∧ multiplyMatrices B C = Ok BC ∧
    multiplyMatrices AB C = Ok R ∧ multiplyMatrices A BC = Ok R.
Proof.
  intros Hr Hn Hm HA HB HC.
  do 3 eexists.
  split; [by apply (multiplyMatrices_tabulate r n m A B)|].
  split; [by apply (multiplyMatrices_tabulate n m c B C)|].
  split; [by apply (multiplyMatrices_tabulate r m c); try apply dims_tabulate|].
  rewrite (multiplyMatrices_tabulate r n c) by (done || apply dims_tabulate).
  f_equal. apply tabulate_ext. intros i j Hi Hj. symmetry.
  rewrite (sumn_ext m _
    (fun k => sumn n (fun l => mul (mul (mget A i l) (mget B l k)) (mget C k j)))).
  2:{ intros k Hk. rewrite mget_tabulate by done.
      rewrite (Rth.(Rmul_comm) _ (mget C k j)), (sumn_mul Rth).
      apply sumn_ext. intros l _. ring. }
  rewrite (sumn_swap Rth). apply sumn_ext. intros l Hl.
  rewrite mget_tabulate by done. rewrite (sumn_mul Rth).
  apply sumn_ext. intros k _. ring.
Qed.

(** X4: in a commutative ring, [multiplyMatrices] is associative on
    matrices of matching dimensions: both products are defined and
    equal. *)
Theorem multiply_assoc r n m c A B C :
  0 < r → 0 < n → 0 < m →
  dims r n A → dims n m B → dims m c C →
  (let* AB := multiplyMatrices A B in multiplyMatrices AB C)
  = (let* BC := multiplyMatrices B C in multiplyMatrices A BC).
Proof.
  intros Hr Hn Hm HA HB HC.
  destruct (multiplyMatrices_assoc_ok r n m c A B C Hr Hn Hm HA HB HC)
    as (AB & BC & R & -> & -> & H1 & H2).
  cbn [rbind]. by rewrite H1, H2.
Qed.

End MatrixAlgebra.

Lemma addMatrices_comm_witness :
  let A := [[1; 2]; [3; 4]]%float in
  let B := [[0.1; 0.2]; [0.3; 0.4]]%float in
  isValidMatrix A = true ∧ isValidMatrix B = true ∧
  addMatrices A B = addMatrices B A.
Proof.
  cbv zeta. split; [reflexivity|]. split; [reflexivity|].
  apply (@addMatrices_comm float float_arith float_add_comm); reflexivity.
Defined.

Lemma add_then_subtract_witness :
  let A := qmat [[1; 2]; [3; 4]]%Q in
  let B := qmat [[5; 6]; [7; 8]]%Q in
  let C := qmat [[6; 8]; [10; 12]]%Q in
  isValidMatrix A = true ∧ isValidMatrix B = true ∧
  addMatrices A B = Ok C ∧ subtractMatrices C B = Ok A.
Proof.
  cbv zeta.
  assert (addMatrices (qmat [[1; 2]; [3; 4]]%Q) (qmat [[5; 6]; [7; 8]]%Q)
          = Ok (qmat [[6; 8]; [10; 12]]%Q)) as Hadd by qc_eval.
  split; [reflexivity|]. split; [reflexivity|]. split; [exact Hadd|].
  apply (@add_then_subtract Qc Qc_arith Qcrt (qmat [[1; 2]; [3; 4]]%Q)
           (qmat [[5; 6]; [7; 8]]%Q));
    [reflexivity|reflexivity|exact Hadd].
Defined.

Lemma multiply_identity_witness :
  let A := qmat [[1; 2; 3]; [4; 5; 6]]%Q in
  0 < 2 ∧ 0 < 3 ∧ dims 2 3 A ∧
  multiplyMatrices A (identity 3) = Ok A ∧
  multiplyMatrices (identity 2) A = Ok A.
Proof.
  cbv zeta.
  assert (dims 2 3 (qmat [[1; 2; 3]; [4; 5; 6]]%Q)) as Hd
    by (split; [reflexivity|repeat constructor]).
  split; [lia|]. split; [lia|]. split; [exact Hd|].
  apply (@multiply_identity Qc Qc_arith Qcrt 2 3); [lia|lia|exact Hd].
Defined.

Lemma multiply_assoc_witness :
  let A := qmat [[1; 2]]%Q in
  let B := qmat [[1; 0; 2]; [3; 1; 0]]%Q in
  let C := qmat [[1]; [2]; [3]]%Q in
  0 < 1 ∧ 0 < 2 ∧ 0 < 3 ∧ dims 1 2 A ∧ dims 2 3 B ∧ dims 3 1 C ∧
  (let* AB := multiplyMatrices A B in multiplyMatrices AB C)
  = (let* BC := multiplyMatrices B C in multiplyMatrices A BC).
Proof.
  cbv zeta.
  assert (dims 1 2 (qmat [[1; 2]]%Q)) as HA
    by (split; [reflexivity|repeat constructor]).
  assert (dims 2 3 (qmat [[1; 0; 2]; [3; 1; 0]]%Q)) as HB
    by (split; [reflexivity|repeat constructor]).
  assert (dims 3 1 (qmat [[1]; [2]; [3]]%Q)) as HC
    by (split; [reflexivity|repeat constructor]).
  split; [lia|]. split; [lia|]. split; [lia|].
  split; [exact HA|]. split; [exact HB|]. split; [exact HC|].
  apply (@multiply_assoc Qc Qc_arith Qcrt 1 2 3 1); [lia|lia|lia|exact HA|exact HB|exact HC].
Defined.

Lemma transpose_involutive_witness :
  let A := [[1; 2; 3]; [4; 5; 6]]%float in
  0 < 2 ∧ 0 < 3 ∧ dims 2 3 A ∧
  (let* T := transpose A in transpose T) = Ok A.
Proof.
  cbv zeta.
  assert (dims 2 3 [[1; 2; 3]; [4; 5; 6]]%float) as Hd
    by (split; [reflexivity|repeat constructor]).
  split; [lia|]. split; [lia|]. split; [exact Hd|].
  apply (transpose_involutive 2 3); [lia|lia|exact Hd].
Defined.

Lemma transpose_product_witness :
  let A := [[0.1; 0.2]]%float in
  let B := [[1; 0; 0.3]; [3; 0.7; 0]]%float in
  0 < 1 ∧ 0 < 2 ∧ 0 < 3 ∧ dims 1 2 A ∧ dims 2 3 B ∧
  (let* AB := multiplyMatrices A B in transpose AB)
  = (let* Bt := transpose B in let* At := transpose A in
     multiplyMatrices Bt At).
Proof.
  cbv zeta.
  assert (dims 1 2 [[0.1; 0.2]]%float) as HA
    by (split; [reflexivity|repeat constructor]).
  assert (dims 2 3 [[1; 0; 0.3]; [3; 0.7; 0]]%float) as HB
    by (split; [reflexivity|repeat constructor]).
  split; [lia|]. split; [lia|]. split; [lia|].
  split; [exact HA|]. split; [exact HB|].
  apply (@transpose_product float float_arith float_mul_comm 1 2 3);
    [lia|lia|lia|exact HA|exact HB].
Defined.

Section DeterminantFacts.
Context {num : Type} `{Arith num}.
Hypothesis Rth : ring_theory zero one add mul sub neg (@eq num).
Add Ring num_ring3 : Rth.

Lemma skip_lt j c n : c < n → skip j c < S n.
Proof. unfold skip. nat_cases. Qed.

Lemma detF_ext_lt n : ∀ f1 f2 : nat → nat → num,
  (∀ i j, i < n → j < n → f1 i j = f2 i j) → detF n f1 = detF n f2.
Proof.
  induction n as [|n IH]; intros f1 f2 Hext; [done|].
  rewrite !detF_S. apply sumn_ext. intros j Hj.
  rewrite Hext by lia. f_equal. apply IH. intros r c Hr Hc.
  apply Hext; [lia|]. by apply skip_lt.
Qed.

Lemma detF_identity n :
  detF n (fun i j => if i =? j then one else zero) = one.
Proof.
  induction n as [|n IH]; [done|].
  rewrite detF_S, (sumn_shift Rth).
  rewrite (sumn_ext n _ (fun _ => zero)) by (intros j _; simpl; ring).
  rewrite (sumn_zero Rth).
  rewrite (detF_ext n _ (fun i j => if i =? j then one else zero)).
  - rewrite IH. change (pow_neg1 0) with (one : num). simpl. ring.
  - intros r c. change (skip 0 c) with (S c). nat_cases.
Qed.

(** X7: in a commutative ring, the determinant of the identity matrix
    of any size [n >= 1] is 1. *)
Theorem determinant_identity n :
  0 < n → determinant (identity n) = Ok one.
Proof.
  intros Hn. rewrite identity_tabulate.
  rewrite (determinant_detF Rth n) by (done || apply dims_tabulate).
  f_equal. etransitivity; [|apply (detF_identity n)].
  apply detF_ext_lt. intros i j Hi Hj. by rewrite mget_tabulate.
Qed.

End DeterminantFacts.

Lemma determinant_identity_witness :
  0 < 3 ∧ determinant (identity (num:=Qc) 3) = Ok one.
Proof.
  split; [lia|]. apply (@determinant_identity Qc Qc_arith Qcrt 3). lia.
Defined.

Section InverseTwo.

Lemma Qc_tol_pos : ltb (nabs (zero : Qc)) tol = true.
Proof. by vm_compute. Qed.

(** X8: in rational arithmetic, for a 2-by-2 matrix whose determinant
    is not below the tolerance, [inverse] returns a matrix whose product
    with the input is the identity, on both sides. *)
Theorem inverse_2x2_round_trip (a b c d : Qc) :
  let A := [[a; b]; [c; d]] in
  ltb (nabs (sub (mul a d) (mul b c))) tol = false →
  ∃ Ainv, inverse A = Ok Ainv ∧
          multiplyMatrices A Ainv = Ok (identity 2) ∧
          multiplyMatrices Ainv A = Ok (identity 2).
Proof.
  intros A Hdet.
  assert (Qcminus (Qcmult a d) (Qcmult b c) ≠ Q2Qc 0) as Hne.
  { intros Hz. change (sub (mul a d) (mul b c) = zero) in Hz.
    rewrite Hz, Qc_tol_pos in Hdet. done. }
  unfold inverse, A. cbn [length Nat.eqb negb determinant det_fuel rbind].
  change (mget [[a; b]; [c; d]] 0 0) with a.
  change (mget [[a; b]; [c; d]] 0 1) with b.
  change (mget [[a; b]; [c; d]] 1 0) with c.
  change (mget [[a; b]; [c; d]] 1 1) with d.
  rewrite Hdet. eexists. split; [reflexivity|].
  split; cbn; repeat f_equal; try (field; exact Hne).
Qed.

End InverseTwo.

Lemma inverse_2x2_round_trip_witness :
  let A := [[Q2Qc 2; Q2Qc 1]; [Q2Qc 1; Q2Qc 3]] in
  ltb (nabs (sub (mul (Q2Qc 2) (Q2Qc 3)) (mul (Q2Qc 1) (Q2Qc 1)))) tol = false ∧
  ∃ Ainv, inverse A = Ok Ainv ∧
          multiplyMatrices A Ainv = Ok (identity 2) ∧
          multiplyMatrices Ainv A = Ok (identity 2).
Proof.
  cbv zeta. split; [by vm_compute|].
  apply (inverse_2x2_round_trip (Q2Qc 2) (Q2Qc 1) (Q2Qc 1) (Q2Qc 3)).
  by vm_compute.
Defined.

(** ** Row reduction keeps the shape of the matrix *)

Section ReductionShape.
Context {num : Type} `{Arith num}.
Implicit Types (M : Matrix num).

Lemma find_pivot_range M start rows col :
  start < rows → start ≤ find_pivot M start rows col < rows.
Proof.
  intros Hlt. unfold find_pivot.
  apply (for_range_inv (fun i maxRow => start ≤ maxRow < i)); [lia|lia|].
  intros i maxRow Hi Hm. destruct (gtb _ _); lia.
Qed.

Lemma dims_swap_rows rows cols M i j :
  dims rows cols M → i < rows → j < rows → dims rows cols (swap_rows M i j).
Proof.
  intros Hd Hi Hj. pose proof (dims_row _ _ _ _ Hd Hi) as Hri.
  pose proof (dims_row _ _ _ _ Hd Hj) as Hrj.
  destruct Hd as [Hl Hall]. unfold swap_rows.
  split; [by rewrite !length_insert|].
  apply Forall_insert; [|done]. apply Forall_insert; done.
Qed.

Lemma dims_scale_row rows cols M r n pivot :
  dims rows cols M → dims rows cols (scale_row M r n pivot).
Proof.
  intros Hd. unfold scale_row.
  apply (for_range_inv (fun _ res => dims rows cols res)); [lia|done|].
  intros j res _ Hres. by apply dims_set_cell.
Qed.

Lemma dims_sub_row rows cols M i p n factor :
  dims rows cols M → dims rows cols (sub_row M i p n factor).
Proof.
  intros Hd. unfold sub_row.
  apply (for_range_inv (fun _ res => dims rows cols res)); [lia|done|].
  intros j res _ Hres. by apply dims_set_cell.
Qed.

Lemma dims_rref_col rows cols n col (st : Matrix num * nat) :
  dims rows cols st.1 → dims rows cols (rref_col rows n col st).1.
Proof.
  destruct st as [M pivotRow]. simpl. intros Hd. unfold rref_col.
  destruct (Nat.ltb_spec pivotRow rows) as [Hp|Hp]; simpl; [|done].
  destruct (ltb _ tol); [done|]. simpl.
  pose proof (find_pivot_range M pivotRow rows col Hp) as Hmax.
  apply (for_range_inv (fun _ res => dims rows cols res)); [lia| |].
  - apply dims_scale_row, dims_swap_rows; [done|lia..].
  - intros i res _ Hres. destruct (_ && _); [|done]. by apply dims_sub_row.
Qed.

Lemma dims_gj_col rows cols n i M :
  i < rows → dims rows cols M → dims rows cols (gj_col rows n i M).
Proof.
  intros Hi Hd. unfold gj_col.
  pose proof (find_pivot_range M i rows i Hi) as Hmax.
  assert (dims rows cols (swap_rows M i (find_pivot M i rows i))) as Hs
    by (apply dims_swap_rows; [done|lia..]).
  destruct (ltb _ tol); [done|].
  apply (for_range_inv (fun _ res => dims rows cols res)); [lia| |].
  - by apply dims_scale_row.
  - intros k res _ Hres. destruct (negb _); [|done]. by apply dims_sub_row.
Qed.

Lemma rref_dims rows cols M :
  0 < rows → dims rows cols M → ∃ R, rref M = Ok R ∧ dims rows cols R.
Proof.
  intros Hpos Hd.
  destruct (dims_inv_pos _ _ _ Hpos Hd) as (row0 & rest & -> & Hrow0 & _).
  eexists. split; [reflexivity|]. pose proof (dims_length _ _ _ Hd) as Hl.
  rewrite Hl, Hrow0.
  apply (for_range_inv
           (fun _ (st : Matrix num * nat) => dims rows cols st.1)); [lia|done|].
  intros col st _ Hst. by apply dims_rref_col.
Qed.

Lemma gaussJordan_dims rows cols M :
  0 < rows → dims rows cols M → ∃ R, gaussJordan M = Ok R ∧ dims rows cols R.
Proof.
  intros Hpos Hd.
  destruct (dims_inv_pos _ _ _ Hpos Hd) as (row0 & rest & -> & Hrow0 & _).
  eexists. split; [reflexivity|]. pose proof (dims_length _ _ _ Hd) as Hl.
  rewrite Hl, Hrow0.
  apply (for_range_inv (fun _ res => dims rows cols res)); [lia|done|].
  intros i res Hi Hres. apply dims_gj_col; [lia|done].
Qed.

Lemma dims_augment_identity n M :
  dims n n M → dims n (n + n) (augment_identity M).
Proof.
  intros [Hl Hall]. unfold augment_identity. split; [by rewrite length_imap|].
  apply Forall_lookup. intros i row. rewrite list_lookup_imap.
  destruct (M !! i) as [r|] eqn:Hr; [|done]. simpl. intros [= <-].
  rewrite length_app, length_map, length_seq, Hl. f_equal.
  rewrite Forall_lookup in Hall. by eapply Hall.
Qed.

(** Whatever [inverse] returns for an [n]-by-[n] matrix is [n]-by-[n]. *)
Lemma inverse_dims n M R :
  0 < n → dims n n M → inverse M = Ok R → dims n n R.
Proof.
  intros Hpos Hd.
  destruct (determinant_ok n M Hpos Hd) as [det Hdet].
  destruct (dims_inv_pos _ _ _ Hpos Hd) as (row0 & rest & -> & Hrow0 & _).
  pose proof (dims_length _ _ _ Hd) as Hl.
  unfold inverse. cbv zeta. rewrite Hdet, Hrow0, Hl, Nat.eqb_refl.
  cbn [negb rbind]. destruct (ltb _ tol); [done|].
  destruct (Nat.eqb_spec n 2) as [->|Hn2].
  - intros [= <-]. split; [done|]. by repeat constructor.
  - destruct (gaussJordan_dims n (n + n) (augment_identity (row0 :: rest)))
      as (gj & -> & Hgj); [done|by apply dims_augment_identity|].
    simpl. intros [= <-]. destruct Hgj as [Hlg Hallg]. split.
    + rewrite length_map, length_take. lia.
    + apply Forall_map, Forall_take. eapply Forall_impl; [|exact Hallg].
      intros row Hrow. simpl in *. rewrite length_drop. lia.
Qed.

(** X9: on a rectangular matrix with at least one row, [rref] and
    [gaussJordan] return a matrix of the same shape, and whatever
    [inverse] returns for a square matrix has the size of its input. *)
Theorem row_reduction_keeps_shape rows cols M :
  0 < rows → dims rows cols M →
  (∃ R, rref M = Ok R ∧ dims rows cols R) ∧
  (∃ G, gaussJordan M = Ok G ∧ dims rows cols G) ∧
  (rows = cols → ∀ R, inverse M = Ok R → dims rows rows R).
Proof.
  intros Hpos Hd. split; [by apply rref_dims|].
  split; [by apply gaussJordan_dims|].
  intros <- R HR. by apply (inverse_dims rows M).
Qed.

End ReductionShape.

Lemma row_reduction_keeps_shape_witness :
  let M := qmat [[2; 1; 3]; [1; 3; 2]; [3; 2; 1]]%Q in
  0 < 3 ∧ dims 3 3 M ∧
  (∃ R, rref M = Ok R ∧ dims 3 3 R) ∧
  (∃ G, gaussJordan M = Ok G ∧ dims 3 3 G) ∧
  (3 = 3 → ∀ R, inverse M = Ok R → dims 3 3 R).
Proof.
  cbv zeta.
  assert (dims 3 3 (qmat [[2; 1; 3]; [1; 3; 2]; [3; 2; 1]]%Q)) as Hd
    by (split; [reflexivity|repeat constructor]).
  split; [lia|]. split; [exact Hd|].
  apply (row_reduction_keeps_shape (num:=Qc) 3 3); [lia|exact Hd].
Defined.

(** ** The inverse method of the equation solver *)

Section SolveByInverse.
Context {num : Type} `{Arith num}.

(** On a square matrix with at least one row, [inverse] either raises
    the singular-matrix error or returns a matrix of the same size. *)
Lemma inverse_cases n (A : Matrix num) :
  0 < n → dims n n A →
  ∃ det, determinant A = Ok det ∧
    if ltb (nabs det) tol
    then inverse A = Throw (Error "Matrix is singular and cannot be inverted")
    else ∃ R, inverse A = Ok R ∧ dims n n R.
Proof.
  intros Hpos Hd. destruct (determinant_ok n A Hpos Hd) as [det Hdet].
  exists det. split; [done|].
  destruct (ltb (nabs det) tol) eqn:Hsmall.
  - destruct (dims_inv_pos _ _ _ Hpos Hd) as (row0 & rest & -> & Hrow0 & _).
    pose proof (dims_length _ _ _ Hd) as Hl.
    unfold inverse. cbv zeta. rewrite Hdet, Hrow0, Hl, Nat.eqb_refl.
    cbn [negb rbind]. by rewrite Hsmall.
  - assert (∃ R, inverse A = Ok R) as [R HR].
    { destruct (dims_inv_pos _ _ _ Hpos Hd) as (row0 & rest & -> & Hrow0 & _).
      pose proof (dims_length _ _ _ Hd) as Hl.
      unfold inverse. cbv zeta. rewrite Hdet, Hrow0, Hl, Nat.eqb_refl.
      cbn [negb rbind]. rewrite Hsmall.
      destruct (n =? 2); [by eexists|].
      destruct (gaussJordan_ok (augment_identity (row0 :: rest)))
        as [gj ->]; [by apply augment_identity_nonempty|].
      by eexists. }
    exists R. split; [done|]. by apply (inverse_dims n A).
Qed.


End SolveByInverse.

(** X15: in rational arithmetic, for a 2-by-2 system whose determinant
    is not below the tolerance the inverse method returns a vector that
    solves the system exactly. *)
Theorem solveByInverse_2x2_solves (a b c d e f : Qc) :
  let A := [[a; b]; [c; d]] in
  ltb (nabs (sub (mul a d) (mul b c))) tol = false →
  ∃ x, solveByInverse A [e; f]
       = Ok (mkSolution unique (Some x) None, UniqueByInverse) ∧
       multiplyMatrices A (map (fun val => [val]) x) = Ok [[e]; [f]].
Proof.
  intros A Hdet.
  assert (Qcminus (Qcmult a d) (Qcmult b c) ≠ Q2Qc 0) as Hne.
  { intros Hz. change (sub (mul a d) (mul b c) = zero) in Hz.
    rewrite Hz, Qc_tol_pos in Hdet. done. }
  unfold solveByInverse, inverse, A.
  cbn [length Nat.eqb negb determinant det_fuel rbind].
  change (mget [[a; b]; [c; d]] 0 0) with a.
  change (mget [[a; b]; [c; d]] 0 1) with b.
  change (mget [[a; b]; [c; d]] 1 0) with c.
  change (mget [[a; b]; [c; d]] 1 1) with d.
  rewrite Hdet. cbn [rbind]. eexists. split; [reflexivity|].
  cbn. repeat f_equal; field; exact Hne.
Qed.

Lemma solveByInverse_2x2_solves_witness :
  ltb (nabs (sub (mul (Q2Qc 2) (Q2Qc 3)) (mul (Q2Qc 1) (Q2Qc 1)))) tol = false ∧
  ∃ x, solveByInverse [[Q2Qc 2; Q2Qc 1]; [Q2Qc 1; Q2Qc 3]] [Q2Qc 5; Q2Qc 10]
       = Ok (mkSolution unique (Some x) None, UniqueByInverse) ∧
       multiplyMatrices [[Q2Qc 2; Q2Qc 1]; [Q2Qc 1; Q2Qc 3]]
         (map (fun val => [val]) x) = Ok [[Q2Qc 5]; [Q2Qc 10]].
Proof.
  split; [by vm_compute|].
  apply (solveByInverse_2x2_solves (Q2Qc 2) (Q2Qc 1) (Q2Qc 1) (Q2Qc 3)
           (Q2Qc 5) (Q2Qc 10)).
  by vm_compute.
Defined.

(** ** Dot and cross product, in a commutative ring *)

Section VectorAlgebra.
Context {num : Type} `{Arith num}.
Hypothesis Rth : ring_theory zero one add mul sub neg (@eq num).
Add Ring num_ring4 : Rth.
Implicit Types (a b c : Vector num).

Lemma vget_app_l a b i : i < length a → vget (a ++ b) i = vget a i.
Proof. intros Hi. unfold vget. by rewrite lookup_app_l. Qed.

Lemma vget_app_r a b i : vget (a ++ b) (length a + i) = vget b i.
Proof.
  unfold vget. rewrite lookup_app_r by lia.
  by replace (length a + i - length a) with i by lia.
Qed.

(** The [reduce] of [dotProduct] is the left-to-right sum of the
    products. *)
Lemma dot_sum a b :
  foldl (fun sum '(i, val) => add sum (mul val (vget b i))) zero
        (imap (fun i val => (i, val)) a)
  = sumn (length a) (fun i => mul (vget a i) (vget b i)).
Proof using Type.
  induction a as [|x a IH] using rev_ind; [done|].
  rewrite imap_app, foldl_app, IH, length_app. simpl.
  rewrite Nat.add_1_r. simpl. rewrite Nat.add_0_r.
  replace (vget (a ++ [x]) (length a)) with x.
  - f_equal. apply sumn_ext. intros i Hi. by rewrite vget_app_l.
  - pose proof (vget_app_r a [x] 0) as Hx. by rewrite Nat.add_0_r in Hx.
Qed.

Lemma dotProduct_sum a b :
  length a = length b →
  dotProduct a b = Ok (sumn (length a) (fun i => mul (vget a i) (vget b i))).
Proof using Type.
  intros Hl. unfold dotProduct. rewrite Hl, Nat.eqb_refl. simpl.
  by rewrite dot_sum, Hl.
Qed.

(** The dot product does not depend on the order of its arguments,
    the length error included. *)
Lemma dotProduct_comm a b : dotProduct a b = dotProduct b a.
Proof.
  destruct (decide (length a = length b)) as [Hl|Hl].
  - rewrite (dotProduct_sum a b), (dotProduct_sum b a) by done.
    rewrite Hl. f_equal. apply sumn_ext. intros i _. ring.
  - unfold dotProduct.
    destruct (Nat.eqb_spec (length a) (length b)),
      (Nat.eqb_spec (length b) (length a)); simpl; congruence.
Qed.

(** X11: in a commutative ring, a cross product that [crossProduct]
    returns is orthogonal to both arguments, by [dotProduct], and
    swapping the arguments negates it. *)
Theorem crossProduct_orthogonal a b c :
  crossProduct a b = Ok c →
  dotProduct a c = Ok zero ∧ dotProduct b c = Ok zero ∧
  crossProduct b a = Ok (map neg c).
Proof.
  unfold crossProduct.
  destruct (Nat.eqb_spec (length a) 3) as [Ha|]; [|done].
  destruct (Nat.eqb_spec (length b) 3) as [Hb|]; [|done]. simpl.
  destruct a as [|a0 [|a1 [|a2 [|]]]]; try done.
  destruct b as [|b0 [|b1 [|b2 [|]]]]; try done.
  intros [= <-]. unfold dotProduct. cbn.
  repeat split; repeat f_equal; ring.
Qed.

End VectorAlgebra.

Lemma crossProduct_orthogonal_witness :
  let a := qvec [1; 2; 3]%Q in
  let b := qvec [4; 5; 6]%Q in
  let c := qvec [-3; 6; -3]%Q in
  crossProduct a b = Ok c ∧
  dotProduct a c = Ok zero ∧ dotProduct b c = Ok zero ∧
  crossProduct b a = Ok (map neg c).
Proof.
  cbv zeta.
  assert (crossProduct (qvec [1; 2; 3]%Q) (qvec [4; 5; 6]%Q)
          = Ok (qvec [-3; 6; -3]%Q)) as Hc by qc_eval.
  split; [exact Hc|].
  apply (@crossProduct_orthogonal Qc Qc_arith Qcrt _ _ _ Hc).
Defined.

(** ** Normalisation and right angles, in real arithmetic *)

Section VectorsReal.
Local Open Scope R_scope.
Implicit Types (a b v : list R).

Lemma foldl_squares_acc v : ∀ acc,
  foldl (fun sum val => sum + val * val) acc v = acc + sum_squares v.
Proof.
  unfold sum_squares. induction v as [|x v IH]; intros acc; simpl; [lra|].
  rewrite IH, (IH (0 + x * x)). lra.
Qed.

Lemma sum_squares_cons x v : sum_squares (x :: v) = x * x + sum_squares v.
Proof. unfold sum_squares at 1. simpl. rewrite foldl_squares_acc. lra. Qed.

Lemma sum_squares_scaled v m :
  m ≠ 0 → sum_squares (map (fun val => val / m) v) = sum_squares v / (m * m).
Proof.
  intros Hm. induction v as [|x v IH]; [unfold sum_squares; simpl; by field|].
  simpl map. rewrite !sum_squares_cons, IH. by field.
Qed.

Lemma sum_squares_zero v : Forall (fun x => x = 0) v → sum_squares v = 0.
Proof.
  induction 1 as [|x v -> _ IH]; [done|]. rewrite sum_squares_cons, IH. lra.
Qed.

Lemma vectorMagnitude_sqrt v : vectorMagnitude v = sqrt (sum_squares v).
Proof. reflexivity. Qed.

(** X12: in real arithmetic, [normalizeVector] refuses exactly the
    vectors whose entries are all zero, and returns for every other
    vector a vector of the same length and of magnitude 1. *)
Theorem normalizeVector_unit v :
  (Forall (fun x => x = 0) v →
   normalizeVector v = Throw (Error "Cannot normalize zero vector")) ∧
  (Exists (fun x => x ≠ 0) v →
   ∃ u, normalizeVector v = Ok u ∧ length u = length v ∧
        vectorMagnitude u = 1).
Proof.
  split.
  - intros Hz. unfold normalizeVector.
    rewrite vectorMagnitude_sqrt, sum_squares_zero, sqrt_0 by done.
    by rewrite (proj2 (eqb_zero_true 0)).
  - intros Hex. pose proof (vectorMagnitude_nonzero v Hex) as Hm.
    unfold normalizeVector. rewrite (proj2 (eqb_zero_false _) Hm).
    eexists. split; [reflexivity|]. split; [by rewrite length_map|].
    rewrite vectorMagnitude_sqrt, sum_squares_scaled by done.
    rewrite vectorMagnitude_sqrt, sqrt_sqrt by apply sum_squares_nonneg.
    assert (sum_squares v ≠ 0) as Hs.
    { intros Hs. apply Hm. by rewrite vectorMagnitude_sqrt, Hs, sqrt_0. }
    replace (sum_squares v / sum_squares v) with 1 by (by field).
    apply sqrt_1.
Qed.

Lemma clamp_zero : clamp 0 = 0.
Proof.
  unfold clamp. simpl. unfold Rmax, Rmin.
  repeat destruct (Rle_dec _ _); lra.
Qed.

(** X13: in real arithmetic, for two non-zero vectors whose dot product
    is 0 the angle is [PI / 2], and the vector panel, which converts to
    degrees, reports 90. *)
Theorem calculate_right_angle a b :
  dotProduct a b = Ok 0 →
  Exists (fun x => x ≠ 0) a → Exists (fun x => x ≠ 0) b →
  angleBetweenVectors a b = Ok (PI / 2) ∧
  VectorOperations.calculate PI VectorOperations.op_angle
    (VectorOperations.mkState a b)
  = Ok (VectorOperations.ResultNumber 90).
Proof.
  intros Hdot Ha%vectorMagnitude_nonzero Hb%vectorMagnitude_nonzero.
  assert (angleBetweenVectors a b = Ok (PI / 2)) as Hangle.
  { unfold angleBetweenVectors. rewrite Hdot. cbn [rbind].
    rewrite (proj2 (eqb_zero_false _) Ha), (proj2 (eqb_zero_false _) Hb).
    cbn [orb]. f_equal.
    change (acos (clamp (0 / (vectorMagnitude a * vectorMagnitude b))) = PI / 2).
    replace (0 / (vectorMagnitude a * vectorMagnitude b)) with 0
      by (field; split; done).
    rewrite clamp_zero. apply acos_0. }
  split; [done|].
  unfold VectorOperations.calculate. cbn [VectorOperations.needs3D andb].
  cbn [VectorOperations.vectorA VectorOperations.vectorB].
  rewrite Hangle. cbn [rbind]. do 2 f_equal.
  change (PI / 2 * (180 / PI) = 90). field. apply PI_neq0.
Qed.

End VectorsReal.

Lemma calculate_right_angle_witness :
  let a := [1%R; 0%R; 0%R] in
  let b := [0%R; 1%R; 0%R] in
  dotProduct a b = Ok 0%R ∧
  Exists (fun x => x ≠ 0%R) a ∧ Exists (fun x => x ≠ 0%R) b ∧
  angleBetweenVectors a b = Ok (PI / 2)%R ∧
  VectorOperations.calculate PI VectorOperations.op_angle
    (VectorOperations.mkState a b)
  = Ok (VectorOperations.ResultNumber 90%R).
Proof.
  cbv zeta.
  assert (dotProduct [1%R; 0%R; 0%R] [0%R; 1%R; 0%R] = Ok 0%R) as Hdot.
  { unfold dotProduct. cbn. f_equal. lra. }
  assert (Exists (fun x => x ≠ 0%R) [1%R; 0%R; 0%R]) as Ha.
  { apply Exists_cons_hd. lra. }
  assert (Exists (fun x => x ≠ 0%R) [0%R; 1%R; 0%R]) as Hb.
  { apply Exists_cons_tl, Exists_cons_hd. lra. }
  split; [exact Hdot|]. split; [exact Ha|]. split; [exact Hb|].
  exact (calculate_right_angle _ _ Hdot Ha Hb).
Defined.

(** ** The matrix functions on a square matrix *)

Section MatrixFunctionShape.
Context {num : Type} `{Arith num}.
Implicit Types (A B : Matrix num).

Lemma multiplyMatrices_dims r n c A B :
  0 < r → 0 < n → dims r n A → dims n c B →
  ∃ P, multiplyMatrices A B = Ok P ∧ dims r c P.
Proof.
  intros Hr Hn HA HB. eexists. split.
  - by apply (multiplyMatrices_tabulate r n c).
  - apply dims_tabulate.
Qed.

Lemma addMatrices_dims r c A B :
  0 < r → dims r c A → dims r c B →
  ∃ S, addMatrices A B = Ok S ∧ dims r c S.
Proof.
  intros Hr HA HB. eexists. split.
  - by apply (addMatrices_tabulate r c).
  - apply dims_tabulate.
Qed.

Lemma scalarMultiply_dims r c A (s : num) :
  dims r c A → dims r c (scalarMultiply A s).
Proof.
  intros HA. rewrite (scalarMultiply_tabulate r c) by done. apply dims_tabulate.
Qed.

Lemma identity_dims n : dims n n (identity (num:=num) n).
Proof. rewrite identity_tabulate. apply dims_tabulate. Qed.

Lemma repeated_product_dims n A k :
  0 < n → dims n n A → ∃ P, repeated_product A k = Ok P ∧ dims n n P.
Proof.
  intros Hn HA. induction k as [|k (P & HP & HdP)]; [by exists A|].
  simpl. rewrite HP. simpl. by apply (multiplyMatrices_dims n n n).
Qed.

Lemma matrixPower_repeated A (p : Z) :
  (1 ≤ p)%Z → matrixPower A p = repeated_product A (Z.to_nat p - 1).
Proof.
  intros Hp. destruct (decide (p = 1%Z)) as [->|Hne]; [done|].
  apply matrixPower_ge2. lia.
Qed.

Lemma taylor_loop_dims n A first ks :
  0 < n → dims n n A → dims n n first →
  ∃ R, taylor_loop A first ks = Ok R ∧ dims n n R.
Proof.
  intros Hn HA Hf. unfold taylor_loop.
  set (body := fun acc k => _).
  assert (∀ ks st, dims n n st.1.1.1 → dims n n st.1.1.2 →
            ∃ st', foldl body (Ok st) ks = Ok st' ∧ dims n n st'.1.1.1) as Hloop.
  { clear ks. intros ks. induction ks as [|k ks IH]; intros st Hres Hterm.
    - by exists st.
    - simpl. destruct st as [[[res term] factorial] sign]. simpl in *.
      destruct (multiplyMatrices_dims n n n term A) as (t & -> & Ht); [done..|].
      simpl.
      destruct (multiplyMatrices_dims n n n t A) as (t2 & -> & Ht2); [done..|].
      simpl.
      destruct (addMatrices_dims n n res
                  (scalarMultiply t2 (div sign
                     (mul factorial (mul (of_Z (Z.of_nat k - 1)) (of_Z (Z.of_nat k)))))))
        as (S & -> & HS); [done|done|by apply scalarMultiply_dims|].
      simpl. by apply IH. }
  destruct (Hloop ks (first, first, one, neg one)) as (st' & -> & Hst'); [done..|].
  by exists st'.1.1.1.
Qed.

Lemma matrixPower_dims n A (p : Z) :
  0 < n → dims n n A → (0 ≤ p)%Z →
  ∃ P, matrixPower A p = Ok P ∧ dims n n P.
Proof.
  intros Hn HA Hp. pose proof (dims_length _ _ _ HA) as Hl.
  destruct (decide (p = 0%Z)) as [->|Hne].
  - exists (identity n). rewrite matrixPower_zero, Hl.
    split; [done|apply identity_dims].
  - rewrite matrixPower_repeated by lia. by apply repeated_product_dims.
Qed.

(** X17: on a square matrix with at least one row the four matrix
    functions raise no exception and return a matrix of the size of the
    input; for the power, with any exponent [p >= 0]. *)
Theorem matrix_functions_defined n A :
  0 < n → dims n n A →
  (∃ E, matrixExponential A = Ok E ∧ dims n n E) ∧
  (∃ S, matrixSine A = Ok S ∧ dims n n S) ∧
  (∃ C, matrixCosine A = Ok C ∧ dims n n C) ∧
  (∀ p, (0 ≤ p)%Z → ∃ P, matrixPower A p = Ok P ∧ dims n n P).
Proof.
  intros Hn HA. pose proof (dims_length _ _ _ HA) as Hl.
  split; [|split; [|split]].
  - unfold matrixExponential. rewrite Hl.
    assert (∀ k, ∃ st,
      for_range 1 (S k)
        (fun k acc =>
           let* st := acc in
           let '(result, term, factorial) := st in
           let factorial := mul factorial (of_Z (Z.of_nat k)) in
           let* term := multiplyMatrices term A in
           let scaledTerm := scalarMultiply term (div one factorial) in
           let* result := addMatrices result scaledTerm in
           Ok (result, term, factorial))
        (Ok (identity n, identity n, one)) = Ok st ∧
      dims n n st.1.1 ∧ dims n n st.1.2) as Hloop.
    { induction k as [|k (st & Hst & Hres & Hterm)].
      - eexists. split; [reflexivity|]. split; apply identity_dims.
      - rewrite for_range_snoc by lia. rewrite Hst.
        destruct st as [[res term] factorial]. simpl in *.
        destruct (multiplyMatrices_dims n n n term A) as (t & -> & Ht); [done..|].
        simpl.
        destruct (addMatrices_dims n n res
                    (scalarMultiply t (div one (mul factorial (of_Z (Z.of_nat (S k)))))))
          as (S & HS & HdS); [done|done|by apply scalarMultiply_dims|].
        rewrite HS. simpl. eexists. split; [reflexivity|]. done. }
    destruct (Hloop 10) as (st & Hst & Hres & _). exists st.1.1.
    split; [|done]. cbv zeta in Hst |- *. by rewrite Hst.
  - by apply taylor_loop_dims.
  - unfold matrixCosine. rewrite Hl.
    apply taylor_loop_dims; [done|done|apply identity_dims].
  - intros p Hp. by apply matrixPower_dims.
Qed.

End MatrixFunctionShape.

Lemma matrix_functions_defined_witness :
  let A := qmat [[1; 2]; [3; 4]]%Q in
  0 < 2 ∧ dims 2 2 A ∧
  (∃ E, matrixExponential A = Ok E ∧ dims 2 2 E) ∧
  (∃ S, matrixSine A = Ok S ∧ dims 2 2 S) ∧
  (∃ C, matrixCosine A = Ok C ∧ dims 2 2 C) ∧
  (∀ p, (0 ≤ p)%Z → ∃ P, matrixPower A p = Ok P ∧ dims 2 2 P).
Proof.
  cbv zeta.
  assert (dims 2 2 (qmat [[1; 2]; [3; 4]]%Q)) as Hd
    by (split; [reflexivity|repeat constructor]).
  split; [lia|]. split; [exact Hd|].
  apply (matrix_functions_defined (num:=Qc) 2); [lia|exact Hd].
Defined.

(** ** Powers add up, in a commutative ring *)

Section PowerAlgebra.
Context {num : Type} `{Arith num}.
Hypothesis Rth : ring_theory zero one add mul sub neg (@eq num).
Implicit Types (A B : Matrix num).

Lemma repeated_product_add n A j k :
  0 < n → dims n n A →
  repeated_product A (j + k + 1)
  = let* P := repeated_product A j in
    let* Q := repeated_product A k in
    multiplyMatrices P Q.
Proof.
  intros Hn HA.
  destruct (repeated_product_dims n A j Hn HA) as (P & HP & HdP).
  rewrite HP. cbn [rbind]. induction k as [|k IH].
  - rewrite Nat.add_0_r, Nat.add_1_r. simpl. by rewrite HP.
  - replace (j + S k + 1) with (S (j + k + 1)) by lia. simpl.
    rewrite IH.
    destruct (repeated_product_dims n A k Hn HA) as (Q & HQ & HdQ).
    rewrite HQ. cbn [rbind].
    destruct (multiplyMatrices_assoc_ok Rth n n n n P Q A)
      as (PQ & QA & R & HPQ & HQA & H1 & H2); [done..|].
    by rewrite HPQ, HQA; cbn [rbind]; rewrite H1, H2.
Qed.

(** X18: in a commutative ring, for a square matrix and exponents
    [p, q >= 0], [matrixPower] of [p + q] is the product of the powers
    [p] and [q]. *)
Theorem matrixPower_add n A (p q : Z) :
  0 < n → dims n n A → (0 ≤ p)%Z → (0 ≤ q)%Z →
  matrixPower A (p + q)
  = let* P := matrixPower A p in
    let* Q := matrixPower A q in
    multiplyMatrices P Q.
Proof.
  intros Hn HA Hp Hq. pose proof (dims_length _ _ _ HA) as Hl.
  pose proof (fun p => matrixPower_dims n A p Hn HA) as Hpow.
  destruct (decide (p = 0%Z)) as [->|Hp0].
  - rewrite Z.add_0_l, matrixPower_zero, Hl. cbn [rbind].
    destruct (Hpow q Hq) as (Q & -> & HdQ). cbn [rbind].
    symmetry. by apply (multiplyMatrices_identity_l Rth n n Q).
  - destruct (decide (q = 0%Z)) as [->|Hq0].
    + rewrite Z.add_0_r, matrixPower_zero, Hl.
      destruct (Hpow p Hp) as (P & -> & HdP). cbn [rbind].
      symmetry. by apply (multiplyMatrices_identity_r Rth n n P).
    + rewrite !matrixPower_repeated by lia.
      replace (Z.to_nat (p + q) - 1)
        with ((Z.to_nat p - 1) + (Z.to_nat q - 1) + 1) by lia.
      by apply (repeated_product_add n).
Qed.

End PowerAlgebra.

Lemma matrixPower_add_witness :
  let A := qmat [[1; 2]; [3; 4]]%Q in
  0 < 2 ∧ dims 2 2 A ∧ (0 ≤ 2)%Z ∧ (0 ≤ 1)%Z ∧
  matrixPower A (2 + 1)
  = let* P := matrixPower A 2 in
    let* Q := matrixPower A 1 in
    multiplyMatrices P Q.
Proof.
  cbv zeta.
  assert (dims 2 2 (qmat [[1; 2]; [3; 4]]%Q)) as Hd
    by (split; [reflexivity|repeat constructor]).
  split; [lia|]. split; [exact Hd|]. split; [lia|]. split; [lia|].
  apply (@matrixPower_add Qc Qc_arith Qcrt 2); [lia|exact Hd|lia|lia].
Defined.

(** ** The characteristic polynomial, in real arithmetic *)

Section CharacteristicEdge.
Context {num : Type} `{Arith num} `{Trans num}.
Variable formatNumber : num → string.

Lemma characteristic_only_2x2 n (A : Matrix num) :
  0 < n → n ≠ 2 → dims n n A →
  calculateCharacteristicPolynomial formatNumber A
  = Throw (Error "Characteristic polynomial calculation for matrices larger than 2×2 is not implemented in this demo").
Proof.
  intros Hpos Hn Hd.
  destruct (dims_inv_pos _ _ _ Hpos Hd) as (row0 & rest & -> & Hrow0 & _).
  pose proof (dims_length _ _ _ Hd) as Hl.
  unfold calculateCharacteristicPolynomial. rewrite Hl, Hrow0, Nat.eqb_refl.
  cbn [negb]. by destruct (Nat.eqb_spec n 2).
Qed.

End CharacteristicEdge.

Section Characteristic.
Local Open Scope R_scope.
Variable formatNumber : R → string.

Lemma geb_zero_R (x : R) : geb x zero = true ↔ 0 <= x.
Proof.
  unfold geb. simpl. destruct (Rlt_dec 0 x), (Req_dec_T x 0); simpl;
    split; intros; try done; lra.
Qed.

(** A root of [x² - t x + p] built from a square root of the
    discriminant. *)
Lemma quadratic_root (t p s : R) :
  s * s = t * t - 4 * p →
  let r1 := (t + s) / 2 in
  let r2 := (t - s) / 2 in
  r1 * r1 - t * r1 + p = 0 ∧ r2 * r2 - t * r2 + p = 0.
Proof.
  intros Hs r1 r2. subst r1 r2. split.
  - replace ((t + s) / 2 * ((t + s) / 2) - t * ((t + s) / 2) + p)
      with ((s * s - (t * t - 4 * p)) / 4) by field. rewrite Hs. field.
  - replace ((t - s) / 2 * ((t - s) / 2) - t * ((t - s) / 2) + p)
      with ((s * s - (t * t - 4 * p)) / 4) by field. rewrite Hs. field.
Qed.

Lemma dims_2x2 (A : Matrix R) :
  dims 2 2 A → ∃ a b c d, A = [[a; b]; [c; d]].
Proof.
  intros [Hl Hall].
  destruct A as [|r0 [|r1 [|]]]; try done.
  apply Forall_cons_iff in Hall as [H0 Hall].
  apply Forall_cons_iff in Hall as [H1 _].
  destruct r0 as [|a [|b [|]]]; try done.
  destruct r1 as [|c [|d [|]]]; try done.
  by exists a, b, c, d.
Qed.

Lemma characteristic_roots_2x2 (A : Matrix R) :
  dims 2 2 A →
  ∃ P, calculateCharacteristicPolynomial formatNumber A = Ok P ∧
    coefficients P
    = [1; - (mget A 0 0 + mget A 1 1);
       mget A 0 0 * mget A 1 1 - mget A 0 1 * mget A 1 0] ∧
    (length (roots P) = 2%nat ∨ roots P = []) ∧
    ∀ r, In r (roots P) →
      ∃ M, subtractMatrices A (scalarMultiply (identity 2) r) = Ok M ∧
           determinant M = Ok 0.
Proof.
  intros (a & b & c & d & ->)%dims_2x2.
  unfold calculateCharacteristicPolynomial.
  cbn [length Nat.eqb negb]. eexists. split; [reflexivity|].
  cbn [coefficients roots].
  change (mget [[a; b]; [c; d]] 0 0) with a.
  change (mget [[a; b]; [c; d]] 0 1) with b.
  change (mget [[a; b]; [c; d]] 1 0) with c.
  change (mget [[a; b]; [c; d]] 1 1) with d.
  split; [reflexivity|].
  set (D := sub (mul (add a d) (add a d)) (mul (of_Z 4) (sub (mul a d) (mul b c)))).
  destruct (geb D zero) eqn:HD; [|split; [by right|by intros r []]].
  split; [by left|]. apply geb_zero_R in HD.
  assert (sqrt D * sqrt D = (a + d) * (a + d) - 4 * (a * d - b * c)) as Hs
    by (by rewrite sqrt_sqrt).
  destruct (quadratic_root (a + d) (a * d - b * c) (sqrt D) Hs) as [H1 H2].
  intros r Hr. eexists. split; [reflexivity|].
  cbn. f_equal.
  destruct Hr as [<-|[<-|[]]]; simpl in *; lra.
Qed.


(** X19: in real arithmetic, for a 2-by-2 matrix the calculator
    returns the coefficients [1, -trace, det] and either two roots or
    none, and every root [r] it returns is an eigenvalue: the determinant
    of [A - r I] is 0.  A square matrix of any other size, 1-by-1
    included, is refused with the message for larger matrices. *)
Theorem characteristic_polynomial_roots (n : nat) (A : Matrix R) :
  (0 < n)%nat → dims n n A →
  if (n =? 2)%nat then
    ∃ P, calculateCharacteristicPolynomial formatNumber A = Ok P ∧
      coefficients P
      = [1; - (mget A 0 0 + mget A 1 1);
         mget A 0 0 * mget A 1 1 - mget A 0 1 * mget A 1 0] ∧
      (length (roots P) = 2%nat ∨ roots P = []) ∧
      ∀ r, In r (roots P) →
        ∃ M, subtractMatrices A (scalarMultiply (identity 2) r) = Ok M ∧
             determinant M = Ok 0
  else
    calculateCharacteristicPolynomial formatNumber A
    = Throw (Error "Characteristic polynomial calculation for matrices larger than 2×2 is not implemented in this demo").
Proof.
  intros Hpos Hd. destruct (Nat.eqb_spec n 2) as [->|Hne].
  - by apply characteristic_roots_2x2.
  - by apply (characteristic_only_2x2 formatNumber n).
Qed.

(** X20: in real arithmetic, for a 2-by-2 matrix the eigenvalue trace
    names, in its 'Find Eigenvector' steps, exactly the roots that the
    calculator returns, shows for each the matrix [A - lambda I], whose
    determinant is 0, and numbers its steps from 0. *)
Theorem eigenvalue_trace_matches_roots (A : Matrix R) :
  dims 2 2 A →
  ∃ steps P,
    InteractiveAnimations.generateEigenvalueSteps A = Ok steps ∧
    calculateCharacteristicPolynomial formatNumber A = Ok P ∧
    InteractiveAnimations.shown_eigenvalues steps = roots P ∧
    map InteractiveAnimations.eigen_id steps = seq 0 (length steps) ∧
    ∀ s i lambda, In s steps →
      InteractiveAnimations.eigen_description s
      = InteractiveAnimations.EigenVector i lambda →
      ∃ M, InteractiveAnimations.eigen_matrix s
           = InteractiveAnimations.Numeric M ∧
           determinant M = Ok 0.
Proof.
  intros (a & b & c & d & ->)%dims_2x2.
  unfold InteractiveAnimations.generateEigenvalueSteps,
    calculateCharacteristicPolynomial.
  cbn [length Nat.eqb negb].
  change (mget [[a; b]; [c; d]] 0 0) with a.
  change (mget [[a; b]; [c; d]] 0 1) with b.
  change (mget [[a; b]; [c; d]] 1 0) with c.
  change (mget [[a; b]; [c; d]] 1 1) with d.
  set (D := sub (mul (add a d) (add a d)) (mul (of_Z 4) (sub (mul a d) (mul b c)))).
  destruct (geb D zero) eqn:HD.
  - apply geb_zero_R in HD.
    assert (sqrt D * sqrt D = (a + d) * (a + d) - 4 * (a * d - b * c)) as Hs
      by (by rewrite sqrt_sqrt).
    destruct (quadratic_root (a + d) (a * d - b * c) (sqrt D) Hs) as [H1 H2].
    do 2 eexists. split; [reflexivity|]. split; [reflexivity|].
    split; [reflexivity|]. split; [reflexivity|].
    intros s i lambda Hin Hdesc. cbn in Hin.
    repeat (destruct Hin as [<-|Hin]; [try discriminate Hdesc|]); [| |done].
    + eexists. split; [reflexivity|]. cbn. f_equal. subst D. simpl in *. lra.
    + eexists. split; [reflexivity|]. cbn. f_equal. subst D. simpl in *. lra.
  - do 2 eexists. split; [reflexivity|]. split; [reflexivity|].
    split; [reflexivity|]. split; [reflexivity|].
    intros s i lambda Hin Hdesc. cbn in Hin.
    repeat (destruct Hin as [<-|Hin]; [try discriminate Hdesc|]). done.
Qed.

End Characteristic.

Lemma characteristic_polynomial_roots_witness :
  let A := [[2%R; 0%R]; [0%R; 3%R]] in
  let fmt := fun _ : R => ""%string in
  0 < 2 ∧ dims 2 2 A ∧
  ∃ P, calculateCharacteristicPolynomial fmt A = Ok P ∧
    coefficients P
    = [1%R; (- (mget A 0 0 + mget A 1 1))%R;
       (mget A 0 0 * mget A 1 1 - mget A 0 1 * mget A 1 0)%R] ∧
    (length (roots P) = 2 ∨ roots P = []) ∧
    ∀ r, In r (roots P) →
      ∃ M, subtractMatrices A (scalarMultiply (identity 2) r) = Ok M ∧
           determinant M = Ok 0%R.
Proof.
  cbv zeta.
  assert (dims 2 2 [[2%R; 0%R]; [0%R; 3%R]]) as Hd
    by (split; [reflexivity|repeat constructor]).
  split; [lia|]. split; [exact Hd|].
  exact (characteristic_polynomial_roots (fun _ => ""%string) 2 _
           ltac:(lia) Hd).
Defined.

Lemma eigenvalue_trace_matches_roots_witness :
  let A := [[2%R; 0%R]; [0%R; 3%R]] in
  let fmt := fun _ : R => ""%string in
  dims 2 2 A ∧
  ∃ steps P,
    InteractiveAnimations.generateEigenvalueSteps A = Ok steps ∧
    calculateCharacteristicPolynomial fmt A = Ok P ∧
    InteractiveAnimations.shown_eigenvalues steps = roots P ∧
    map InteractiveAnimations.eigen_id steps = seq 0 (length steps) ∧
    ∀ s i lambda, In s steps →
      InteractiveAnimations.eigen_description s
      = InteractiveAnimations.EigenVector i lambda →
      ∃ M, InteractiveAnimations.eigen_matrix s
           = InteractiveAnimations.Numeric M ∧
           determinant M = Ok 0%R.
Proof.
  cbv zeta.
  assert (dims 2 2 [[2%R; 0%R]; [0%R; 3%R]]) as Hd
    by (split; [reflexivity|repeat constructor]).
  split; [exact Hd|].
  exact (eigenvalue_trace_matches_roots (fun _ => ""%string) _ Hd).
Defined.

(** ** The panels *)

Section Panels.
Context {num : Type} `{Arith num}.
Implicit Types (A B M : Matrix num).

Lemma js_set_lt {X} (hole : X) (l : list X) j x :
  j < length l → js_set hole l j x = <[j := x]> l.
Proof.
  intros Hj. unfold js_set. replace (S j - length l) with 0 by lia.
  simpl. by rewrite app_nil_r.
Qed.

Lemma rank_ok M : M ≠ [] → ∃ r, rank M = Ok r.
Proof. destruct M; [done|]. intros _. by eexists. Qed.

(** X21: on a valid matrix the operations panel can report two errors
    only: its own square test, for the determinant and the inverse of a
    matrix that is not square, and the singular matrix of [inverse].
    The square tests of the core are never reached. *)
Theorem advanced_calculate_errors M operation e :
  isValidMatrix M = true →
  AdvancedOperations.calculate M operation = Throw e →
  (AdvancedOperations.requiresSquare operation = true ∧
   length M ≠ first_row_length M ∧
   e = Error "This operation requires a square matrix") ∨
  (operation = AdvancedOperations.op_inverse ∧
   length M = first_row_length M ∧
   e = Error "Matrix is singular and cannot be inverted").
Proof.
  intros (rows & cols & Hpos & Hd)%isValidMatrix_dims.
  destruct (dims_inv_pos _ _ _ Hpos Hd) as (row0 & rest & -> & Hrow0 & _).
  pose proof (dims_length _ _ _ Hd) as Hl.
  change (first_row_length (row0 :: rest)) with (length row0).
  unfold AdvancedOperations.calculate. rewrite Hl, Hrow0.
  destruct operation; cbn [AdvancedOperations.requiresSquare rbind].
  - by cbn.
  - destruct (Nat.eqb_spec rows cols) as [<-|Hne]; cbn [negb rbind].
    + destruct (determinant_ok rows (row0 :: rest) Hpos Hd) as [det ->]. done.
    + intros [= <-]. by left.
  - destruct (Nat.eqb_spec rows cols) as [<-|Hne]; cbn [negb rbind].
    + destruct (inverse_cases rows (row0 :: rest) Hpos Hd) as (det & _ & Hinv).
      destruct (ltb (nabs det) tol).
      * rewrite Hinv. intros [= <-]. by right.
      * destruct Hinv as (R & -> & _). done.
    + intros [= <-]. by left.
  - by cbn.
  - by cbn.
Qed.

Lemma makeSquareMatrix_rows rows cols A size i :
  dims rows cols A → cols ≤ size → i < size →
  ∀ f,
  for_range 0 cols
    (fun j newMatrix =>
       <[i := js_set nan (default [] (newMatrix !! i)) j (mget A i j)]> newMatrix)
    (tabulate size size f)
  = tabulate size size
      (fun a b => if (a =? i) && (b <? cols) then mget A a b else f a b).
Proof.
  intros Hd Hc Hi f.
  assert (∀ k, k ≤ cols →
    for_range 0 k
      (fun j newMatrix =>
         <[i := js_set nan (default [] (newMatrix !! i)) j (mget A i j)]> newMatrix)
      (tabulate size size f)
    = tabulate size size
        (fun a b => if (a =? i) && (b <? k) then mget A a b else f a b))
    as Hloop.
  { induction k as [|k IH]; intros Hk.
    - rewrite for_range_ge by lia. apply tabulate_ext. intros a b _ _.
      by rewrite andb_false_r.
    - rewrite for_range_snoc, IH by lia.
      rewrite js_set_lt.
      + rewrite tabulate_set_cell by lia. apply tabulate_ext.
        intros a b Ha Hb. nat_cases; congruence.
      + rewrite (dims_row size size) by (apply dims_tabulate || lia). lia. }
  by apply Hloop.
Qed.

(** X22: [makeSquareMatrix] pads a rectangular matrix with zeros to the
    square of its larger side and keeps every entry in place; the
    determinant of the result can then be calculated. *)
Theorem makeSquareMatrix_pads rows cols A :
  0 < rows → dims rows cols A →
  let size := Nat.max rows cols in
  AdvancedOperations.makeSquareMatrix A
  = tabulate size size
      (fun i j => if (i <? rows) && (j <? cols) then mget A i j else zero) ∧
  ∃ det, AdvancedOperations.calculate (AdvancedOperations.makeSquareMatrix A)
           AdvancedOperations.op_determinant
         = Ok (AdvancedOperations.ResultNumber det).
Proof.
  intros Hpos Hd size.
  assert (AdvancedOperations.makeSquareMatrix A
          = tabulate size size
              (fun i j => if (i <? rows) && (j <? cols) then mget A i j else zero))
    as Heq.
  { unfold AdvancedOperations.makeSquareMatrix.
    assert (first_row_length A = cols) as ->
      by (apply (dims_row rows cols A 0 Hd); lia).
    rewrite (dims_length _ _ _ Hd). fold size.
    replace (Nat.min rows size) with rows by lia.
    replace (Nat.min cols size) with cols by lia.
    rewrite createMatrix_tabulate.
    assert (∀ k, k ≤ rows →
      for_range 0 k
        (fun i newMatrix =>
           for_range 0 cols
             (fun j newMatrix =>
                <[i := js_set nan (default [] (newMatrix !! i)) j (mget A i j)]>
                  newMatrix)
             newMatrix)
        (tabulate size size (fun _ _ => zero))
      = tabulate size size
          (fun i j => if (i <? k) && (j <? cols) then mget A i j else zero))
      as Hloop.
    { induction k as [|k IH]; intros Hk.
      - rewrite for_range_ge by lia. by apply tabulate_ext.
      - rewrite for_range_snoc, IH by lia.
        rewrite (makeSquareMatrix_rows rows cols A size k Hd) by lia.
        apply tabulate_ext. intros a b Ha Hb. nat_cases. }
    by apply Hloop. }
  split; [exact Heq|]. rewrite Heq.
  assert (0 < size) as Hs by lia.
  pose proof (dims_tabulate size size
    (fun i j => if (i <? rows) && (j <? cols) then mget A i j else zero)) as Hdt.
  destruct (determinant_ok size _ Hs Hdt) as [det Hdet]. exists det.
  destruct (dims_inv_pos _ _ _ Hs Hdt) as (row0 & rest & Hrows & Hrow0 & _).
  pose proof (dims_length _ _ _ Hdt) as Hl.
  unfold AdvancedOperations.calculate.
  cbn [AdvancedOperations.requiresSquare]. rewrite Hdet.
  rewrite Hrows in Hl |- *. by rewrite Hl, Hrow0, Nat.eqb_refl.
Qed.

End Panels.

Lemma advanced_calculate_errors_witness :
  let M := qmat [[1; 2; 3]; [4; 5; 6]]%Q in
  let e := Error "This operation requires a square matrix" in
  isValidMatrix M = true ∧
  AdvancedOperations.calculate M AdvancedOperations.op_determinant = Throw e ∧
  ((AdvancedOperations.requiresSquare AdvancedOperations.op_determinant = true ∧
    length M ≠ first_row_length M ∧
    e = Error "This operation requires a square matrix") ∨
   (AdvancedOperations.op_determinant = AdvancedOperations.op_inverse ∧
    length M = first_row_length M ∧
    e = Error "Matrix is singular and cannot be inverted")).
Proof.
  cbv zeta. split; [reflexivity|]. split; [reflexivity|].
  apply (advanced_calculate_errors (num:=Qc) (qmat [[1; 2; 3]; [4; 5; 6]]%Q)
           AdvancedOperations.op_determinant); reflexivity.
Defined.

Lemma makeSquareMatrix_pads_witness :
  let A := qmat [[1; 2; 3]; [4; 5; 6]]%Q in
  0 < 2 ∧ dims 2 3 A ∧
  AdvancedOperations.makeSquareMatrix A
  = tabulate 3 3 (fun i j => if (i <? 2) && (j <? 3) then mget A i j else zero) ∧
  ∃ det, AdvancedOperations.calculate (AdvancedOperations.makeSquareMatrix A)
           AdvancedOperations.op_determinant
         = Ok (AdvancedOperations.ResultNumber det).
Proof.
  cbv zeta.
  assert (dims 2 3 (qmat [[1; 2; 3]; [4; 5; 6]]%Q)) as Hd
    by (split; [reflexivity|repeat constructor]).
  split; [lia|]. split; [exact Hd|].
  exact (makeSquareMatrix_pads (num:=Qc) 2 3 _ ltac:(lia) Hd).
Defined.

(** ** Keeping the dimensions of the inputs in step *)

Section Synchronisation.
Context {num : Type} `{Arith num}.
Implicit Types (A B M : Matrix num) (b v : Vector num).

Lemma vector_ext (v w : Vector num) :
  length v = length w → (∀ i, i < length v → vget v i = vget w i) → v = w.
Proof.
  intros Hl Hext. apply list_eq. intros i.
  destruct (decide (i < length v)) as [Hi|Hi].
  - specialize (Hext i Hi). unfold vget in Hext.
    destruct (lookup_lt_is_Some_2 v i Hi) as [x Hx].
    destruct (lookup_lt_is_Some_2 w i) as [y Hy]; [lia|].
    rewrite Hx, Hy in *. simpl in Hext. by subst.
  - rewrite !lookup_ge_None_2 by lia. done.
Qed.

Lemma vget_insert (v : Vector num) i x j :
  i < length v → vget (<[i := x]> v) j = if j =? i then x else vget v j.
Proof.
  intros Hi. unfold vget. destruct (Nat.eqb_spec j i) as [->|Hne].
  - by rewrite list_lookup_insert_eq.
  - by rewrite list_lookup_insert_ne.
Qed.

Lemma vget_replicate n (x : num) i : i < n → vget (replicate n x) i = x.
Proof. intros Hi. unfold vget. by rewrite lookup_replicate_2. Qed.

Lemma sync_loop rows b k :
  k ≤ rows →
  let v := for_range 0 k
             (fun i newVector => js_set nan newVector i (vget b i))
             (replicate rows zero) in
  length v = rows ∧
  ∀ i, i < rows → vget v i = if i <? k then vget b i else zero.
Proof.
  induction k as [|k IH]; intros Hk; cbv zeta.
  - rewrite for_range_ge by lia. split; [by rewrite length_replicate|].
    intros i Hi. by rewrite vget_replicate.
  - rewrite for_range_snoc by lia.
    destruct IH as [Hlen Hget]; [lia|]. cbv zeta in Hlen, Hget.
    rewrite js_set_lt by lia. split; [by rewrite length_insert|].
    intros i Hi. rewrite vget_insert, Hget by lia. nat_cases; congruence.
Qed.

(** X16: after [syncDimensions] the right-hand side has one entry per
    row of the matrix, the entries it had are kept in place and the new
    ones are 0, and [solveSystem] passes its dimension test. *)
Theorem syncDimensions_fits A b method :
  let b' := syncDimensions A b in
  length b' = length A ∧
  (∀ i, i < length A → vget b' i = if i <? length b then vget b i else zero) ∧
  solveSystem A b' method
  = match method with
    | by_inverse => let* r := solveByInverse A b' in Ok r.1
    | by_rref => solveByRREF A b'
    end.
Proof.
  cbv zeta.
  assert (length (syncDimensions A b) = length A ∧
          ∀ i, i < length A →
               vget (syncDimensions A b) i
               = if i <? length b then vget b i else zero) as [Hlen Hget].
  { unfold syncDimensions.
    destruct (Nat.eqb_spec (length b) (length A)) as [Heq|Hne]; cbn [negb].
    - split; [done|]. intros i Hi. nat_cases.
    - destruct (sync_loop (length A) b (Nat.min (length b) (length A)))
        as [Hlen Hget]; [lia|]. cbv zeta in Hlen, Hget.
      split; [done|]. intros i Hi. rewrite Hget by done.
      nat_cases. }
  split; [done|]. split; [done|].
  unfold solveSystem. by rewrite Hlen, Nat.eqb_refl.
Qed.

Lemma first_row_length_createMatrix rows cols (x : num) :
  0 < rows → first_row_length (createMatrix rows cols x) = cols.
Proof.
  intros Hr. unfold first_row_length, createMatrix.
  rewrite lookup_replicate_2 by done. simpl. by rewrite length_replicate.
Qed.

Lemma same_dims_first_row A B :
  A ≠ [] → length A = length B → first_row_length A = first_row_length B →
  same_dims A B = Ok true.
Proof.
  intros HA Hl Hc. unfold same_dims. rewrite Hl, Nat.eqb_refl. cbn [negb].
  destruct A as [|a0 ra]; [done|]. destruct B as [|b0 rb]; [done|].
  unfold first_row_length in Hc. simpl in Hc. by rewrite Hc, Nat.eqb_refl.
Qed.

Lemma first_row_differs_false M cols :
  first_row_differs M cols = false ↔ M ≠ [] ∧ first_row_length M = cols.
Proof.
  unfold first_row_differs, first_row_length. destruct M as [|row0 rest]; simpl.
  - split; [done|by intros [? _]].
  - destruct (Nat.eqb_spec (length row0) cols); simpl; split; try done.
    by intros [_ ?].
Qed.

(** X23: after [syncMatrixDimensions] each matrix is the one it was or
    a zero matrix of the larger dimensions, and the addition or
    subtraction goes through, whatever the two matrices were, unless both
    are empty. *)
Theorem syncMatrixDimensions_then_calculate operation A B scalar :
  operation = BasicOperations.op_add ∨ operation = BasicOperations.op_subtract →
  A ≠ [] ∨ B ≠ [] →
  let rows := Nat.max (length A) (length B) in
  let cols := Nat.max (first_row_length A) (first_row_length B) in
  let AB := BasicOperations.syncMatrixDimensions operation A B in
  (AB.1 = A ∨ AB.1 = createMatrix rows cols zero) ∧
  (AB.2 = B ∨ AB.2 = createMatrix rows cols zero) ∧
  length AB.1 = rows ∧ length AB.2 = rows ∧
  ∃ R, BasicOperations.calculate operation AB.1 AB.2 scalar = Ok R.
Proof.
  intros Hop Hne rows cols AB.
  assert (0 < rows) as Hrows.
  { subst rows. destruct Hne as [Hne|Hne]; [destruct A|destruct B];
      try done; simpl; lia. }
  assert (∀ M, let M' := if negb (length M =? rows) || first_row_differs M cols
                         then createMatrix rows cols zero else M in
               (M' = M ∨ M' = createMatrix rows cols zero) ∧
               M' ≠ [] ∧ length M' = rows ∧ first_row_length M' = cols)
    as Hkeep.
  { intros M. cbv zeta.
    destruct (Nat.eqb_spec (length M) rows) as [Hl|Hl]; cbn [negb orb].
    - destruct (first_row_differs M cols) eqn:Hf.
      + split; [by right|]. unfold createMatrix at 1 2.
        rewrite length_replicate, first_row_length_createMatrix by done.
        split; [|done]. destruct rows; [lia|done].
      + apply first_row_differs_false in Hf as [? ?]. split; [by left|done].
    - split; [by right|]. unfold createMatrix at 1 2.
      rewrite length_replicate, first_row_length_createMatrix by done.
      split; [|done]. destruct rows; [lia|done]. }
  assert (AB = (if negb (length A =? rows) || first_row_differs A cols
                then createMatrix rows cols zero else A,
                if negb (length B =? rows) || first_row_differs B cols
                then createMatrix rows cols zero else B)) as ->.
  { subst AB. by destruct Hop as [-> | ->]. }
  destruct (Hkeep A) as (HA1 & HA2 & HA3 & HA4).
  destruct (Hkeep B) as (HB1 & HB2 & HB3 & HB4).
  cbn [fst snd]. split; [done|]. split; [done|]. split; [done|]. split; [done|].
  destruct Hop as [-> | ->]; cbn [BasicOperations.calculate].
  - unfold addMatrices. rewrite same_dims_first_row by congruence.
    by eexists.
  - unfold subtractMatrices. rewrite same_dims_first_row by congruence.
    by eexists.
Qed.

End Synchronisation.

Lemma syncMatrixDimensions_then_calculate_witness :
  let A := qmat [[1; 2]; [3; 4]]%Q in
  let B := qmat [[1; 2; 3]]%Q in
  (BasicOperations.op_add = BasicOperations.op_add ∨
   BasicOperations.op_add = BasicOperations.op_subtract) ∧
  (A ≠ [] ∨ B ≠ []) ∧
  let rows := Nat.max (length A) (length B) in
  let cols := Nat.max (first_row_length A) (first_row_length B) in
  let AB := BasicOperations.syncMatrixDimensions BasicOperations.op_add A B in
  (AB.1 = A ∨ AB.1 = createMatrix rows cols zero) ∧
  (AB.2 = B ∨ AB.2 = createMatrix rows cols zero) ∧
  length AB.1 = rows ∧ length AB.2 = rows ∧
  ∃ R, BasicOperations.calculate BasicOperations.op_add AB.1 AB.2 zero = Ok R.
Proof.
  intros A B.
  assert (A ≠ [] ∨ B ≠ []) as Hne by (left; discriminate).
  split; [by left|]. split; [exact Hne|].
  apply (@syncMatrixDimensions_then_calculate Qc Qc_arith
           BasicOperations.op_add A B zero); [by left | exact Hne].
Defined.

(** ** The vector panel: the two vectors keep one length *)

Section VectorPanel.
Context {num : Type} `{Arith num} `{Trans num}.
Variable parseFloat : string → num.
Variable PI : num.

Lemma handle_paired ev st :
  VectorOperations.paired st →
  VectorOperations.enabled ev st = true →
  VectorOperations.paired (VectorOperations.handle parseFloat ev st).
Proof.
  intros [Hl Hge] Hen. destruct ev as [[] index value| |]; simpl in *.
  - apply Nat.ltb_lt in Hen. unfold VectorOperations.paired. simpl.
    by rewrite js_set_lt, length_insert.
  - apply Nat.ltb_lt in Hen. unfold VectorOperations.paired. simpl.
    by rewrite js_set_lt, length_insert.
  - unfold VectorOperations.paired. simpl. rewrite !length_app. simpl. lia.
  - unfold VectorOperations.removeDimension.
    destruct (Nat.ltb_spec 2 (length (VectorOperations.vectorA st))).
    + unfold VectorOperations.paired. simpl. rewrite !length_take. lia.
    + done.
Qed.

Lemma run_paired evs : ∀ st st',
  VectorOperations.paired st →
  VectorOperations.run parseFloat evs st = Some st' →
  VectorOperations.paired st'.
Proof.
  induction evs as [|ev evs IH]; intros st st' Hp; simpl.
  - by intros [= <-].
  - destruct (VectorOperations.enabled ev st) eqn:Hen; [|done].
    apply IH. by apply handle_paired.
Qed.

(** X24: whatever edits and dimension changes lead from the initial
    state to a state of the vector panel, its two vectors have one
    length, of at least two entries; so the dot product never fails with
    the dimension error, and the cross product is computed exactly in
    dimension three. *)
Theorem vector_panel_lengths evs st :
  VectorOperations.run parseFloat evs VectorOperations.initial = Some st →
  length (VectorOperations.vectorA st) = length (VectorOperations.vectorB st) ∧
  2 ≤ length (VectorOperations.vectorA st) ∧
  (∃ r, VectorOperations.calculate PI VectorOperations.op_dot st
        = Ok (VectorOperations.ResultNumber r)) ∧
  ((∃ v, VectorOperations.calculate PI VectorOperations.op_cross st
         = Ok (VectorOperations.ResultVector v))
   ↔ length (VectorOperations.vectorA st) = 3).
Proof.
  intros Hrun.
  assert (VectorOperations.paired VectorOperations.initial) as Hinit
    by (split; simpl; lia).
  destruct (run_paired evs _ _ Hinit Hrun) as [Hl Hge].
  split; [done|]. split; [done|]. split.
  - unfold VectorOperations.calculate. cbn [VectorOperations.needs3D andb].
    unfold dotProduct.
    rewrite Hl, Nat.eqb_refl. cbn [negb rbind]. by eexists.
  - unfold VectorOperations.calculate. cbn [VectorOperations.needs3D andb].
    unfold crossProduct.
    rewrite <- Hl.
    destruct (Nat.eqb_spec (length (VectorOperations.vectorA st)) 3) as [H3|H3]; cbn.
    + split; [done|]. intros _. by eexists.
    + split; [by intros [v Hv]|done].
Qed.

End VectorPanel.

Lemma vector_panel_lengths_witness :
  let parseFloat := fun _ : string => 5%float in
  let T := float_trans (fun x => x) in
  let evs := [VectorOperations.AddDimension;
              VectorOperations.Change VectorOperations.vecA 3 "5";
              VectorOperations.RemoveDimension;
              VectorOperations.RemoveDimension] in
  let st := VectorOperations.mkState [1; 0]%float [0; 1]%float in
  VectorOperations.run parseFloat evs VectorOperations.initial = Some st ∧
  length (VectorOperations.vectorA st) = length (VectorOperations.vectorB st) ∧
  2 ≤ length (VectorOperations.vectorA st) ∧
  (∃ r, VectorOperations.calculate 3.141592653589793%float
          VectorOperations.op_dot st
        = Ok (VectorOperations.ResultNumber r)) ∧
  ((∃ v, VectorOperations.calculate 3.141592653589793%float
           VectorOperations.op_cross st
         = Ok (VectorOperations.ResultVector v))
   ↔ length (VectorOperations.vectorA st) = 3).
Proof.
  intros parseFloat T evs st.
  assert (VectorOperations.run parseFloat evs VectorOperations.initial
          = Some st) as Hrun by (vm_compute; reflexivity).
  split; [exact Hrun|].
  exact (@vector_panel_lengths float float_arith T parseFloat
           3.141592653589793%float evs st Hrun).
Defined.

(** ** The matrix editor keeps its matrix rectangular and in bounds *)

Section Editor.
Context {num : Type} `{Arith num}.
Variable parseFloat : string → num.
Variables maxRows maxCols : nat.
Implicit Types (M : Matrix num).

Lemma first_row_length_dims rows cols M :
  0 < rows → dims rows cols M → first_row_length M = cols.
Proof. intros Hr Hd. apply (dims_row rows cols M 0 Hd Hr). Qed.

Lemma dims_app_row rows cols M row :
  dims rows cols M → length row = cols → dims (S rows) cols (M ++ [row]).
Proof.
  intros [Hl Hall] Hrow. split.
  - rewrite length_app. simpl. lia.
  - apply Forall_app. split; [done|]. by constructor.
Qed.

Lemma dims_take_rows rows cols M k :
  dims rows cols M → k ≤ rows → dims k cols (take k M).
Proof.
  intros [Hl Hall] Hk. split.
  - rewrite length_take. lia.
  - by apply Forall_take.
Qed.

Lemma dims_map_rows rows cols cols' M (f : list num → list num) :
  dims rows cols M → (∀ row, length row = cols → length (f row) = cols') →
  dims rows cols' (map f M).
Proof.
  intros [Hl Hall] Hf. split; [by rewrite length_map|].
  apply Forall_map. eapply Forall_impl; [|exact Hall]. exact Hf.
Qed.

Lemma handle_editable ev M :
  MatrixInput.editable maxRows maxCols M →
  MatrixInput.editable maxRows maxCols
    (MatrixInput.handle parseFloat maxRows maxCols ev M).
Proof.
  intros (rows & cols & Hd & Hr & Hc).
  pose proof (dims_length _ _ _ Hd) as Hl.
  pose proof (first_row_length_dims rows cols M ltac:(lia) Hd) as Hf.
  destruct ev as [row col value| | | | |]; simpl.
  - exists rows, cols. split; [|done]. unfold MatrixInput.handleCellChange.
    rewrite (imap_tabulate rows cols M
               (fun i j c => if (i =? row) && (j =? col)
                             then parse_cell parseFloat value else c) Hd).
    apply dims_tabulate.
  - unfold MatrixInput.addRow. rewrite Hl, Hf.
    destruct (Nat.ltb_spec rows maxRows).
    + exists (S rows), cols. split; [|lia].
      apply dims_app_row; [done|by rewrite length_replicate].
    + by exists rows, cols.
  - unfold MatrixInput.removeRow. rewrite Hl.
    destruct (Nat.ltb_spec 1 rows).
    + exists (rows - 1), cols. split; [|lia]. apply (dims_take_rows rows); [done|lia].
    + by exists rows, cols.
  - unfold MatrixInput.addCol. rewrite Hf.
    destruct (Nat.ltb_spec cols maxCols).
    + exists rows, (S cols). split; [|lia]. apply (dims_map_rows rows cols); [done|].
      intros r Hlen. rewrite length_app. simpl. lia.
    + by exists rows, cols.
  - unfold MatrixInput.removeCol. rewrite Hf.
    destruct (Nat.ltb_spec 1 cols).
    + exists rows, (cols - 1). split; [|lia]. apply (dims_map_rows rows cols); [done|].
      intros r Hlen. rewrite length_take. lia.
    + by exists rows, cols.
  - unfold MatrixInput.resetMatrix. rewrite Hl, Hf. exists rows, cols.
    split; [|done]. rewrite createMatrix_tabulate. apply dims_tabulate.
Qed.

(** X25: the editor keeps its matrix rectangular, non-empty and within
    the bounds on rows and columns through every sequence of edits,
    added and removed rows and columns, and resets; the matrix it hands
    on is always a valid matrix. *)
Theorem editor_keeps_matrix_valid evs M :
  MatrixInput.editable maxRows maxCols M →
  let M' := foldl (fun m ev => MatrixInput.handle parseFloat maxRows maxCols ev m)
                  M evs in
  MatrixInput.editable maxRows maxCols M' ∧ isValidMatrix M' = true.
Proof.
  intros HM. cbv zeta.
  assert (MatrixInput.editable maxRows maxCols
            (foldl (fun m ev => MatrixInput.handle parseFloat maxRows maxCols ev m)
                   M evs)) as Hed.
  { revert M HM. induction evs as [|ev evs IH]; intros M HM; [done|].
    simpl. apply IH. by apply handle_editable. }
  split; [done|]. destruct Hed as (rows & cols & Hd & Hr & _).
  apply isValidMatrix_dims. exists rows, cols. split; [lia|done].
Qed.

(** X26: in the editor, removing the row or the column that was just
    added gives the matrix back. *)
Theorem editor_add_then_remove rows cols M :
  dims rows cols M → 1 ≤ rows → 1 ≤ cols →
  (rows < maxRows →
   MatrixInput.removeRow (MatrixInput.addRow maxRows M) = M) ∧
  (cols < maxCols →
   MatrixInput.removeCol (MatrixInput.addCol maxCols M) = M).
Proof.
  intros Hd Hr Hc. pose proof (dims_length _ _ _ Hd) as Hl.
  pose proof (first_row_length_dims rows cols M ltac:(lia) Hd) as Hf.
  split.
  - intros Hlt. unfold MatrixInput.addRow. rewrite Hl.
    destruct (Nat.ltb_spec rows maxRows); [|lia].
    unfold MatrixInput.removeRow. rewrite length_app, Hl. simpl.
    destruct (Nat.ltb_spec 1 (rows + 1)); [|lia].
    replace (rows + 1 - 1) with (length M) by lia. by rewrite take_app_length.
  - intros Hlt. unfold MatrixInput.addCol. rewrite Hf.
    destruct (Nat.ltb_spec cols maxCols); [|lia].
    unfold MatrixInput.removeCol.
    assert (first_row_length (map (fun row => row ++ [zero]) M) = S cols) as ->.
    { apply (first_row_length_dims rows); [lia|].
      apply (dims_map_rows rows cols); [done|].
      intros r Hlen. rewrite length_app. simpl. lia. }
    destruct (Nat.ltb_spec 1 (S cols)); [|lia].
    rewrite map_map. rewrite <- (map_id M) at 2. apply map_ext. intros row.
    rewrite length_app. simpl.
    replace (length row + 1 - 1) with (length row) by lia.
    by rewrite take_app_length.
Qed.

End Editor.

Lemma editor_keeps_matrix_valid_witness :
  let parseFloat := fun _ : string => 5%float in
  let M := [[1; 2]; [3; 4]]%float in
  let evs := [MatrixInput.AddRow; MatrixInput.CellChange 2 1 "5";
              MatrixInput.AddCol; MatrixInput.RemoveRow;
              MatrixInput.ResetMatrix] in
  MatrixInput.editable 6 6 M ∧
  let M' := foldl (fun m ev => MatrixInput.handle parseFloat 6 6 ev m) M evs in
  MatrixInput.editable 6 6 M' ∧ isValidMatrix M' = true.
Proof.
  intros parseFloat M evs.
  assert (MatrixInput.editable 6 6 M) as HM.
  { exists 2, 2. split; [|lia]. split; [reflexivity|repeat constructor]. }
  split; [exact HM|].
  exact (@editor_keeps_matrix_valid float float_arith parseFloat 6 6 evs M HM).
Defined.

Lemma editor_add_then_remove_witness :
  let M := [[1; 2]; [3; 4]]%float in
  dims 2 2 M ∧ 1 ≤ 2 ∧
  (2 < 6 → MatrixInput.removeRow (MatrixInput.addRow 6 M) = M) ∧
  (2 < 6 → MatrixInput.removeCol (MatrixInput.addCol 6 M) = M).
Proof.
  intros M.
  assert (dims 2 2 M) as Hd by (split; [reflexivity|repeat constructor]).
  split; [exact Hd|]. split; [lia|].
  exact (@editor_add_then_remove float float_arith 6 6 2 2 M Hd
           ltac:(lia) ltac:(lia)).
Defined.

(** ** The SVD trace *)

Section SVDTrace.
Context {num : Type} `{Arith num}.
Hypothesis mul_comm : ∀ x y : num, mul x y = mul y x.
Implicit Types (A : Matrix num).

(** X27: on a rectangular matrix the SVD trace has four steps; the two
    products it shows are square, of the sizes of the columns and of the
    rows, and, multiplication being commutative, symmetric. *)
Theorem generateSVDSteps_symmetric rows cols A :
  0 < rows → 0 < cols → dims rows cols A →
  ∃ AtA AAt,
    InteractiveAnimations.generateSVDSteps A
    = Ok [InteractiveAnimations.mkSVDStep 0 InteractiveAnimations.SVDOriginal A;
          InteractiveAnimations.mkSVDStep 1 InteractiveAnimations.SVDComputeAtA AtA;
          InteractiveAnimations.mkSVDStep 2 InteractiveAnimations.SVDComputeAAt AAt;
          InteractiveAnimations.mkSVDStep 3 InteractiveAnimations.SVDComponents A] ∧
    dims cols cols AtA ∧ dims rows rows AAt ∧
    transpose AtA = Ok AtA ∧ transpose AAt = Ok AAt.
Proof.
  intros Hr Hc HA. unfold InteractiveAnimations.generateSVDSteps.
  rewrite (transpose_tabulate rows cols A Hr HA). cbn [rbind].
  rewrite (multiplyMatrices_tabulate cols rows cols)
    by (done || apply dims_tabulate).
  cbn [rbind].
  rewrite (multiplyMatrices_tabulate rows cols rows)
    by (done || apply dims_tabulate).
  cbn [rbind]. do 2 eexists. split; [reflexivity|].
  split; [apply dims_tabulate|]. split; [apply dims_tabulate|].
  split.
  - rewrite (transpose_tabulate cols cols) by (done || apply dims_tabulate).
    f_equal. apply tabulate_ext. intros i j Hi Hj.
    rewrite mget_tabulate by done. apply sumn_ext. intros k Hk.
    rewrite !mget_tabulate by done. apply mul_comm.
  - rewrite (transpose_tabulate rows rows) by (done || apply dims_tabulate).
    f_equal. apply tabulate_ext. intros i j Hi Hj.
    rewrite mget_tabulate by done. apply sumn_ext. intros k Hk.
    rewrite !mget_tabulate by done. apply mul_comm.
Qed.

End SVDTrace.

Lemma generateSVDSteps_symmetric_witness :
  let A := [[0.1; 0.2; 0.3]; [4; 5; 6]]%float in
  0 < 2 ∧ 0 < 3 ∧ dims 2 3 A ∧
  ∃ AtA AAt,
    InteractiveAnimations.generateSVDSteps A
    = Ok [InteractiveAnimations.mkSVDStep 0 InteractiveAnimations.SVDOriginal A;
          InteractiveAnimations.mkSVDStep 1 InteractiveAnimations.SVDComputeAtA AtA;
          InteractiveAnimations.mkSVDStep 2 InteractiveAnimations.SVDComputeAAt AAt;
          InteractiveAnimations.mkSVDStep 3 InteractiveAnimations.SVDComponents A] ∧
    dims 3 3 AtA ∧ dims 2 2 AAt ∧
    transpose AtA = Ok AtA ∧ transpose AAt = Ok AAt.
Proof.
  cbv zeta.
  assert (dims 2 3 [[0.1; 0.2; 0.3]; [4; 5; 6]]%float) as Hd
    by (split; [reflexivity|repeat constructor]).
  split; [lia|]. split; [lia|]. split; [exact Hd|].
  apply (@generateSVDSteps_symmetric float float_arith float_mul_comm 2 3);
    [lia|lia|exact Hd].
Defined.

(** ** The player *)

(** From the first step, [k] presses of the forward button lead to step
    [k], and no further than the last step; the back button undoes a
    forward step. *)
Lemma player_stays_in_range steps k :
  0 < steps →
  Nat.iter k (InteractiveAnimations.nextStep steps) 0 = Nat.min k (steps - 1) ∧
  ∀ current, current < steps →
    InteractiveAnimations.nextStep steps current < steps ∧
    InteractiveAnimations.prevStep current < steps ∧
    (current < steps - 1 →
     InteractiveAnimations.prevStep
       (InteractiveAnimations.nextStep steps current) = current).
Proof.
  intros Hs. split.
  - induction k as [|k IH]; [done|]. rewrite Nat.iter_succ, IH.
    unfold InteractiveAnimations.nextStep.
    destruct (Nat.ltb_spec (Nat.min k (steps - 1)) (steps - 1)); lia.
  - intros current Hc.
    unfold InteractiveAnimations.nextStep, InteractiveAnimations.prevStep.
    destruct (Nat.ltb_spec current (steps - 1)), (Nat.ltb_spec 0 current);
      repeat split; try lia;
      try (destruct (Nat.ltb_spec 0 (current + 1)); lia).
Qed.

(** ** The step-by-step dialog against the animation page *)

Section DialogTraces.
Context {num : Type} `{Arith num}.
Implicit Types (g : @GaussState num) (t : StepByStepMode.TraceState num).

Lemma same_trace_push g t result d1 h1 d2 h2 :
  StepByStepMode.same_trace g t →
  StepByStepMode.same_trace (push_step g result d1 h1)
    (StepByStepMode.push t result d2 h2).
Proof.
  intros (Hres & Hrow & Hid & Hms & Hg & Ht).
  unfold StepByStepMode.same_trace, push_step, StepByStepMode.push. simpl.
  rewrite !map_app, Hms, Hg, Ht, <- Hid. simpl.
  rewrite Nat.add_1_r, !seq_S. done.
Qed.

Lemma same_trace_col rows cols col g t :
  StepByStepMode.same_trace g t →
  StepByStepMode.same_trace (gauss_col rows cols col g)
    (StepByStepMode.rref_step rows cols col t).
Proof.
  intros Hs. pose proof Hs as (Hres & Hrow & _).
  unfold gauss_col, StepByStepMode.rref_step. rewrite <- Hrow, <- Hres.
  destruct (negb (g_pivotRow g <? rows)); [done|].
  destruct (ltb _ tol); [done|].
  set (maxRow := find_pivot (g_result g) (g_pivotRow g) rows col).
  set (g1 := if negb (maxRow =? g_pivotRow g) then _ else g).
  set (t1 := if negb (maxRow =? g_pivotRow g) then _ else t).
  assert (StepByStepMode.same_trace g1 t1) as H1.
  { subst g1 t1. destruct (negb _); [|done]. by apply same_trace_push. }
  pose proof H1 as (Hres1 & _). rewrite <- Hres1.
  set (pivot := mget (g_result g1) (g_pivotRow g) col).
  set (g2 := if gtb (nabs (sub pivot one)) tol then _ else g1).
  set (t2 := if gtb (nabs (sub pivot one)) tol then _ else t1).
  assert (StepByStepMode.same_trace g2 t2) as H2.
  { subst g2 t2. destruct (gtb _ tol); [|done]. by apply same_trace_push. }
  set (g3 := for_range 0 rows _ g2). set (t3 := for_range 0 rows _ t2).
  assert (StepByStepMode.same_trace g3 t3) as H3.
  { subst g3 t3. apply for_range_rel; [done|].
    intros i a b _ Hab. pose proof Hab as (Hra & _). rewrite <- Hra.
    destruct (_ && _); [|done]. by apply same_trace_push. }
  destruct H3 as (Hr3 & _ & Hid3 & Hm3 & Hg3 & Ht3).
  unfold StepByStepMode.same_trace. simpl. done.
Qed.

(** X28: on a valid matrix the RREF trace of the dialog and the one of
    the animation page show the same sequence of matrices, and both
    number their steps from 0. *)
Theorem rref_traces_agree (A : Matrix num) :
  isValidMatrix A = true →
  ∃ s1 s2, generateGaussianSteps A = Ok s1 ∧
           StepByStepMode.generateSteps A StepByStepMode.op_rref = Ok s2 ∧
           map step_matrix s1 = map StepByStepMode.matrix s2 ∧
           map step_id s1 = seq 0 (length s1) ∧
           map StepByStepMode.id s2 = seq 0 (length s2).
Proof.
  destruct A as [|row0 rest]; [done|]. intros _.
  unfold generateGaussianSteps, StepByStepMode.generateSteps,
    StepByStepMode.generateRREFSteps.
  set (A := row0 :: rest).
  set (g0 := mkGauss A 0 _ 1). set (t0 := StepByStepMode.mkTrace A 0 _ 1 false).
  assert (StepByStepMode.same_trace g0 t0) as H0 by done.
  clearbody A.
  pose proof (for_range_rel StepByStepMode.same_trace 0 (length row0)
                (gauss_col (length A) (length row0))
                (StepByStepMode.rref_step (length A) (length row0)) g0 t0 H0
                (fun i a b _ Hab => same_trace_col _ _ i a b Hab))
    as (Hres & _ & Hid & Hms & Hg & Ht).
  do 2 eexists. split; [reflexivity|]. split; [reflexivity|].
  unfold StepByStepMode.push. simpl.
  rewrite !map_app, !length_app, Hms, Hg, Ht, Hres, <- Hid. simpl.
  assert (length (g_steps (for_range 0 (length row0)
                             (gauss_col (length A) (length row0)) g0))
          = g_stepId (for_range 0 (length row0)
                        (gauss_col (length A) (length row0)) g0)) as Hl1
    by (by rewrite <- (length_map step_id), Hg, length_seq).
  assert (length (StepByStepMode.t_steps
                    (for_range 0 (length row0)
                       (StepByStepMode.rref_step (length A) (length row0)) t0))
          = g_stepId (for_range 0 (length row0)
                        (gauss_col (length A) (length row0)) g0)) as Hl2
    by (by rewrite <- (length_map StepByStepMode.id), Ht, length_seq, Hid).
  rewrite Hl1, Hl2, Nat.add_1_r, !seq_S. done.
Qed.


Lemma singular_last_push t result d h :
  StepByStepMode.singular_last t → StepByStepMode.t_break t = false →
  d ≠ StepByStepMode.Singular →
  StepByStepMode.singular_last (StepByStepMode.push t result d h).
Proof.
  intros [Hid Hsing] Hb Hd. split.
  - simpl. rewrite map_app, Hid. simpl. by rewrite Nat.add_1_r, seq_S.
  - intros i s. simpl. intros Hi Hs.
    destruct (decide (i < length (StepByStepMode.t_steps t))) as [Hlt|Hge].
    + rewrite lookup_app_l in Hi by done.
      destruct (Hsing i s Hi Hs) as [Hbreak _]. congruence.
    + rewrite lookup_app_r in Hi by lia.
      destruct (i - length (StepByStepMode.t_steps t)) as [|k]; [|done].
      simpl in Hi. injection Hi as <-. done.
Qed.

Lemma singular_last_break t result h :
  StepByStepMode.singular_last t → StepByStepMode.t_break t = false →
  let t' := StepByStepMode.push t result StepByStepMode.Singular h in
  StepByStepMode.singular_last
    (StepByStepMode.mkTrace (StepByStepMode.t_result t')
       (StepByStepMode.t_pivotRow t') (StepByStepMode.t_steps t')
       (StepByStepMode.t_stepId t') true).
Proof.
  intros [Hid Hsing] Hb. split.
  - simpl. rewrite map_app, Hid. simpl. by rewrite Nat.add_1_r, seq_S.
  - intros i s. simpl. intros Hi Hs. split; [done|].
    rewrite length_app. simpl.
    destruct (decide (i < length (StepByStepMode.t_steps t))) as [Hlt|Hge].
    + rewrite lookup_app_l in Hi by done.
      destruct (Hsing i s Hi Hs) as [Hbreak _]. congruence.
    + apply lookup_lt_Some in Hi. rewrite length_app in Hi. simpl in Hi. lia.
Qed.

Lemma push_first t result d h x :
  StepByStepMode.t_steps t !! 0 = Some x →
  StepByStepMode.t_steps (StepByStepMode.push t result d h) !! 0 = Some x.
Proof. intros Hx. simpl. by apply lookup_app_l_Some. Qed.

Lemma push_break t result d h :
  StepByStepMode.t_break (StepByStepMode.push t result d h)
  = StepByStepMode.t_break t.
Proof. reflexivity. Qed.

Lemma inverse_step_inv n i t x :
  StepByStepMode.singular_last t ∧ StepByStepMode.t_steps t !! 0 = Some x →
  StepByStepMode.singular_last (StepByStepMode.inverse_step n i t) ∧
  StepByStepMode.t_steps (StepByStepMode.inverse_step n i t) !! 0 = Some x.
Proof.
  intros [Hs Hx]. unfold StepByStepMode.inverse_step.
  destruct (StepByStepMode.t_break t) eqn:Hb; [done|].
  set (maxRow := find_pivot (StepByStepMode.t_result t) i n i).
  set (t1 := if negb (maxRow =? i) then _ else t).
  assert ((StepByStepMode.singular_last t1 ∧
           StepByStepMode.t_steps t1 !! 0 = Some x) ∧
          StepByStepMode.t_break t1 = false) as [[Hs1 Hx1] Hb1].
  { subst t1. destruct (negb _); [|done]. split; [split|done].
    - by apply singular_last_push.
    - by apply push_first. }
  destruct (ltb _ tol).
  - split; [by apply singular_last_break|]. simpl. by apply lookup_app_l_Some.
  - set (t2 := StepByStepMode.push t1 _ _ _).
    assert ((StepByStepMode.singular_last t2 ∧
             StepByStepMode.t_steps t2 !! 0 = Some x) ∧
            StepByStepMode.t_break t2 = false) as H2.
    { subst t2. split; [split|done].
      - by apply singular_last_push.
      - by apply push_first. }
    apply (for_range_inv
             (fun _ t' => (StepByStepMode.singular_last t' ∧
                           StepByStepMode.t_steps t' !! 0 = Some x) ∧
                          StepByStepMode.t_break t' = false)); [lia|done|].
    intros k t' _ [[Hs' Hx'] Hb'].
    destruct (_ && _); [|done]. split; [split|done].
    + by apply singular_last_push.
    + by apply push_first.
Qed.

(** X29: on a square matrix the inverse trace starts from the augmented
    matrix, numbers its steps from 0 and always ends with the 'complete'
    step; a 'singular' step, if there is one, comes right before it. *)
Theorem inverse_trace_completes n (A : Matrix num) :
  0 < n → dims n n A →
  let steps := StepByStepMode.generateInverseSteps A in
  steps !! 0
  = Some (StepByStepMode.mkStep 0 StepByStepMode.StartInverse
            (augment_identity A) None) ∧
  (∃ final, list.last steps = Some final ∧
            StepByStepMode.description final = StepByStepMode.CompleteInverse) ∧
  map StepByStepMode.id steps = seq 0 (length steps) ∧
  ∀ i s, steps !! i = Some s →
         StepByStepMode.description s = StepByStepMode.Singular →
         S (S i) = length steps.
Proof.
  intros _ _. cbv zeta. unfold StepByStepMode.generateInverseSteps.
  set (first := StepByStepMode.mkStep 0 StepByStepMode.StartInverse
                  (augment_identity A) None).
  set (t0 := StepByStepMode.mkTrace (augment_identity A) 0 [first] 1 false).
  assert (StepByStepMode.singular_last t0 ∧
          StepByStepMode.t_steps t0 !! 0 = Some first) as H0.
  { split; [|done]. split; [done|]. intros [|i] s; [|done].
    simpl. by intros [= <-]. }
  pose proof (for_range_inv
                (fun _ t => StepByStepMode.singular_last t ∧
                            StepByStepMode.t_steps t !! 0 = Some first)
                0 (length A) (StepByStepMode.inverse_step (length A)) t0
                ltac:(lia) H0
                (fun i t _ Ht => inverse_step_inv (length A) i t first Ht))
    as [[Hid Hsing] Hfirst].
  set (t := for_range 0 (length A) _ t0) in *. simpl.
  split; [by apply lookup_app_l_Some|]. split.
  - eexists. split; [apply last_snoc|done].
  - assert (length (StepByStepMode.t_steps t) = StepByStepMode.t_stepId t) as Hl
      by (by rewrite <- (length_map StepByStepMode.id), Hid, length_seq).
    split.
    + rewrite map_app, length_app, Hid, Hl. simpl.
      by rewrite Nat.add_1_r, seq_S.
    + intros i s Hi Hs. rewrite length_app. simpl.
      destruct (decide (i < length (StepByStepMode.t_steps t))) as [Hlt|Hge].
      * rewrite lookup_app_l in Hi by done.
        destruct (Hsing i s Hi Hs) as [_ Hlast]. lia.
      * rewrite lookup_app_r in Hi by lia.
        destruct (i - length (StepByStepMode.t_steps t)) as [|k]; [|done].
        simpl in Hi. injection Hi as <-. done.
Qed.

End DialogTraces.

Lemma rref_traces_agree_witness :
  let A := [[0; 2; 1]; [1; 3; 2]; [3; 2; 1]]%float in
  isValidMatrix A = true ∧
  ∃ s1 s2, generateGaussianSteps A = Ok s1 ∧
           StepByStepMode.generateSteps A StepByStepMode.op_rref = Ok s2 ∧
           map step_matrix s1 = map StepByStepMode.matrix s2 ∧
           map step_id s1 = seq 0 (length s1) ∧
           map StepByStepMode.id s2 = seq 0 (length s2).
Proof.
  cbv zeta. split; [reflexivity|].
  apply (@rref_traces_agree float float_arith). reflexivity.
Defined.

Lemma inverse_trace_completes_witness :
  let A := tiny_pivot in
  let steps := StepByStepMode.generateInverseSteps A in
  0 < 3 ∧ dims 3 3 A ∧
  steps !! 0
  = Some (StepByStepMode.mkStep 0 StepByStepMode.StartInverse
            (augment_identity A) None) ∧
  (∃ final, list.last steps = Some final ∧
            StepByStepMode.description final = StepByStepMode.CompleteInverse) ∧
  map StepByStepMode.id steps = seq 0 (length steps) ∧
  ∀ i s, steps !! i = Some s →
         StepByStepMode.description s = StepByStepMode.Singular →
         S (S i) = length steps.
Proof.
  intros A steps.
  assert (dims 3 3 A) as Hd by (split; [reflexivity|repeat constructor]).
  split; [lia|]. split; [exact Hd|].
  apply (@inverse_trace_completes Qc Qc_arith 3 A); [lia|exact Hd].
Defined.

(** ** The LU trace computes a decomposition *)

Section LUDecomposition.
Context {num : Type} `{Arith num}.
Hypothesis Rth : ring_theory zero one add mul sub neg (@eq num).
Hypothesis div_mul :
  ∀ x y : num, ltb (nabs y) tol = false → mul (div x y) y = x.
Add Ring num_ring6 : Rth.
Implicit Types (L U A : Matrix num) (st : LUState num).

(** The row operation of the inner loop: row [i] loses [f] times row
    [k], from column [k] on. *)
Lemma lu_row_update n U i k (f : num) :
  dims n n U → i < n → k ≠ i →
  let U' := for_range k n
              (fun j U => <[i := <[j := sub (mget U i j) (mul f (mget U k j))]>
                                   (default [] (U !! i))]> U)
              U in
  dims n n U' ∧
  ∀ r c, r < n → c < n →
    mget U' r c = if (r =? i) && (k <=? c)
                  then sub (mget U i c) (mul f (mget U k c))
                  else mget U r c.
Proof.
  intros Hd Hi Hki. cbv zeta.
  destruct (decide (k ≤ n)) as [Hkn|Hkn].
  2:{ rewrite for_range_ge by lia. split; [done|]. intros r c Hr Hc. nat_cases. }
  set (body := fun j U => <[i := _]> U).
  set (P := fun (m : nat) (U' : Matrix num) =>
              dims n n U' ∧
              ∀ r c, r < n → c < n →
                mget U' r c = if (r =? i) && (k <=? c) && (c <? m)
                              then sub (mget U i c) (mul f (mget U k c))
                              else mget U r c).
  assert (P n (for_range k n body U)) as [Hd' Hget].
  { apply (for_range_inv P); [done| |]; unfold P.
    - split; [done|]. intros r c Hr Hc. nat_cases.
    - intros j U' Hj [Hd' Hget]. subst body. cbv beta.
      split; [by apply dims_set_cell|].
      intros r c Hr Hc. rewrite (mget_set_cell n n) by (done || lia).
      rewrite !Hget by lia. nat_cases; congruence. }
  split; [done|]. intros r c Hr Hc. rewrite Hget by done. nat_cases.
Qed.

Lemma lu_inv_push n A k i st d m :
  lu_inv n A k i st → lu_inv n A k i (lu_push st d m).
Proof. done. Qed.

Lemma lu_row_inv n A k i st :
  k < i < n → lu_inv n A k i st → lu_inv n A k (S i) (lu_row n k i st).
Proof.
  intros Hki Hinv. unfold lu_row.
  destruct (lu_done st) eqn:Hdone; [by intros ?; congruence|].
  destruct (ltb (nabs (mget (lu_U st) k k)) tol) eqn:Hsmall; [done|].
  destruct (Hinv Hdone) as (HdL & HdU & HL & HU & Hprod).
  set (f := div (mget (lu_U st) i k) (mget (lu_U st) k k)).
  destruct (lu_row_update n (lu_U st) i k f HdU ltac:(lia) ltac:(lia))
    as [HdU' HU'].
  set (U' := for_range k n _ (lu_U st)) in *.
  intros _. cbn [lu_push lu_L lu_U].
  split; [by apply dims_set_cell|]. split; [done|].
  assert (∀ r c, r < n → c < n →
            mget (<[i := <[k := f]> (default [] (lu_L st !! i))]> (lu_L st)) r c
            = if (r =? i) && (c =? k) then f else mget (lu_L st) r c) as HL'.
  { intros r c Hr Hc. apply (mget_set_cell n n); [done|lia..]. }
  assert (∀ c, c < n → c < k → mget (lu_U st) k c = zero) as Hrowk.
  { intros c Hc Hck. apply HU; [lia..|by left]. }
  split; [|split].
  - intros r c Hr Hc. rewrite HL' by done. destruct (HL r c Hr Hc) as (H1 & H2 & H3).
    repeat split.
    + intros ->. nat_cases; by apply H1.
    + intros Hlt. nat_cases; by apply H2.
    + intros Hlt Hcond. nat_cases; apply H3; lia.
  - intros r c Hr Hc Hlt Hcond. rewrite HU' by done.
    destruct (Nat.eqb_spec r i) as [->|Hri]; cbn [andb].
    + destruct (Nat.leb_spec k c) as [Hkc|Hkc].
      * assert (c = k) as -> by lia. unfold f.
        rewrite (div_mul _ _ Hsmall). ring.
      * apply HU; [lia..|by left].
    + apply HU; [lia..|]. lia.
  - intros r c Hr Hc. rewrite <- (Hprod r c Hr Hc).
    set (X := if r =? i then mul f (mget (lu_U st) k c) else zero).
    rewrite (sumn_ext n _
      (fun m => add (mul (mget (lu_L st) r m) (mget (lu_U st) m c))
                    (add (mul X (if m =? k then one else zero))
                         (mul (neg X) (if m =? i then one else zero))))).
    + rewrite <- !(sumn_add Rth).
      rewrite (sumn_delta_r Rth n (fun _ => X) k) by lia.
      rewrite (sumn_delta_r Rth n (fun _ => neg X) i) by lia. ring.
    + intros m Hm. rewrite HL', HU' by done. subst X.
      destruct (HL r i Hr ltac:(lia)) as (Hd1 & Hd2 & Hd3).
      destruct (HL i k ltac:(lia) ltac:(lia)) as (_ & _ & Hik).
      specialize (Hik ltac:(lia) ltac:(right; lia)).
      destruct (Nat.eqb_spec m k) as [Emk|Hmk], (Nat.eqb_spec m i) as [Emi|Hmi],
        (Nat.eqb_spec r i) as [Eri|Hri]; cbn [andb]; try lia;
        try subst m; try subst r.
      * rewrite Hik. ring.
      * ring.
      * destruct (Nat.leb_spec k c) as [Hkc|Hkc].
        -- rewrite Hd1 by done. ring.
        -- rewrite Hd1, Hrowk by (done || lia). ring.
      * destruct (Nat.leb_spec k c) as [Hkc|Hkc].
        -- assert (mget (lu_L st) r i = zero) as ->.
           { destruct (decide (r < i)); [by apply Hd2|apply Hd3; lia]. }
           ring.
        -- assert (mget (lu_L st) r i = zero) as ->.
           { destruct (decide (r < i)); [by apply Hd2|apply Hd3; lia]. }
           ring.
      * ring.
      * ring.
Qed.

Lemma lu_col_inv n A k st :
  k < n - 1 → lu_inv n A k (k + 1) st →
  lu_inv n A (k + 1) (k + 2) (lu_col n k st).
Proof.
  intros Hk Hinv. unfold lu_col.
  destruct (lu_done st) eqn:Hdone; [by intros ?; congruence|].
  assert (lu_inv n A k n
            (for_range (k + 1) n (lu_row n k) (lu_push st (LUWorking k) RefU)))
    as Hend.
  { apply (for_range_inv (fun i s => lu_inv n A k i s)); [lia| |].
    - by apply lu_inv_push.
    - intros i s Hi Hs. apply lu_row_inv; [lia|done]. }
  intros Hd. destruct (Hend Hd) as (HdL & HdU & HL & HU & Hprod).
  split; [done|]. split; [done|]. split; [|split; [|done]].
  - intros r c Hr Hc. destruct (HL r c Hr Hc) as (H1 & H2 & H3).
    repeat split; [done..|]. intros Hlt Hcond. apply H3; lia.
  - intros r c Hr Hc Hlt Hcond. apply HU; lia.
Qed.

(** X30: in exact arithmetic (a commutative ring in which
    [(x / y) y = x] for every [y] of magnitude at least [1e-10]), when
    the elimination meets no zero pivot the trace is complete and the
    matrices [L] and [U] it ends with are a decomposition of the input:
    [L] is unit lower triangular, [U] upper triangular, and [L U = A]. *)
Theorem generateLUSteps_decomposes n A :
  0 < n → dims n n A → lu_done (lu_final A) = false →
  let L := lu_L (lu_final A) in
  let U := lu_U (lu_final A) in
  generateLUSteps A
  = Ok (lu_steps (lu_final A)
          ++ [mkLUStep (lu_stepId (lu_final A)) LUComplete RefU], U) ∧
  multiplyMatrices L U = Ok A ∧
  (∀ i j, j < i < n → mget U i j = zero) ∧
  (∀ i j, i < j < n → mget L i j = zero) ∧
  (∀ i, i < n → mget L i i = one).
Proof.
  intros Hn Hd Hdone L U.
  pose proof (dims_length _ _ _ Hd) as Hl.
  assert (lu_inv n A (n - 1) n (lu_final A)) as Hinv.
  { unfold lu_final. rewrite Hl.
    replace n with (n - 1 + 1) at 3 by lia.
    apply (for_range_inv (fun k s => lu_inv n A k (k + 1) s)); [lia| |].
    - intros _. cbn [lu_L lu_U]. split; [apply identity_dims|]. split; [done|].
      split; [|split].
      + intros r c Hr Hc. rewrite identity_tabulate, mget_tabulate by done.
        repeat split; intros; nat_cases.
      + intros r c Hr Hc Hlt Hcond. lia.
      + intros r c Hr Hc.
        rewrite (sumn_ext n _
          (fun m => mul (if r =? m then one else zero) (mget A m c))).
        * apply (sumn_delta_l Rth n (fun m => mget A m c) r Hr).
        * intros m Hm. by rewrite identity_tabulate, mget_tabulate.
    - intros k s Hk Hs. cbv beta.
      replace (S k + 1) with (k + 2) by lia. replace (S k) with (k + 1) by lia.
      apply lu_col_inv; [lia|done]. }
  destruct (Hinv Hdone) as (HdL & HdU & HL & HU & Hprod).
  split; [|split; [|split; [|split]]].
  - subst L U.
    destruct (dims_inv_pos _ _ _ Hn Hd) as (row0 & rest & -> & Hrow0 & _).
    unfold generateLUSteps.
    replace (length (row0 :: rest) =? length row0) with true
      by (symmetry; apply Nat.eqb_eq; lia).
    cbn [negb]. fold (lu_final (row0 :: rest)). by rewrite Hdone.
  - rewrite (multiplyMatrices_tabulate n n n) by done.
    f_equal. apply (matrix_ext n n); [apply dims_tabulate|done|].
    intros r c Hr Hc. rewrite mget_tabulate by done. by apply Hprod.
  - intros i j Hij. apply HU; lia.
  - intros i j Hij. destruct (HL i j ltac:(lia) ltac:(lia)) as (_ & H2 & _).
    apply H2. lia.
  - intros i Hi. destruct (HL i i Hi Hi) as (H1 & _). by apply H1.
Qed.

End LUDecomposition.

Lemma Qc_div_mul (x y : Qc) :
  ltb (nabs y) tol = false → mul (div x y) y = x.
Proof.
  intros Hy. simpl. rewrite Qcmult_comm. apply Qcmult_div_r. intros ->.
  vm_compute in Hy. discriminate Hy.
Qed.

Lemma generateLUSteps_decomposes_witness :
  let A := qmat [[2; 1; 1]; [4; 5; 2]; [2; 7; 9]]%Q in
  0 < 3 ∧ dims 3 3 A ∧ lu_done (lu_final A) = false ∧
  let L := lu_L (lu_final A) in
  let U := lu_U (lu_final A) in
  generateLUSteps A
  = Ok (lu_steps (lu_final A)
          ++ [mkLUStep (lu_stepId (lu_final A)) LUComplete RefU], U) ∧
  multiplyMatrices L U = Ok A ∧
  (∀ i j, j < i < 3 → mget U i j = zero) ∧
  (∀ i j, i < j < 3 → mget L i j = zero) ∧
  (∀ i, i < 3 → mget L i i = one).
Proof.
  intros A.
  assert (dims 3 3 A) as Hd by (split; [reflexivity|repeat constructor]).
  assert (lu_done (lu_final A) = false) as Hdone by (by vm_compute).
  split; [lia|]. split; [exact Hd|]. split; [exact Hdone|].
  apply (@generateLUSteps_decomposes Qc Qc_arith Qcrt Qc_div_mul 3 A);
    [lia | exact Hd | exact Hdone].
Defined.

(** ** The rank of a matrix in reduced row echelon form *)

Lemma float_nan_not_one : (nan : float) ≠ one.
Proof.
  intros Heq.
  assert (PrimFloat.eqb nan nan = PrimFloat.eqb one one) as Hx
    by (by rewrite Heq).
  vm_compute in Hx. discriminate Hx.
Qed.

Section RankExact.
Context {num : Type} `{Arith num}.
Hypothesis eqb_one : ∀ x : num, eqb x one = true → x = one.
Hypothesis eqb_zero : ∀ x : num, eqb x zero = true → nabs x = nabs zero.
Hypothesis zero_not_above_zero : ltb (nabs zero) (nabs zero) = false.
Hypothesis zero_not_above_one : ltb (nabs one) (nabs zero) = false.
Hypothesis zero_below_tol : ltb (nabs zero) tol = true.
Hypothesis one_not_below_tol : ltb (nabs one) tol = false.
Hypothesis zero_not_above_tol : ltb tol (nabs zero) = false.
Hypothesis one_above_tol : ltb tol (nabs one) = true.
Hypothesis nan_not_one : (nan : num) ≠ one.
Implicit Types (M : Matrix num).

(** X10: of a rectangular matrix in exact reduced row echelon form
    [rank] counts the pivots.  The premises on the arithmetic are those
    of the theorem on [rref] above, with [1e-10 < |1|] and [NaN] not 1. *)
Theorem rank_counts_pivots rows cols M (pivots : list nat) :
  0 < rows → dims rows cols M → exact_rref pivots M = true →
  (∀ k j, k < rows → j < cols → div (mget M k j) one = mget M k j) →
  rank M = Ok (length pivots).
Proof.
  intros Hpos Hd Hexact Hdiv.
  pose proof (dims_length _ _ _ Hd) as Hl.
  assert (M ≠ []) as Hne by (intros ->; simpl in Hl; lia).
  unfold rank.
  rewrite (rref_exact_fixed eqb_one eqb_zero zero_not_above_zero
             zero_not_above_one zero_below_tol one_not_below_tol
             zero_not_above_tol pivots M Hexact).
  2:{ intros k j Hk Hj. apply Hdiv; [lia|].
      rewrite (dims_row rows cols M 0 Hd Hpos) in Hj. lia. }
  2: done.
  cbn [rbind]. f_equal.
  pose proof (exact_leading pivots M Hexact) as Hlead.
  set (f := fun row : list num => existsb (fun val => gtb (nabs val) tol) row).
  assert (∀ k, k ≤ rows →
            foldl (fun rank row => if f row then rank + 1 else rank) 0 (take k M)
            = Nat.min k (length pivots)) as Hcount.
  { induction k as [|k IH]; intros Hk; [done|].
    destruct (lookup_lt_is_Some_2 M k) as [row Hrow]; [lia|].
    rewrite (take_S_r M k row Hrow), foldl_app, IH by lia. cbn [foldl].
    assert (length row = cols) as Hlen by (by eapply dims_lookup).
    destruct (decide (k < length pivots)) as [Hkp|Hkp].
    - destruct (exact_pivot_row eqb_one eqb_zero pivots M Hexact k Hkp)
        as (Hone & _).
      assert (f row = true) as ->; [|cbv iota; lia].
      apply existsb_exists. exists one. split; [|apply one_above_tol].
      unfold mget, vget in Hone. rewrite Hrow in Hone. simpl in Hone.
      destruct (row !! pivot_col pivots k) as [x|] eqn:Hx.
      + simpl in Hone. subst x. apply list_elem_of_In.
        by eapply list_elem_of_lookup_2.
      + simpl in Hone. by destruct nan_not_one.
    - assert (f row = false) as ->; [|cbv iota; lia].
      apply not_true_is_false. intros (x & Hin & Hx)%existsb_exists.
      apply list_elem_of_In, list_elem_of_lookup_1 in Hin as [j Hj].
      pose proof (lookup_lt_Some _ _ _ Hj) as Hjlt.
      pose proof (exact_zero_row eqb_zero pivots M Hexact k j) as Hz.
      unfold mget, vget in Hz. rewrite Hrow in Hz. simpl in Hz.
      rewrite Hj in Hz. simpl in Hz. unfold gtb in Hx.
      rewrite Hz, zero_not_above_tol in Hx.
      + discriminate Hx.
      + lia.
      + rewrite (dims_row rows cols M 0 Hd Hpos). lia. }
  specialize (Hcount rows ltac:(lia)).
  rewrite <- Hl, firstn_all in Hcount.
  change (foldl (fun rank row => if f row then rank + 1 else rank) 0 M
          = length pivots).
  rewrite Hcount. lia.
Qed.

End RankExact.

Lemma rank_counts_pivots_witness :
  let M := [[1; 0; -1]; [0; 1; 2]; [0; 0; 0]]%float in
  0 < 3 ∧ dims 3 3 M ∧ exact_rref [0; 1] M = true ∧
  (∀ k j, k < 3 → j < 3 → div (mget M k j) one = mget M k j) ∧
  rank M = Ok 2.
Proof.
  cbv zeta.
  assert (dims 3 3 [[1; 0; -1]; [0; 1; 2]; [0; 0; 0]]%float) as Hd
    by (split; [reflexivity|repeat constructor]).
  assert (∀ k j, k < 3 → j < 3 →
            div (mget [[1; 0; -1]; [0; 1; 2]; [0; 0; 0]]%float k j) one
            = mget [[1; 0; -1]; [0; 1; 2]; [0; 0; 0]]%float k j) as Hdiv.
  { intros k j Hk Hj.
    destruct k as [|[|[|k]]]; [| | |lia];
      (destruct j as [|[|[|j]]]; [| | |lia]); vm_compute; reflexivity. }
  split; [lia|]. split; [exact Hd|]. split; [vm_compute; reflexivity|].
  split; [exact Hdiv|].
  apply (@rank_counts_pivots float float_arith float_eqb_one float_eqb_zero
           eq_refl eq_refl eq_refl eq_refl eq_refl eq_refl float_nan_not_one
           3 3 _ [0; 1]);
    [lia | exact Hd | vm_compute; reflexivity | exact Hdiv].
Defined.

(** ** The equation solver never fails on a well-formed system *)

Section SolverTotal.
Context {num : Type} `{Arith num}.
Implicit Types (A : Matrix num) (b : Vector num).




End SolverTotal.

